(** * Order execution engine: router, execution service and queue

    A shallow embedding of the TypeScript services
    [dex-router.service.ts], [execution.service.ts], [in-memory.ts] and
    [simple-queue.service.ts], and the properties of the specification
    checked against them.

    Conventions of the embedding.
    - A JavaScript number that the code keeps finite is a rational [Q]
      (exact arithmetic: the rounding of IEEE doubles is not modelled);
      the 32-bit integer steps of [simpleHash] are integers [Z] with the
      wrap-around written out.
    - [Math.random()] and [new Date()] are inputs: every function that
      draws a random number or reads the clock takes the drawn value as
      an argument.
    - JavaScript runs the code between two [await]s as one block. The
      queue is a machine with one action per block of [addOrder],
      [processQueue] and [processJob]. A call of [processOrder] is run as
      a single block at the moment it settles: its inner [await]s only
      let blocks of other orders run, which change other jobs and other
      keys of the store. Timers only pass time and are left out, except
      the queue's backoff delay, whose length is recorded.
    - A [throw] is the constructor [Throws] of the type [result]; state
      changes made before a throw are kept, as in JavaScript.
    - [emit] is the method of Node's [EventEmitter]: the listeners of
      the event name are called synchronously in the order of their
      registration, and a value thrown by a listener leaves [emit] at
      once. Logging is left out. *)

From Stdlib Require Import ZArith QArith Qround Qminmax String Ascii List.
From Stdlib Require Import Sorted Lia Lqa.
From stdpp Require Import gmap strings list.

Open Scope Z_scope.
Open Scope string_scope.

(** ** models/order.model.ts *)

Inductive OrderStatus :=
  PENDING | ROUTING | BUILDING | SUBMITTED | CONFIRMED | FAILED.

Inductive OrderType := MARKET | LIMIT | SNIPER.

Inductive Dex := raydium | meteora.

(** A number that may be NaN (the product of [undefined] and a number). *)
Inductive number := Num (q : Q) | NaN.

Record Order := mkOrder {
  id : string;
  type : OrderType;
  tokenIn : string;
  tokenOut : string;
  amountIn : Q;
  slippage : Q;
  status : OrderStatus;
  selectedDex : option Dex;
  raydiumQuote : option Q;
  meteoraQuote : option Q;
  executedPrice : option number;
  outputAmount : option number;
  txHash : option string;
  error : option string;
  retryCount : Z;
  createdAt : Z;
  updatedAt : Z
}.

Record DexQuote := mkQuote {
  dex : Dex;
  price : Q;
  fee : Q;
  estimatedOutput : Q;
  timestamp : Z
}.

Record ExecutionResult := mkResult {
  success : bool;
  r_txHash : option string;
  r_executedPrice : option number;
  r_outputAmount : option number;
  r_error : option string
}.

(** ** Exceptions *)

(** A thrown value: an [Error] object with its message, or anything
    else. *)
Inductive thrown := ErrorObj (message : string) | NonError.

Inductive result (A : Type) := Returns (a : A) | Throws (e : thrown).
Arguments Returns {A} a.
Arguments Throws {A} e.

(** [error instanceof Error ? error.message : 'Unknown error'] *)
Definition errorMessageOf (e : thrown) : string :=
  match e with
  | ErrorObj m => m
  | NonError => "Unknown error"
  end.

(** ** services/dex-router.service.ts *)

Module DexRouter.

(** ToInt32 of an integer-valued number. *)
Definition toInt32 (z : Z) : Z := (z + 2 ^ 31) mod 2 ^ 32 - 2 ^ 31.

(** The UTF-16 code units of a string (here: of 8-bit characters). *)
Fixpoint charCodes (s : string) : list Z :=
  match s with
  | EmptyString => []
  | String c s' => Z.of_nat (nat_of_ascii c) :: charCodes s'
  end.

(** One turn of the loop of [simpleHash]:
    [hash = ((hash << 5) - hash) + char; hash = hash & hash]. *)
Definition hashStep (hash char : Z) : Z :=
  let hash1 := toInt32 (Z.shiftl (toInt32 hash) 5) - hash + char in
  Z.land (toInt32 hash1) (toInt32 hash1).

Definition simpleHash (str : string) : Z :=
  Z.abs (fold_left hashStep (charCodes str) 0).

(** [1.0 + (hash % 100) / 100]; [%] is the truncated remainder. *)
Definition calculateBasePrice (tokenIn tokenOut : string) : Q :=
  let hash := simpleHash (tokenIn ++ tokenOut) in
  (1 + inject_Z (Z.rem hash 100) / 100)%Q.

(** [getRaydiumQuote]; [rnd] is the draw of the variance, [now] the
    clock. *)
Definition getRaydiumQuote (tokenIn tokenOut : string) (amount : Q)
    (rnd : Q) (now : Z) : DexQuote :=
  let basePrice := calculateBasePrice tokenIn tokenOut in
  let variance := (0.98 + rnd * 0.04)%Q in
  let price := (basePrice * variance)%Q in
  let fee := 0.003%Q in
  {| dex := raydium;
     price := price;
     fee := fee;
     estimatedOutput := (amount * price * (1 - fee))%Q;
     timestamp := now |}.

Definition getMeteorQuote (tokenIn tokenOut : string) (amount : Q)
    (rnd : Q) (now : Z) : DexQuote :=
  let basePrice := calculateBasePrice tokenIn tokenOut in
  let variance := (0.97 + rnd * 0.05)%Q in
  let price := (basePrice * variance)%Q in
  let fee := 0.002%Q in
  {| dex := meteora;
     price := price;
     fee := fee;
     estimatedOutput := (amount * price * (1 - fee))%Q;
     timestamp := now |}.

Record BestQuote := mkBest {
  best : DexQuote;
  bq_raydium : DexQuote;
  bq_meteora : DexQuote
}.

(** [a > b] on numbers. *)
Definition gtb (a b : Q) : bool :=
  match (a ?= b)%Q with Gt => true | _ => false end.

(** [a < b] on numbers. *)
Definition ltb (a b : Q) : bool :=
  match (a ?= b)%Q with Lt => true | _ => false end.

(** The choice made by [getBestQuote] between the two quotes. *)
Definition pickBest (raydiumQuote meteoraQuote : DexQuote) : DexQuote :=
  if gtb (estimatedOutput raydiumQuote) (estimatedOutput meteoraQuote)
  then raydiumQuote
  else meteoraQuote.

(** [getBestQuote]; the percentage difference is only logged. *)
Definition getBestQuote (tokenIn tokenOut : string) (amount : Q)
    (rndR rndM : Q) (now : Z) : BestQuote :=
  let raydiumQuote := getRaydiumQuote tokenIn tokenOut amount rndR now in
  let meteoraQuote := getMeteorQuote tokenIn tokenOut amount rndM now in
  let bestQuote := pickBest raydiumQuote meteoraQuote in
  {| best := bestQuote;
     bq_raydium := raydiumQuote;
     bq_meteora := meteoraQuote |}.

Definition dexName (d : Dex) : string :=
  match d with raydium => "raydium" | meteora => "meteora" end.

(** [dex.toUpperCase()] *)
Definition dexUpper (d : Dex) : string :=
  match d with raydium => "RAYDIUM" | meteora => "METEORA" end.

Definition chars : list ascii :=
  list_ascii_of_string "0123456789abcdef".

(** [chars[Math.floor(r * chars.length)]] appended to a string; an index
    outside the string reads [undefined]. *)
Definition hexChar (r : Q) : string :=
  let i := Qfloor (r * inject_Z (Z.of_nat (length chars)))%Q in
  if (i <? 0)%Z then "undefined"
  else match nth_error chars (Z.to_nat i) with
       | Some c => String c EmptyString
       | None => "undefined"
       end.

(** [generateMockTxHash]; [draw i] is the random number of turn [i]. *)
Fixpoint txHashFrom (draw : nat -> Q) (i n : nat) : string :=
  match n with
  | O => ""
  | S n' => hexChar (draw i) ++ txHashFrom draw (S i) n'
  end.

Definition generateMockTxHash (draw : nat -> Q) : string :=
  txHashFrom draw 0 64.

(** The random numbers of one call of [executeSwap]. *)
Record SwapDraws := mkSwapDraws {
  failDraw : Q;
  slipDraw : Q;
  hashDraw : nat -> Q
}.

Definition numMul (a b : number) : number :=
  match a, b with
  | Num x, Num y => Num (x * y)%Q
  | _, _ => NaN
  end.

(** [order.executedPrice!]: the assertion is erased, [undefined] in
    arithmetic is NaN. *)
Definition toNumber (o : option number) : number :=
  match o with Some n => n | None => NaN end.

(** The [try] block of [executeSwap]. *)
Definition executeSwapBody (d : Dex) (order : Order) (rnd : SwapDraws)
    : result ExecutionResult :=
  if ltb (failDraw rnd) 0.05%Q then
    Throws (ErrorObj (dexName d ++ " execution failed: Network timeout"))
  else
    let executedPrice :=
      numMul (toNumber (executedPrice order))
             (Num (1 - slipDraw rnd * (slippage order / 100))%Q) in
    let outputAmount := numMul (Num (amountIn order)) executedPrice in
    Returns {| success := true;
               r_txHash := Some (generateMockTxHash (hashDraw rnd));
               r_executedPrice := Some executedPrice;
               r_outputAmount := Some outputAmount;
               r_error := None |}.

(** [executeSwap]: the [try] block and its [catch]. *)
Definition executeSwap (d : Dex) (order : Order) (rnd : SwapDraws)
    : result ExecutionResult :=
  match executeSwapBody d order rnd with
  | Returns r => Returns r
  | Throws e =>
      let errorMsg := errorMessageOf e in
      Returns {| success := false;
                 r_txHash := None;
                 r_executedPrice := None;
                 r_outputAmount := None;
                 r_error := Some errorMsg |}
  end.

End DexRouter.

Import DexRouter.

(** ** Field updates of an order *)

Definition set_status (v : OrderStatus) (o : Order) : Order :=
  mkOrder (id o) (type o) (tokenIn o) (tokenOut o) (amountIn o)
    (slippage o) v (selectedDex o) (raydiumQuote o) (meteoraQuote o)
    (executedPrice o) (outputAmount o) (txHash o) (error o)
    (retryCount o) (createdAt o) (updatedAt o).

Definition set_selectedDex (v : option Dex) (o : Order) : Order :=
  mkOrder (id o) (type o) (tokenIn o) (tokenOut o) (amountIn o)
    (slippage o) (status o) v (raydiumQuote o) (meteoraQuote o)
    (executedPrice o) (outputAmount o) (txHash o) (error o)
    (retryCount o) (createdAt o) (updatedAt o).

Definition set_raydiumQuote (v : option Q) (o : Order) : Order :=
  mkOrder (id o) (type o) (tokenIn o) (tokenOut o) (amountIn o)
    (slippage o) (status o) (selectedDex o) v (meteoraQuote o)
    (executedPrice o) (outputAmount o) (txHash o) (error o)
    (retryCount o) (createdAt o) (updatedAt o).

Definition set_meteoraQuote (v : option Q) (o : Order) : Order :=
  mkOrder (id o) (type o) (tokenIn o) (tokenOut o) (amountIn o)
    (slippage o) (status o) (selectedDex o) (raydiumQuote o) v
    (executedPrice o) (outputAmount o) (txHash o) (error o)
    (retryCount o) (createdAt o) (updatedAt o).

Definition set_executedPrice (v : option number) (o : Order) : Order :=
  mkOrder (id o) (type o) (tokenIn o) (tokenOut o) (amountIn o)
    (slippage o) (status o) (selectedDex o) (raydiumQuote o)
    (meteoraQuote o) v (outputAmount o) (txHash o) (error o)
    (retryCount o) (createdAt o) (updatedAt o).

Definition set_outputAmount (v : option number) (o : Order) : Order :=
  mkOrder (id o) (type o) (tokenIn o) (tokenOut o) (amountIn o)
    (slippage o) (status o) (selectedDex o) (raydiumQuote o)
    (meteoraQuote o) (executedPrice o) v (txHash o) (error o)
    (retryCount o) (createdAt o) (updatedAt o).

Definition set_txHash (v : option string) (o : Order) : Order :=
  mkOrder (id o) (type o) (tokenIn o) (tokenOut o) (amountIn o)
    (slippage o) (status o) (selectedDex o) (raydiumQuote o)
    (meteoraQuote o) (executedPrice o) (outputAmount o) v (error o)
    (retryCount o) (createdAt o) (updatedAt o).

Definition set_error (v : option string) (o : Order) : Order :=
  mkOrder (id o) (type o) (tokenIn o) (tokenOut o) (amountIn o)
    (slippage o) (status o) (selectedDex o) (raydiumQuote o)
    (meteoraQuote o) (executedPrice o) (outputAmount o) (txHash o) v
    (retryCount o) (createdAt o) (updatedAt o).

Definition set_updatedAt (v : Z) (o : Order) : Order :=
  mkOrder (id o) (type o) (tokenIn o) (tokenOut o) (amountIn o)
    (slippage o) (status o) (selectedDex o) (raydiumQuote o)
    (meteoraQuote o) (executedPrice o) (outputAmount o) (txHash o)
    (error o) (retryCount o) (createdAt o) v.

(** ** Status events and the state shared by the services *)

Record StatusData := mkData {
  d_selectedDex : option string;
  d_raydiumQuote : option Q;
  d_meteoraQuote : option Q;
  d_executedPrice : option number;
  d_txHash : option string;
  d_error : option string
}.

Record OrderStatusUpdate := mkUpdate {
  orderId : string;
  u_status : OrderStatus;
  u_message : option string;
  u_data : option StatusData;
  u_timestamp : Z
}.

(** A subscriber's callback: it returns, or throws a value. *)
Definition Callback : Type := OrderStatusUpdate -> option thrown.

(** One call of a listener: its handle, the event name, the event. *)
Record Delivery := mkDelivery {
  dl_handle : nat;
  dl_name : string;
  dl_update : OrderStatusUpdate
}.

(** What can be read at the moment an event is built and emitted: the
    status of the order object in processing and the status of the
    record kept by the store under the same id. *)
Record Emission := mkEmission {
  update : OrderStatusUpdate;
  objectStatus : OrderStatus;
  storedStatus : option OrderStatus
}.

(** The store's [orders] map, the listeners of the event emitter by event
    name (in the order of registration, each with the handle of its
    subscription), the clock, and two records of what happened: the
    listener calls and the events built by [emitStatusUpdate]. *)
Record World := mkWorld {
  orders : gmap string Order;
  listeners : gmap string (list (nat * Callback));
  nextHandle : nat;
  now : Z;
  delivered : list Delivery;
  published : list Emission
}.

Definition set_orders (v : gmap string Order) (w : World) : World :=
  mkWorld v (listeners w) (nextHandle w) (now w) (delivered w)
    (published w).

Definition set_delivered (v : list Delivery) (w : World) : World :=
  mkWorld (orders w) (listeners w) (nextHandle w) (now w) v (published w).

Definition set_published (v : list Emission) (w : World) : World :=
  mkWorld (orders w) (listeners w) (nextHandle w) (now w) (delivered w) v.

Definition emptyWorld : World := mkWorld ∅ ∅ 0%nat 0 [] [].

(** ** Computations over an order object and the world *)

Definition M (A : Type) : Type :=
  Order * World -> result A * (Order * World).

Definition ret {A} (a : A) : M A := fun s => (Returns a, s).

Definition bind {A B} (c : M A) (k : A -> M B) : M B :=
  fun s =>
    match c s with
    | (Returns a, s') => k a s'
    | (Throws e, s') => (Throws e, s')
    end.

Definition throw {A} (e : thrown) : M A := fun s => (Throws e, s).

Definition tryCatch {A} (c : M A) (handler : thrown -> M A) : M A :=
  fun s =>
    match c s with
    | (Returns a, s') => (Returns a, s')
    | (Throws e, s') => handler e s'
    end.

Definition getOrderObject : M Order := fun s => (Returns (fst s), s).

Definition modifyOrderObject (f : Order -> Order) : M unit :=
  fun s => (Returns tt, (f (fst s), snd s)).

Declare Scope exec_scope.
Delimit Scope exec_scope with exec.
Notation "x <- c ;; k" := (bind c (fun x => k))
  (at level 100, c at next level, right associativity) : exec_scope.
Notation "c ;;; k" := (bind c (fun _ => k))
  (at level 100, right associativity) : exec_scope.

(** ** db/in-memory.ts *)

Module InMemoryDatabase.

(** [createOrder]: the map receives a copy of the order. *)
Definition createOrder (order : Order) (w : World) : World :=
  set_orders (<[id order := order]> (orders w)) w.

(** [updateOrder]: [updates] is the merge of the given fields. *)
Definition updateOrder (orderId : string) (updates : Order -> Order)
    : M Order :=
  fun s =>
    let w := snd s in
    match orders w !! orderId with
    | None =>
        (Throws (ErrorObj ("Order " ++ orderId ++ " not found")), s)
    | Some order =>
        let updatedOrder := set_updatedAt (now w) (updates order) in
        (Returns updatedOrder,
         (fst s, set_orders (<[orderId := updatedOrder]> (orders w)) w))
    end.

Definition getOrder (orderId : string) (w : World) : option Order :=
  orders w !! orderId.

End InMemoryDatabase.

(** ** services/execution.service.ts *)

Module ExecutionService.

Import InMemoryDatabase.

(** The event emitter's [emit] over the listeners of one name, in the
    order of registration: each is called with the event; a listener
    that throws ends the calls, and [emit] throws that value. *)
Fixpoint callListeners (name : string) (ls : list (nat * Callback))
    (u : OrderStatusUpdate) : option thrown * list Delivery :=
  match ls with
  | [] => (None, [])
  | (h, cb) :: rest =>
      match cb u with
      | Some e => (Some e, [mkDelivery h name u])
      | None =>
          let (r, d) := callListeners name rest u in
          (r, mkDelivery h name u :: d)
      end
  end.

Definition listenersOf (name : string) (w : World)
    : list (nat * Callback) :=
  match listeners w !! name with Some ls => ls | None => [] end.

Definition emit (name : string) (u : OrderStatusUpdate) : M unit :=
  fun s =>
    let w := snd s in
    let (r, d) := callListeners name (listenersOf name w) u in
    let s' := (fst s, set_delivered (delivered w ++ d) w) in
    match r with
    | None => (Returns tt, s')
    | Some e => (Throws e, s')
    end.

(** The name of the event of one order: [`order:${orderId}`]. *)
Definition orderEvent (orderId : string) : string := "order:" ++ orderId.

(** Recording of the event just built, with what can be read then. *)
Definition observe (u : OrderStatusUpdate) : M unit :=
  fun s =>
    let w := snd s in
    let e := {| update := u;
                objectStatus := status (fst s);
                storedStatus := status <$> (orders w !! orderId u) |} in
    (Returns tt, (fst s, set_published (published w ++ [e]) w)).

Definition emitStatusUpdate (st : OrderStatus) (msg : option string)
    (dat : option StatusData) : M unit :=
  (order <- getOrderObject ;;
   w <- (fun s => (Returns (snd s), s)) ;;
   let statusUpdate :=
     {| orderId := id order;
        u_status := st;
        u_message := msg;
        u_data := dat;
        u_timestamp := now w |} in
   observe statusUpdate ;;;
   emit (orderEvent (id order)) statusUpdate ;;;
   emit "order:update" statusUpdate)%exec.

Definition updateOrderStatus (st : OrderStatus) (msg : option string)
    (dat : option StatusData) : M unit :=
  (modifyOrderObject (set_status st) ;;;
   emitStatusUpdate st msg dat)%exec.

(** The random numbers of one run of [processOrder]. *)
Record Oracle := mkOracle {
  rndRaydium : Q;
  rndMeteora : Q;
  swapDraws : SwapDraws
}.

(** [executionResult.error || 'Execution failed'] *)
Definition errorOr (e : option string) (dflt : string) : string :=
  match e with
  | Some m => if decide (m = "") then dflt else m
  | None => dflt
  end.

(** The [try] block of [processOrder]. *)
Definition processOrderBody (orc : Oracle) : M unit :=
  (updateOrderStatus PENDING (Some "Order received and queued") None ;;;
   updateOrderStatus ROUTING (Some "Comparing DEX prices") None ;;;
   order <- getOrderObject ;;
   w <- (fun s => (Returns (snd s), s)) ;;
   let q := getBestQuote (tokenIn order) (tokenOut order) (amountIn order)
              (rndRaydium orc) (rndMeteora orc) (now w) in
   let best := best q in
   let raydium := bq_raydium q in
   let meteora := bq_meteora q in
   modifyOrderObject (fun o =>
     set_executedPrice (Some (Num (price best)))
       (set_meteoraQuote (Some (price meteora))
         (set_raydiumQuote (Some (price raydium))
           (set_selectedDex (Some (dex best)) o)))) ;;;
   _ <- updateOrder (id order) (fun o =>
     set_executedPrice (Some (Num (price best)))
       (set_meteoraQuote (Some (price meteora))
         (set_raydiumQuote (Some (price raydium))
           (set_selectedDex (Some (dex best)) o)))) ;;
   emitStatusUpdate ROUTING
     (Some ("Best route: " ++ dexUpper (dex best)))
     (Some (mkData (Some (dexName (dex best))) (Some (price raydium))
              (Some (price meteora)) None None None)) ;;;
   updateOrderStatus BUILDING (Some "Creating transaction") None ;;;
   updateOrderStatus SUBMITTED
     (Some ("Transaction sent to " ++ dexUpper (dex best))) None ;;;
   order' <- getOrderObject ;;
   executionResult <-
     (fun s => (executeSwap (dex best) order' (swapDraws orc), s)) ;;
   if negb (success executionResult) then
     throw (ErrorObj (errorOr (r_error executionResult)
                        "Execution failed"))
   else
     updateOrderStatus CONFIRMED (Some "Transaction successful")
       (Some (mkData None None None (r_executedPrice executionResult)
                (r_txHash executionResult) None)) ;;;
     _ <- updateOrder (id order) (fun o =>
       set_outputAmount (r_outputAmount executionResult)
         (set_executedPrice (r_executedPrice executionResult)
           (set_txHash (r_txHash executionResult)
             (set_status CONFIRMED o)))) ;;
     ret tt)%exec.

(** The [catch] block of [processOrder]. *)
Definition processOrderCatch (error : thrown) : M unit :=
  (let errorMessage := errorMessageOf error in
   order <- getOrderObject ;;
   updateOrderStatus FAILED (Some "Execution failed")
     (Some (mkData None None None None None (Some errorMessage))) ;;;
   _ <- updateOrder (id order) (fun o =>
     set_error (Some errorMessage) (set_status FAILED o)) ;;
   throw error)%exec.

Definition processOrder (orc : Oracle) : M unit :=
  tryCatch (processOrderBody orc) processOrderCatch.

(** [subscribeToOrder]: a new listener, which calls the callback, is
    appended to the listeners of the order's event; the result is the
    handle that [unsubscribe] removes. *)
Definition subscribeToOrder (orderId : string) (callback : Callback)
    (w : World) : nat * World :=
  let h := nextHandle w in
  let name := orderEvent orderId in
  let ls := (listenersOf name w ++ [(h, callback)])%list in
  (h, mkWorld (orders w) (<[name := ls]> (listeners w))
        (S h) (now w) (delivered w) (published w)).

Definition unsubscribe (orderId : string) (h : nat) (w : World) : World :=
  let name := orderEvent orderId in
  mkWorld (orders w)
    (<[name := filter (fun l => fst l ≠ h) (listenersOf name w)]>
       (listeners w))
    (nextHandle w) (now w) (delivered w) (published w).

End ExecutionService.

(** ** config and services/simple-queue.service.ts *)

(** [config.queue]: the two values read from the environment (defaults
    10 and 3). *)
Record Config := mkConfig {
  concurrency : Z;
  maxRetries : Z
}.

Definition defaultConfig : Config := mkConfig 10 3.

Module SimpleQueueService.

Import ExecutionService.

Inductive JobStatus := waiting | active | completed | failed.

Record QueueJob := mkJob {
  j_id : string;
  j_order : Order;
  attempts : Z;
  j_status : JobStatus;
  j_error : option string;
  j_createdAt : Z
}.

Definition set_j_order (v : Order) (j : QueueJob) : QueueJob :=
  mkJob (j_id j) v (attempts j) (j_status j) (j_error j) (j_createdAt j).

Definition set_attempts (v : Z) (j : QueueJob) : QueueJob :=
  mkJob (j_id j) (j_order j) v (j_status j) (j_error j) (j_createdAt j).

Definition set_j_status (v : JobStatus) (j : QueueJob) : QueueJob :=
  mkJob (j_id j) (j_order j) (attempts j) v (j_error j) (j_createdAt j).

Definition set_j_error (v : option string) (j : QueueJob) : QueueJob :=
  mkJob (j_id j) (j_order j) (attempts j) (j_status j) v (j_createdAt j).

(** The fields of the service, then the calls of [processJob] that are
    suspended ([running]: in [await processOrder]; [backoff]: in the
    retry delay, with the delay in ms), the number of [processQueue]
    loops alive, and the state shared with the other services. A job
    object is held by one list at a time, so the lists hold values. *)
Record Queue := mkQueue {
  queue : list QueueJob;
  activeJobs : gset string;
  completedJobs : list QueueJob;
  failedJobs : list QueueJob;
  processing : bool;
  running : list QueueJob;
  backoff : list (QueueJob * Z);
  loops : nat;
  world : World
}.

Definition set_queue (v : list QueueJob) (s : Queue) : Queue :=
  mkQueue v (activeJobs s) (completedJobs s) (failedJobs s) (processing s)
    (running s) (backoff s) (loops s) (world s).

Definition set_activeJobs (v : gset string) (s : Queue) : Queue :=
  mkQueue (queue s) v (completedJobs s) (failedJobs s) (processing s)
    (running s) (backoff s) (loops s) (world s).

Definition set_completedJobs (v : list QueueJob) (s : Queue) : Queue :=
  mkQueue (queue s) (activeJobs s) v (failedJobs s) (processing s)
    (running s) (backoff s) (loops s) (world s).

Definition set_failedJobs (v : list QueueJob) (s : Queue) : Queue :=
  mkQueue (queue s) (activeJobs s) (completedJobs s) v (processing s)
    (running s) (backoff s) (loops s) (world s).

Definition set_processing (v : bool) (s : Queue) : Queue :=
  mkQueue (queue s) (activeJobs s) (completedJobs s) (failedJobs s) v
    (running s) (backoff s) (loops s) (world s).

Definition set_running (v : list QueueJob) (s : Queue) : Queue :=
  mkQueue (queue s) (activeJobs s) (completedJobs s) (failedJobs s)
    (processing s) v (backoff s) (loops s) (world s).

Definition set_backoff (v : list (QueueJob * Z)) (s : Queue) : Queue :=
  mkQueue (queue s) (activeJobs s) (completedJobs s) (failedJobs s)
    (processing s) (running s) v (loops s) (world s).

Definition set_loops (v : nat) (s : Queue) : Queue :=
  mkQueue (queue s) (activeJobs s) (completedJobs s) (failedJobs s)
    (processing s) (running s) (backoff s) v (world s).

Definition set_world (v : World) (s : Queue) : Queue :=
  mkQueue (queue s) (activeJobs s) (completedJobs s) (failedJobs s)
    (processing s) (running s) (backoff s) (loops s) v.

Definition init : Queue :=
  mkQueue [] ∅ [] [] false [] [] 0%nat emptyWorld.

Section Service.

Variable config : Config.

(** [processJob] up to [await executionService.processOrder]. *)
Definition processJobStart (job : QueueJob) (s : Queue) : Queue :=
  let s := set_activeJobs ({[ j_id job ]} ∪ activeJobs s) s in
  let job := set_j_status active job in
  let job := set_attempts (attempts job + 1) job in
  set_running (running s ++ [job]) s.

(** The inner loop of [processQueue] over the waiting list: while the
    active set is below the limit and a job waits, the first is taken
    off the list and started. *)
Fixpoint startWaiting (waitingJobs : list QueueJob) (s : Queue) : Queue :=
  match waitingJobs with
  | [] => set_queue [] s
  | job :: rest =>
      if (Z.of_nat (size (activeJobs s)) <? concurrency config)%Z
      then startWaiting rest (processJobStart job (set_queue rest s))
      else set_queue (job :: rest) s
  end.

(** One turn of the outer loop of [processQueue], from the test of its
    condition to the next [await this.delay(100)], or to the end of the
    loop. *)
Definition loopTurn (s : Queue) : Queue :=
  if bool_decide (queue s ≠ []) || bool_decide (size (activeJobs s) ≠ 0%nat)
  then startWaiting (queue s) s
  else set_loops (pred (loops s)) (set_processing false s).

Definition processQueue (s : Queue) : Queue :=
  if processing s then s
  else loopTurn (set_loops (S (loops s)) (set_processing true s)).

Definition addOrder (order : Order) (s : Queue) : Queue :=
  let job := {| j_id := id order;
                j_order := order;
                attempts := 0;
                j_status := waiting;
                j_error := None;
                j_createdAt := now (world s) |} in
  let s := set_queue (queue s ++ [job]) s in
  if negb (processing s) then processQueue s else s.

(** The first element of a list that satisfies a test, and the rest. *)
Fixpoint takeFirst {A} (p : A -> bool) (l : list A)
    : option (A * list A) :=
  match l with
  | [] => None
  | x :: l' =>
      if p x then Some (x, l')
      else match takeFirst p l' with
           | Some (y, r) => Some (y, x :: r)
           | None => None
           end
  end.

Definition hasId (i : string) (j : QueueJob) : bool :=
  bool_decide (j_id j = i).

(** [Math.pow(2, job.attempts - 1) * 1000]; [attempts] is at least 1 in a
    started job. *)
Definition retryDelay (job : QueueJob) : Z :=
  2 ^ (attempts job - 1) * 1000.

(** [processJob] from the end of [processOrder] to the retry delay or to
    the end of the function. [r] is the outcome of [processOrder] and
    [job] holds the order as [processOrder] left it. *)
Definition processJobSettle (job : QueueJob) (r : result unit)
    (s : Queue) : Queue :=
  match r with
  | Returns _ =>
      let job := set_j_status completed job in
      let s := set_completedJobs (completedJobs s ++ [job]) s in
      set_activeJobs (activeJobs s ∖ {[ j_id job ]}) s
  | Throws e =>
      let errorMsg := errorMessageOf e in
      if (attempts job <? maxRetries config)%Z then
        let delay := retryDelay job in
        set_backoff (backoff s ++ [(job, delay)]) s
      else
        let job := set_j_status failed job in
        let job := set_j_error (Some errorMsg) job in
        let s := set_failedJobs (failedJobs s ++ [job]) s in
        set_activeJobs (activeJobs s ∖ {[ j_id job ]}) s
  end.

(** [processJob] after the retry delay. *)
Definition processJobRetry (job : QueueJob) (s : Queue) : Queue :=
  let job := set_j_status waiting job in
  let s := set_queue (queue s ++ [job]) s in
  set_activeJobs (activeJobs s ∖ {[ j_id job ]}) s.

(** [getJob]: [find] over the waiting, completed and failed lists. *)
Definition getJob (orderId : string) (s : Queue) : option QueueJob :=
  match List.find (hasId orderId) (queue s) with
  | Some queuedJob => Some queuedJob
  | None =>
      match List.find (hasId orderId) (completedJobs s) with
      | Some completedJob => Some completedJob
      | None => List.find (hasId orderId) (failedJobs s)
      end
  end.

Record Stats := mkStats {
  st_waiting : nat;
  st_active : nat;
  st_completed : nat;
  st_failed : nat;
  st_total : nat
}.

Definition getStats (s : Queue) : Stats :=
  {| st_waiting := length (queue s);
     st_active := size (activeJobs s);
     st_completed := length (completedJobs s);
     st_failed := length (failedJobs s);
     st_total := length (queue s) + size (activeJobs s)
                 + length (completedJobs s) + length (failedJobs s) |}.

Definition close (s : Queue) : Queue :=
  set_activeJobs ∅ (set_queue [] (set_processing false s)).

(** *** The system as a machine

    What can happen to the services, one block of code at a time:
    the store receives an order, [addOrder] is called, a loop of
    [processQueue] wakes from [delay(100)], the [processOrder] call of a
    running job runs and settles (with the random numbers it draws), the
    retry delay of a job ends, a callback is subscribed or unsubscribed,
    the clock moves, [close] is called. An action that cannot happen in
    a state (no such job, no loop alive) leaves the state as it is. *)
Inductive Action :=
  | CreateOrder (order : Order)
  | AddOrder (order : Order)
  | Tick
  | Finish (jobId : string) (orc : Oracle)
  | Wake (jobId : string)
  | Subscribe (orderId : string) (callback : Callback)
  | Unsubscribe (orderId : string) (handle : nat)
  | ClockAt (t : Z)
  | Close.

Definition step (s : Queue) (a : Action) : Queue :=
  match a with
  | CreateOrder order =>
      set_world (InMemoryDatabase.createOrder order (world s)) s
  | AddOrder order => addOrder order s
  | Tick =>
      (* a loop of processQueue wakes from delay(100) *)
      match loops s with
      | O => s
      | S _ => loopTurn s
      end
  | Finish jobId orc =>
      (* the processOrder call of a running job runs to its end *)
      match takeFirst (hasId jobId) (running s) with
      | None => s
      | Some (job, others) =>
          let '(r, (order, w)) := processOrder orc (j_order job, world s) in
          processJobSettle (set_j_order order job) r
            (set_world w (set_running others s))
      end
  | Wake jobId =>
      (* the retry delay of a job ends *)
      match takeFirst (fun e => hasId jobId (fst e)) (backoff s) with
      | None => s
      | Some ((job, _), others) =>
          processJobRetry job (set_backoff others s)
      end
  | Subscribe orderId callback =>
      set_world (snd (subscribeToOrder orderId callback (world s))) s
  | Unsubscribe orderId handle =>
      set_world (unsubscribe orderId handle (world s)) s
  | ClockAt t =>
      set_world (mkWorld (orders (world s)) (listeners (world s))
                   (nextHandle (world s)) t (delivered (world s))
                   (published (world s))) s
  | Close => close s
  end.

Definition run (actions : list Action) (s : Queue) : Queue :=
  fold_left step actions s.

End Service.

End SimpleQueueService.

Import ExecutionService SimpleQueueService.

(** ** Sample data *)

Definition sampleOrder : Order :=
  mkOrder "o1" MARKET "SOL" "USDC" 100 1 PENDING None None None None None
    None None 0 0 0.

(** Draws with which the swap succeeds, and with which it fails. *)
Definition okDraws : Oracle :=
  mkOracle 0.5 0.5 (mkSwapDraws 0.5 0.5 (fun _ => 0.5%Q)).

Definition failDraws : Oracle :=
  mkOracle 0.5 0.5 (mkSwapDraws 0.01 0.5 (fun _ => 0.5%Q)).

(** * Notions used in the statements *)

Definition statusOf (e : Emission) : OrderStatus := u_status (update e).

(** The order object held the event's status when the event was built. *)
Definition faithful (e : Emission) : Prop := objectStatus e = statusOf e.

(** The event is about the order [i]. *)
Definition eventOf (i : string) (e : Emission) : Prop :=
  orderId (update e) = i.

(** From [s] to [s'] the order object kept its id and the events with
    statuses [L] were published, each one faithful and about the order. *)
Definition Ext (s s' : Order * World) (L : list OrderStatus) : Prop :=
  id (fst s') = id (fst s)
  /\ exists evs, published (snd s') = (published (snd s) ++ evs)%list
       /\ map statusOf evs = L
       /\ Forall (fun e => faithful e /\ eventOf (id (fst s)) e) evs.

(** The statuses of a run of [processOrder] that returns. *)
Definition pipeline : list OrderStatus :=
  [PENDING; ROUTING; ROUTING; BUILDING; SUBMITTED; CONFIRMED].

Definition statusEqb (a b : OrderStatus) : bool :=
  match a, b with
  | PENDING, PENDING | ROUTING, ROUTING | BUILDING, BUILDING
  | SUBMITTED, SUBMITTED | CONFIRMED, CONFIRMED | FAILED, FAILED => true
  | _, _ => false
  end.

(** The number of events with the status [st] in a sequence. *)
Definition occurrences (st : OrderStatus) (L : list OrderStatus) : nat :=
  length (List.filter (statusEqb st) L).

(** The events published by one run of [processOrder] from [s]. *)
Definition publishedBy (orc : Oracle) (s : Order * World) : list Emission :=
  drop (length (published (snd s)))
       (published (snd (snd (processOrder orc s)))).

Definition attemptStatuses (orc : Oracle) (s : Order * World)
    : list OrderStatus :=
  map statusOf (publishedBy orc s).

(** The status sequences of one attempt. *)
Definition allowedSequences : list (list OrderStatus) :=
  [ [PENDING; FAILED];
    [PENDING; ROUTING; FAILED];
    [PENDING; ROUTING; ROUTING; FAILED];
    [PENDING; ROUTING; ROUTING; BUILDING; FAILED];
    [PENDING; ROUTING; ROUTING; BUILDING; SUBMITTED; FAILED];
    [PENDING; ROUTING; ROUTING; BUILDING; SUBMITTED; CONFIRMED];
    [PENDING; ROUTING; ROUTING; BUILDING; SUBMITTED; CONFIRMED; FAILED] ].

(** The store after [createOrder] of the sample order. *)
Definition sampleWorld : World :=
  InMemoryDatabase.createOrder sampleOrder emptyWorld.

(** The callback of [l] returns on the event [u]. *)
Definition quietOn (u : OrderStatusUpdate) (l : nat * Callback) : Prop :=
  snd l u = None.

(** The calls made for the listeners [ls] of the event [name]. *)
Definition deliveriesTo (name : string) (u : OrderStatusUpdate)
    (ls : list (nat * Callback)) : list Delivery :=
  map (fun l => mkDelivery (fst l) name u) ls.

(** A callback that throws, and one that returns. *)
Definition throwingCallback : Callback :=
  fun _ => Some (ErrorObj "socket closed").

Definition quietCallback : Callback := fun _ => None.

(** Two subscribers of the sample order: handle 0 throws, handle 1
    returns. *)
Definition twoSubscribers : World :=
  snd (subscribeToOrder "o1" quietCallback
         (snd (subscribeToOrder "o1" throwingCallback sampleWorld))).

Definition sampleUpdate : OrderStatusUpdate :=
  mkUpdate "o1" PENDING (Some "Order received and queued") None 0.

(** The position of a status in the course of an order. *)
Definition statusRank (st : OrderStatus) : nat :=
  match st with
  | PENDING => 0
  | ROUTING => 1
  | BUILDING => 2
  | SUBMITTED => 3
  | CONFIRMED => 4
  | FAILED => 5
  end.

(** The scenario of a retry: the sample order is stored and enqueued, its
    first attempt fails, the backoff delay ends and the loop starts the
    job again. *)
Definition retryScenario : list Action :=
  [ CreateOrder sampleOrder; AddOrder sampleOrder; Finish "o1" failDraws;
    Wake "o1"; Tick ].

(** Twelve orders are enqueued under the default limit of ten. *)
Definition orderNamed (name : string) : Order :=
  mkOrder name MARKET "SOL" "USDC" 100 1 PENDING None None None None None
    None None 0 0 0.

Definition twelveOrders : list Action :=
  map (fun n => AddOrder (orderNamed n))
    ["a"; "b"; "c"; "d"; "e"; "f"; "g"; "h"; "i"; "j"; "k"; "l"].

Section AttemptCounts.

Variable config : Config.

(** The attempt counts in the four places where a job can be. *)
Definition waitingOk (j : QueueJob) : Prop :=
  attempts j = 0 \/ (1 <= attempts j < maxRetries config)%Z.

Definition runningOk (j : QueueJob) : Prop :=
  (1 <= attempts j <= Z.max 1 (maxRetries config))%Z.

Definition backoffOk (e : QueueJob * Z) : Prop :=
  (1 <= attempts (fst e) < maxRetries config)%Z
  /\ snd e = (1000 * 2 ^ (attempts (fst e) - 1))%Z.

Definition failedOk (j : QueueJob) : Prop :=
  attempts j = Z.max 1 (maxRetries config).

Definition attemptsInv (s : Queue) : Prop :=
  Forall waitingOk (queue s) /\ Forall runningOk (running s)
  /\ Forall backoffOk (backoff s) /\ Forall failedOk (failedJobs s).

End AttemptCounts.

(** The sample order fails at every attempt. *)
Definition alwaysFailing : list Action :=
  [ CreateOrder sampleOrder; AddOrder sampleOrder; Finish "o1" failDraws;
    Wake "o1"; Tick; Finish "o1" failDraws;
    Wake "o1"; Tick; Finish "o1" failDraws ].

(** The ids of the orders given to [addOrder] in a run. *)
Definition addedIds (actions : list Action) : list string :=
  flat_map (fun a => match a with AddOrder o => [id o] | _ => [] end)
    actions.

Definition countIf {A} (q : A -> bool) (l : list A) : nat :=
  length (List.filter q l).
Arguments countIf {A} q l : simpl never.

(** The number of jobs with the id [i] that the service holds. *)
Definition held (i : string) (s : Queue) : nat :=
  (countIf (hasId i) (queue s) + countIf (hasId i) (running s)
   + countIf (fun e => hasId i (fst e)) (backoff s)
   + countIf (hasId i) (completedJobs s)
   + countIf (hasId i) (failedJobs s))%nat.

Definition inFlight (i : string) (s : Queue) : nat :=
  (countIf (hasId i) (running s)
   + countIf (fun e => hasId i (fst e)) (backoff s))%nat.

(** The jobs in processing have the status active, and every id of the
    active set is the id of a job in processing. *)
Definition activeInv (s : Queue) : Prop :=
  Forall (fun j => j_status j = active) (running s)
  /\ Forall (fun e => j_status (fst e) = active) (backoff s)
  /\ forall i, i ∈ activeJobs s -> (1 <= inFlight i s)%nat.

(** The jobs of the three lists that [getJob] searches have the status
    of their list. *)
Definition restingInv (s : Queue) : Prop :=
  Forall (fun j => j_status j = waiting) (queue s)
  /\ Forall (fun j => j_status j = completed) (completedJobs s)
  /\ Forall (fun j => j_status j = failed) (failedJobs s).

Definition addedCount (i : string) (actions : list Action) : nat :=
  countIf (fun x => bool_decide (x = i)) (addedIds actions).

(** * Further notions *)

(** A character of the alphabet of [generateMockTxHash]. *)
Definition isHexDigit (c : ascii) : Prop := In c chars.

(** The sample order with a quoted price. *)
Definition quotedOrder : Order :=
  set_executedPrice (Some (Num 1.5)) sampleOrder.


(** ** db/in-memory.ts: the key-value operations

    The [kvStore] map of the store is independent of its [orders] map.
    [timers] lists the expiry timers that are pending, each with the key
    that it deletes when it fires. *)

Module KeyValueStore.

Record Store := mkStore {
  kvStore : gmap string string;
  timers : list string
}.

Definition empty : Store := mkStore ∅ [].

(** [set]; [if (expirySeconds)] holds for a number other than 0. *)
Definition set (key value : string) (expirySeconds : option Q) (s : Store)
    : Store :=
  let kv := <[key := value]> (kvStore s) in
  match expirySeconds with
  | Some e =>
      if Qeq_bool e 0 then mkStore kv (timers s)
      else mkStore kv (timers s ++ [key])
  | None => mkStore kv (timers s)
  end.

(** [this.kvStore.get(key) || null]: an empty string is falsy. *)
Definition get (key : string) (s : Store) : option string :=
  match kvStore s !! key with
  | Some v => if decide (v = "") then None else Some v
  | None => None
  end.

Definition del (key : string) (s : Store) : Store :=
  mkStore (delete key (kvStore s)) (timers s).

(** [exists]: [this.kvStore.has(key)]. *)
Definition has (key : string) (s : Store) : bool :=
  bool_decide (is_Some (kvStore s !! key)).

(** The pending timer number [n] fires: [this.kvStore.delete(key)]. *)
Definition fire (n : nat) (s : Store) : Store :=
  match timers s !! n with
  | Some key => mkStore (delete key (kvStore s)) (delete n (timers s))
  | None => s
  end.

End KeyValueStore.


(** The handles of the listeners of an event are below the next handle:
    so it is in every world built by [subscribeToOrder]. *)
Definition handlesBelow (name : string) (w : World) : Prop :=
  Forall (fun l => (fst l < nextHandle w)%nat) (listenersOf name w).


(** The event built by [emitStatusUpdate] for the order object [o]. *)
Definition statusUpdateOf (st : OrderStatus) (msg : option string)
    (dat : option StatusData) (o : Order) (w : World) : OrderStatusUpdate :=
  mkUpdate (id o) st msg dat (now w).

(** The handles called by [emit] for the listeners [ls]. *)
Definition handlesCalled (name : string) (ls : list (nat * Callback))
    (u : OrderStatusUpdate) : list nat :=
  map dl_handle (snd (callListeners name ls u)).


(** ** What one run of [processOrder] may change *)

(** The fields of an order that processing never writes. *)
Definition sameInputs (o o' : Order) : Prop :=
  id o' = id o /\ type o' = type o /\ tokenIn o' = tokenIn o
  /\ tokenOut o' = tokenOut o /\ amountIn o' = amountIn o
  /\ slippage o' = slippage o /\ retryCount o' = retryCount o
  /\ createdAt o' = createdAt o.

(** A stored status is kept, or becomes confirmed or failed. *)
Definition statusStep (a b : OrderStatus) : Prop :=
  b = a \/ b = CONFIRMED \/ b = FAILED.

(** A call of a listener about the order [i]: of a listener registered
    in [w] for the order's event or for "order:update", with an event
    of that order. *)
Definition deliveryFor (i : string) (w : World) (d : Delivery) : Prop :=
  (dl_name d = orderEvent i \/ dl_name d = "order:update")
  /\ orderId (dl_update d) = i
  /\ exists cb, (dl_handle d, cb) ∈ listenersOf (dl_name d) w.

(** From [s] to [s'] only the order object's output fields, the record
    of the order in the store and the two logs have changed. *)
Definition Frame (s s' : Order * World) : Prop :=
  sameInputs (fst s) (fst s')
  /\ listeners (snd s') = listeners (snd s)
  /\ nextHandle (snd s') = nextHandle (snd s)
  /\ now (snd s') = now (snd s)
  /\ dom (orders (snd s')) = dom (orders (snd s))
  /\ (forall j, j <> id (fst s) ->
        orders (snd s') !! j = orders (snd s) !! j)
  /\ (forall record', orders (snd s') !! id (fst s) = Some record' ->
        exists record, orders (snd s) !! id (fst s) = Some record
          /\ sameInputs record record'
          /\ statusStep (status record) (status record'))
  /\ exists ds, delivered (snd s') = (delivered (snd s) ++ ds)%list
       /\ Forall (deliveryFor (id (fst s)) (snd s)) ds.

(** No listener of the world throws. *)
Definition quietWorld (w : World) : Prop :=
  forall name u, Forall (quietOn u) (listenersOf name w).


(** The record of a confirmed order. *)
Definition confirmedRecord (record : Order) : Prop :=
  status record = CONFIRMED
  /\ is_Some (txHash record) /\ is_Some (executedPrice record)
  /\ is_Some (outputAmount record).


(** From [s] to [s'] the events with the statuses [L] were published. *)
Definition Pub (s s' : Order * World) (L : list OrderStatus) : Prop :=
  exists evs, published (snd s') = (published (snd s) ++ evs)%list
    /\ map statusOf evs = L.

(** The quotes that [processOrder] obtains for the order [o] at the
    clock of [w]. *)
Definition quotesFor (orc : Oracle) (o : Order) (w : World) : BestQuote :=
  getBestQuote (tokenIn o) (tokenOut o) (amountIn o) (rndRaydium orc)
    (rndMeteora orc) (now w).

(** The record of the order after the routing step. *)
Definition routedRecord (orc : Oracle) (o : Order) (w : World)
    (record : Order) : Order :=
  let q := quotesFor orc o w in
  set_updatedAt (now w)
    (set_executedPrice (Some (Num (price (best q))))
       (set_meteoraQuote (Some (price (bq_meteora q)))
          (set_raydiumQuote (Some (price (bq_raydium q)))
             (set_selectedDex (Some (dex (best q))) record)))).

(** The price at which the swap of the order is executed. *)
Definition executedPriceFor (orc : Oracle) (o : Order) (w : World) : Q :=
  (price (best (quotesFor orc o w))
   * (1 - slipDraw (swapDraws orc) * (slippage o / 100)))%Q.

(** The record of the order after a successful run. *)
Definition settledRecord (orc : Oracle) (o : Order) (w : World)
    (record : Order) : Order :=
  let ep := executedPriceFor orc o w in
  set_updatedAt (now w)
    (set_outputAmount (Some (Num (amountIn o * ep)))
       (set_executedPrice (Some (Num ep))
          (set_txHash
             (Some (generateMockTxHash (hashDraw (swapDraws orc))))
             (set_status CONFIRMED (routedRecord orc o w record))))).

(** The message of the error of a failed swap. *)
Definition swapErrorFor (orc : Oracle) (o : Order) (w : World) : string :=
  dexName (dex (best (quotesFor orc o w)))
  ++ " execution failed: Network timeout".

(** The record of the order after a run in which the swap failed. *)
Definition failedRecord (orc : Oracle) (o : Order) (w : World)
    (record : Order) : Order :=
  set_updatedAt (now w)
    (set_error (Some (swapErrorFor orc o w))
       (set_status FAILED (routedRecord orc o w record))).


(** ** Notions about the queue *)

(** A job as [processJob] starts it. *)
Definition started (job : QueueJob) : QueueJob :=
  set_attempts (attempts job + 1) (set_j_status active job).

(** The job that [addOrder] makes of an order. *)
Definition newJob (order : Order) (s : Queue) : QueueJob :=
  mkJob (id order) order 0 waiting None (now (world s)).

(** The number of jobs that the service holds, in the lists and in the
    suspended calls of [processJob]. *)
Definition jobCount (s : Queue) : nat :=
  (length (queue s) + length (running s) + length (backoff s)
   + length (completedJobs s) + length (failedJobs s))%nat.

Definition isClose (a : Action) : bool :=
  match a with Close => true | _ => false end.

(** A run in which the queue is not closed. *)
Definition noClose (actions : list Action) : Prop :=
  Forall (fun a => isClose a = false) actions.

(** All the jobs that the service holds. *)
Definition allJobs (s : Queue) : list QueueJob :=
  (queue s ++ running s ++ map fst (backoff s) ++ completedJobs s
   ++ failedJobs s)%list.


(** Every job in processing has its id in the active set. *)
Definition activeExact (s : Queue) : Prop :=
  forall i, (1 <= inFlight i s)%nat -> i ∈ activeJobs s.

(** The loop of [processQueue] is alive exactly when [processing] is
    set, and while it is not the waiting list and the active set are
    empty. *)
Definition loopInv (s : Queue) : Prop :=
  loops s = (if processing s then 1 else 0)%nat
  /\ (processing s = false -> queue s = [] /\ activeJobs s = ∅).

(** The orders given to [createOrder] in a run. *)
Definition createdOrders (actions : list Action) : list Order :=
  flat_map (fun a => match a with CreateOrder o => [o] | _ => [] end)
    actions.


(** The records of the store come from the orders in [created]: each
    has the id and the input fields of one of them, under that id, and
    the status of that order or confirmed or failed. *)
Definition cameFrom (created : list Order) (w : World) : Prop :=
  forall j record, orders w !! j = Some record ->
    exists o, o ∈ created /\ id o = j /\ sameInputs o record
      /\ statusStep (status o) (status record).

(** * Properties of the router *)

Section RouterFacts.

Lemma gtb_true (a b : Q) : gtb a b = true <-> (b < a)%Q.
Proof.
  unfold gtb. rewrite Qgt_alt.
  destruct (a ?= b)%Q; split; intros H; congruence.
Qed.

Lemma gtb_false (a b : Q) : gtb a b = false <-> (a <= b)%Q.
Proof.
  unfold gtb, Qle. rewrite <- Z.leb_le. unfold Qcompare, Z.leb.
  destruct (Qnum a * QDen b ?= Qnum b * QDen a)%Z; split; congruence.
Qed.

Lemma ltb_true (a b : Q) : ltb a b = true <-> (a < b)%Q.
Proof.
  unfold ltb. rewrite Qlt_alt.
  destruct (a ?= b)%Q; split; intros H; congruence.
Qed.

Lemma simpleHash_nonneg (str : string) : (0 <= simpleHash str)%Z.
Proof. unfold simpleHash. apply Z.abs_nonneg. Qed.

(** The base price of a pair lies in [1, 2). *)
Lemma calculateBasePrice_range (tokenIn tokenOut : string) :
  (1 <= calculateBasePrice tokenIn tokenOut
   /\ calculateBasePrice tokenIn tokenOut < 2)%Q.
Proof.
  unfold calculateBasePrice.
  pose proof (simpleHash_nonneg (tokenIn ++ tokenOut)) as Hh.
  set (h := simpleHash (tokenIn ++ tokenOut)) in *.
  assert (Hr : (0 <= Z.rem h 100 < 100)%Z).
  { rewrite Z.rem_mod_nonneg by lia. apply Z.mod_pos_bound. lia. }
  assert (H0 : (0 <= inject_Z (Z.rem h 100))%Q).
  { rewrite <- (Zle_Qle 0). lia. }
  assert (H1 : (inject_Z (Z.rem h 100) < 100)%Q).
  { rewrite <- (Zlt_Qlt _ 100). lia. }
  split.
  - apply Qle_trans with (1 + 0)%Q; [ lra | ].
    apply Qplus_le_r. apply Qle_shift_div_l; lra.
  - apply Qlt_le_trans with (1 + 1)%Q; [ | lra ].
    apply Qplus_lt_r. apply Qlt_shift_div_r; lra.
Qed.

Lemma quote_positive (amount basePrice variance fee : Q) :
  (0 < amount)%Q -> (1 <= basePrice)%Q -> (0 < variance)%Q ->
  (fee < 1)%Q ->
  (0 < basePrice * variance
   /\ 0 < amount * (basePrice * variance) * (1 - fee))%Q.
Proof.
  intros Ha Hb Hv Hf.
  assert (Hp : (0 < basePrice * variance)%Q).
  { apply Qmult_lt_0_compat; lra. }
  split; [ exact Hp | ].
  apply Qmult_lt_0_compat; [ | lra ].
  apply Qmult_lt_0_compat; assumption.
Qed.

Lemma executeSwap_returns (d : Dex) (order : Order) (rnd : SwapDraws) :
  exists r : ExecutionResult, executeSwap d order rnd = Returns r.
Proof.
  unfold executeSwap. destruct (executeSwapBody d order rnd); eauto.
Qed.

(** The hash of the pair SOL/USDC, as the JavaScript code computes it. *)
Example simpleHash_SOLUSDC :
  simpleHash "SOLUSDC" = 1312101107
  /\ (calculateBasePrice "SOL" "USDC" == 1.07)%Q.
Proof. split; vm_compute; reflexivity. Qed.

(** On equal outputs [getBestQuote] takes the meteora quote. *)
Example pickBest_tie (r m : DexQuote) :
  estimatedOutput r = estimatedOutput m -> pickBest r m = m.
Proof.
  intros H. unfold pickBest. rewrite H.
  destruct (gtb (estimatedOutput m) (estimatedOutput m)) eqn:Hg;
    [ | reflexivity ].
  apply gtb_true in Hg. exfalso. exact (Qlt_irrefl _ Hg).
Qed.

End RouterFacts.

(** C6. [getBestQuote] asks both venues: the quotes it returns as
    [raydium] and [meteora] are the quotes of [getRaydiumQuote] and of
    [getMeteorQuote] for the same pair and amount, each labelled with its
    venue. Its [best] is one of these two quotes, and the estimated
    output of [best] is the maximum of the raydium quote's and the
    meteora quote's estimated outputs: it is at least each of them and
    equals [Qmax] of the two. *)
Theorem getBestQuote_is_max (tokenIn tokenOut : string) (amount rndR rndM : Q)
    (now : Z) :
  let q := getBestQuote tokenIn tokenOut amount rndR rndM now in
  let raydiumQuote := getRaydiumQuote tokenIn tokenOut amount rndR now in
  let meteoraQuote := getMeteorQuote tokenIn tokenOut amount rndM now in
  bq_raydium q = raydiumQuote /\ bq_meteora q = meteoraQuote
  /\ dex (bq_raydium q) = raydium /\ dex (bq_meteora q) = meteora
  /\ (best q = raydiumQuote \/ best q = meteoraQuote)
  /\ (estimatedOutput raydiumQuote <= estimatedOutput (best q))%Q
  /\ (estimatedOutput meteoraQuote <= estimatedOutput (best q))%Q
  /\ (estimatedOutput (best q)
      == Qmax (estimatedOutput raydiumQuote)
              (estimatedOutput meteoraQuote))%Q.
Proof.
  intros q r m. subst q. unfold getBestQuote.
  cbn [best bq_raydium bq_meteora]. fold r m.
  split; [ reflexivity | ]. split; [ reflexivity | ].
  split; [ reflexivity | ]. split; [ reflexivity | ].
  unfold pickBest.
  destruct (gtb (estimatedOutput r) (estimatedOutput m)) eqn:Hg.
  - apply gtb_true in Hg. repeat split.
    + now left.
    + apply Qle_refl.
    + now apply Qlt_le_weak.
    + symmetry. apply Q.max_l. now apply Qlt_le_weak.
  - apply gtb_false in Hg. repeat split.
    + now right.
    + exact Hg.
    + apply Qle_refl.
    + symmetry. apply Q.max_r. exact Hg.
Qed.

(** C8. For a positive [amountIn] and a draw of [Math.random()] in
    [0, 1), the quote of each venue has
    [estimatedOutput = amountIn * price * (1 - fee)], a price above zero
    and an estimated output above zero. *)
Theorem venue_quote_formula (tokenIn tokenOut : string) (amountIn rnd : Q)
    (now : Z) :
  (0 < amountIn)%Q -> (0 <= rnd)%Q -> (rnd < 1)%Q ->
  let r := getRaydiumQuote tokenIn tokenOut amountIn rnd now in
  let m := getMeteorQuote tokenIn tokenOut amountIn rnd now in
  (estimatedOutput r = amountIn * price r * (1 - fee r)
   /\ 0 < price r /\ 0 < estimatedOutput r)%Q
  /\ (estimatedOutput m = amountIn * price m * (1 - fee m)
      /\ 0 < price m /\ 0 < estimatedOutput m)%Q.
Proof.
  intros Ha H0 H1 r m. subst r m.
  destruct (calculateBasePrice_range tokenIn tokenOut) as [Hb _].
  unfold getRaydiumQuote, getMeteorQuote.
  cbn [estimatedOutput price fee].
  split; (split; [ reflexivity | ]); apply quote_positive;
    try assumption; lra.
Qed.

Lemma venue_quote_formula_witness :
  let r := getRaydiumQuote "SOL" "USDC" 100 0.5 0 in
  let m := getMeteorQuote "SOL" "USDC" 100 0.5 0 in
  (estimatedOutput r = 100 * price r * (1 - fee r)
   /\ 0 < price r /\ 0 < estimatedOutput r)%Q
  /\ (estimatedOutput m = 100 * price m * (1 - fee m)
      /\ 0 < price m /\ 0 < estimatedOutput m)%Q.
Proof.
  apply (venue_quote_formula "SOL" "USDC" 100 0.5 0);
    [ reflexivity | unfold Qle; cbn; lia | reflexivity ].
Defined.

(** C9. [executeSwap] never throws: it returns a result for every venue,
    order and draws. When its [try] block throws, the result has
    [success = false] and carries the message of the error; and a result
    with [success = false] comes from a throw in the [try] block only. *)
Theorem executeSwap_never_throws (d : Dex) (order : Order) (rnd : SwapDraws) :
  exists r : ExecutionResult,
    executeSwap d order rnd = Returns r
    /\ (forall e, executeSwapBody d order rnd = Throws e ->
          success r = false /\ r_error r = Some (errorMessageOf e))
    /\ (success r = false ->
          exists e, executeSwapBody d order rnd = Throws e)
    /\ (success r = true -> executeSwapBody d order rnd = Returns r).
Proof.
  unfold executeSwap.
  destruct (executeSwapBody d order rnd) as [r | e] eqn:Hbody.
  - exists r. split; [ reflexivity | ]. split; [ discriminate | ].
    split; [ | reflexivity ].
    intros Hs. unfold executeSwapBody in Hbody.
    destruct (ltb (failDraw rnd) 0.05); [ discriminate | ].
    injection Hbody as <-. discriminate Hs.
  - eexists. split; [ reflexivity | ]. cbn [success r_error].
    split; [ | split; [ eauto | discriminate ] ].
    intros e' He'. injection He' as <-. split; reflexivity.
Qed.

Lemma executeSwap_never_throws_witness :
  exists r : ExecutionResult,
    executeSwap raydium sampleOrder (swapDraws failDraws) = Returns r
    /\ success r = false
    /\ r_error r = Some "raydium execution failed: Network timeout".
Proof.
  destruct (executeSwap_never_throws raydium sampleOrder (swapDraws failDraws))
    as (r & Hr & Hthrow & _).
  exists r. split; [ exact Hr | ].
  apply (Hthrow (ErrorObj "raydium execution failed: Network timeout")).
  reflexivity.
Defined.

(** * Properties of the execution service *)

Section ExecutionFacts.

Lemma Ext_refl s : Ext s s [].
Proof.
  split; [ reflexivity | ]. exists []. rewrite app_nil_r. auto.
Qed.

Lemma Ext_trans s1 s2 s3 L1 L2 :
  Ext s1 s2 L1 -> Ext s2 s3 L2 -> Ext s1 s3 (L1 ++ L2)%list.
Proof.
  intros [Hi1 (e1 & Hp1 & Hm1 & Hf1)] [Hi2 (e2 & Hp2 & Hm2 & Hf2)].
  split; [ congruence | ]. exists (e1 ++ e2)%list.
  rewrite Hp2, Hp1, <- app_assoc, map_app, Hm1, Hm2.
  split; [ reflexivity | ]. split; [ reflexivity | ].
  apply Forall_app. split; [ exact Hf1 | ].
  rewrite <- Hi1. exact Hf2.
Qed.

Lemma bind_run {A B} (c : M A) (k : A -> M B) s :
  bind c k s = match c s with
               | (Returns a, s') => k a s'
               | (Throws e, s') => (Throws e, s')
               end.
Proof. reflexivity. Qed.

Lemma emit_run name u s :
  exists r d,
    emit name u s
    = (r, (fst s, set_delivered (delivered (snd s) ++ d) (snd s)))
    /\ callListeners name (listenersOf name (snd s)) u
       = (match r with Returns _ => None | Throws e => Some e end, d).
Proof.
  unfold emit.
  destruct (callListeners name (listenersOf name (snd s)) u) as [[e|] d].
  - exists (Throws e), d. auto.
  - exists (Returns tt), d. auto.
Qed.

Lemma emitStatusUpdate_ext st msg dat s :
  status (fst s) = st ->
  exists r s', emitStatusUpdate st msg dat s = (r, s')
    /\ Ext s s' [st] /\ fst s' = fst s.
Proof.
  intros Hst. destruct s as [o w]. unfold emitStatusUpdate.
  rewrite bind_run. cbn [getOrderObject fst snd]. rewrite bind_run.
  cbn [fst snd]. rewrite bind_run. unfold observe at 1. cbn [fst snd].
  set (u := mkUpdate (id o) st msg dat (now w)).
  set (e := mkEmission u (status o) (status <$> orders w !! orderId u)).
  set (w1 := set_published (published w ++ [e]) w).
  assert (HE : forall w', published w' = published w1 ->
                 Ext (o, w) (o, w') [st]).
  { intros w' Hw'. split; [ reflexivity | ]. exists [e]. cbn [fst snd].
    rewrite Hw'. split; [ reflexivity | ]. split; [ reflexivity | ].
    constructor; [ split; [ exact Hst | reflexivity ] | constructor ]. }
  rewrite bind_run.
  destruct (emit_run (orderEvent (id o)) u (o, w1)) as (r1 & d1 & E1 & _).
  rewrite E1. cbn [fst snd]. destruct r1 as [[] | e1].
  - destruct (emit_run "order:update" u
                (o, set_delivered (delivered w1 ++ d1) w1))
      as (r2 & d2 & E2 & _).
    rewrite E2. cbn [fst snd]. eexists _, _. split; [ reflexivity | ].
    split; [ apply HE; reflexivity | reflexivity ].
  - eexists _, _. split; [ reflexivity | ].
    split; [ apply HE; reflexivity | reflexivity ].
Qed.

Lemma updateOrderStatus_ext st msg dat s :
  exists r s', updateOrderStatus st msg dat s = (r, s')
    /\ Ext s s' [st] /\ fst s' = set_status st (fst s).
Proof.
  unfold updateOrderStatus. rewrite bind_run.
  unfold modifyOrderObject at 1.
  destruct (emitStatusUpdate_ext st msg dat (set_status st (fst s), snd s)
              eq_refl) as (r & s' & E & [Hid X] & Hf).
  exists r, s'. split; [ exact E | ]. split; [ | exact Hf ].
  split; [ rewrite Hid; reflexivity | exact X ].
Qed.

Lemma updateOrder_ext i f s :
  exists r s', InMemoryDatabase.updateOrder i f s = (r, s')
    /\ Ext s s' [] /\ fst s' = fst s.
Proof.
  unfold InMemoryDatabase.updateOrder.
  destruct (orders (snd s) !! i) as [o|].
  - eexists _, _. split; [ reflexivity | ]. split; [ | reflexivity ].
    split; [ reflexivity | ]. exists []. cbn [fst snd set_orders published].
    rewrite app_nil_r. auto.
  - eexists _, _. split; [ reflexivity | ].
    split; [ apply Ext_refl | reflexivity ].
Qed.

End ExecutionFacts.

Section ProcessOrderFacts.

Ltac chain X Xn :=
  let T := fresh "T" in
  pose proof (Ext_trans _ _ _ _ _ X Xn) as T; clear X Xn; rename T into X.

Ltac run_update H X :=
  rewrite bind_run in H;
  match type of H with
  | context [ updateOrderStatus ?st ?m ?d ?s0 ] =>
      let r := fresh "r" in
      let s' := fresh "s" in
      let E := fresh "E" in
      let Xn := fresh "Xn" in
      let F := fresh "F" in
      destruct (updateOrderStatus_ext st m d s0) as (r & s' & E & Xn & F);
      rewrite E in H; clear E; chain X Xn; destruct r as [[] | ?]
  end.

Ltac run_db H X :=
  rewrite bind_run in H;
  match type of H with
  | context [ InMemoryDatabase.updateOrder ?i ?f ?s0 ] =>
      let r := fresh "r" in
      let s' := fresh "s" in
      let E := fresh "E" in
      let Xn := fresh "Xn" in
      let F := fresh "F" in
      destruct (updateOrder_ext i f s0) as (r & s' & E & Xn & F);
      rewrite E in H; clear E; chain X Xn; destruct r as [? | ?]
  end.

Ltac stop_at k H X :=
  injection H as <- <-; eexists; split; [ exact X | ];
  exists k; split; [ lia | reflexivity ].

Lemma processOrderBody_shape orc s r s' :
  processOrderBody orc s = (r, s') ->
  exists L, Ext s s' L
    /\ match r with
       | Returns _ => L = pipeline
       | Throws _ => exists k, (1 <= k <= 6)%nat /\ L = take k pipeline
       end.
Proof.
  intros H. unfold processOrderBody in H.
  pose proof (Ext_refl s) as X.
  run_update H X; [ | stop_at 1%nat H X ].
  run_update H X; [ | stop_at 2%nat H X ].
  rewrite bind_run in H. cbn [getOrderObject] in H.
  rewrite bind_run in H. cbv beta iota zeta in H.
  set (q := getBestQuote _ _ _ _ _ _) in H.
  rewrite bind_run in H. unfold modifyOrderObject at 1 in H.
  cbn [fst snd] in H.
  run_db H X; [ | stop_at 2%nat H X ].
  rewrite bind_run in H.
  match type of H with
  | context [ emitStatusUpdate ?st ?m ?d ?s0 ] =>
      destruct (emitStatusUpdate_ext st m d s0) as (r3 & s3 & E & Xn & F3);
      [ rewrite F1; cbn; rewrite F0; reflexivity | ];
      rewrite E in H; clear E; chain X Xn; destruct r3 as [[] | ?]
  end; [ | stop_at 3%nat H X ].
  run_update H X; [ | stop_at 4%nat H X ].
  run_update H X; [ | stop_at 5%nat H X ].
  rewrite bind_run in H. cbn [getOrderObject] in H.
  rewrite bind_run in H.
  destruct (executeSwap_returns (dex (best q)) s5.1 (swapDraws orc))
    as (res & Hres).
  rewrite Hres in H. clear Hres.
  destruct (success res); cbn [negb] in H.
  - run_update H X; [ | stop_at 6%nat H X ].
    run_db H X; [ | stop_at 6%nat H X ].
    cbn [ret] in H. injection H as <- <-. eexists. split; [ exact X | ].
    reflexivity.
  - cbn [throw] in H. stop_at 5%nat H X.
Qed.

Lemma processOrderCatch_shape error s r s' :
  processOrderCatch error s = (r, s') ->
  Ext s s' [FAILED] /\ exists e, r = Throws e.
Proof.
  intros H. unfold processOrderCatch in H. cbv zeta in H.
  rewrite bind_run in H. cbn [getOrderObject] in H.
  pose proof (Ext_refl s) as X.
  run_update H X.
  - run_db H X.
    + cbn [throw] in H. injection H as <- <-. split; [ exact X | eauto ].
    + injection H as <- <-. split; [ exact X | eauto ].
  - injection H as <- <-. split; [ exact X | eauto ].
Qed.

(** The statuses of the events published by one run of [processOrder]:
    the pipeline when the run returns; a non-empty start of the pipeline
    and then [FAILED] when it throws. Every event is faithful. *)
Lemma processOrder_shape orc s r s' :
  processOrder orc s = (r, s') ->
  exists L, Ext s s' L
    /\ match r with
       | Returns _ => L = pipeline
       | Throws _ =>
           exists k, (1 <= k <= 6)%nat
                     /\ L = (take k pipeline ++ [FAILED])%list
       end.
Proof.
  intros H. unfold processOrder, tryCatch in H.
  destruct (processOrderBody orc s) as [rb sb] eqn:Hb.
  apply processOrderBody_shape in Hb as (L & X & HL).
  destruct rb as [[] | e].
  - injection H as <- <-. exists L. auto.
  - apply processOrderCatch_shape in H as (Xc & e' & ->).
    destruct HL as (k & Hk & ->).
    exists (take k pipeline ++ [FAILED])%list.
    split; [ exact (Ext_trans _ _ _ _ _ X Xc) | eauto ].
Qed.

End ProcessOrderFacts.

Section StatusSequence.

Lemma publishedBy_spec orc s :
  exists L, Ext s (snd (processOrder orc s)) L
    /\ map statusOf (publishedBy orc s) = L
    /\ published (snd (snd (processOrder orc s)))
       = (published (snd s) ++ publishedBy orc s)%list
    /\ Forall (fun e => faithful e /\ eventOf (id (fst s)) e)
         (publishedBy orc s)
    /\ match fst (processOrder orc s) with
       | Returns _ => L = pipeline
       | Throws _ =>
           exists k, (1 <= k <= 6)%nat
                     /\ L = (take k pipeline ++ [FAILED])%list
       end.
Proof.
  unfold publishedBy.
  destruct (processOrder orc s) as [r s'] eqn:H.
  apply processOrder_shape in H as (L & X & HL).
  exists L. cbn [fst snd]. split; [ exact X | ].
  destruct X as (_ & evs & Hp & Hm & Hf).
  rewrite Hp, drop_app_length. auto.
Qed.

Lemma allowedSequences_ordered L :
  L ∈ allowedSequences ->
  Sorted le (map statusRank L)
  /\ (forall st, st <> ROUTING -> (occurrences st L <= 1)%nat)
  /\ (last L = Some CONFIRMED \/ last L = Some FAILED).
Proof.
  unfold allowedSequences. rewrite !elem_of_cons, elem_of_nil.
  intros [-> | [-> | [-> | [-> | [-> | [-> | [-> | []]]]]]]];
    (split; [ cbn; repeat constructor
            | split; [ intros [] Hst; try (cbn; lia); now contradict Hst
                     | cbn; auto ] ]).
Qed.

(** C1 (as amended). The statuses of the events that one run of
    [processOrder] publishes for its order form one of seven sequences:
    [pending, routing, routing, building, submitted, confirmed] when the
    run returns, and otherwise a non-empty start of that sequence followed
    by [failed]. So no status comes out of order, routing is published
    twice (at the start of routing and with the selection), every other
    status at most once, and the last event is confirmed or failed. *)
Theorem processOrder_status_sequence (orc : Oracle) (s : Order * World) :
  attemptStatuses orc s ∈ allowedSequences
  /\ (attemptStatuses orc s = pipeline
      <-> fst (processOrder orc s) = Returns tt)
  /\ Sorted le (map statusRank (attemptStatuses orc s))
  /\ (forall st, st <> ROUTING ->
        (occurrences st (attemptStatuses orc s) <= 1)%nat)
  /\ (last (attemptStatuses orc s) = Some CONFIRMED
      \/ last (attemptStatuses orc s) = Some FAILED).
Proof.
  assert (H : attemptStatuses orc s ∈ allowedSequences
              /\ (attemptStatuses orc s = pipeline
                  <-> fst (processOrder orc s) = Returns tt)).
  { unfold attemptStatuses.
    destruct (publishedBy_spec orc s) as (L & _ & -> & _ & _ & HL).
    destruct (fst (processOrder orc s)) as [[] | e].
    - subst L. split; [ | tauto ]. unfold allowedSequences, pipeline.
      rewrite !elem_of_cons. tauto.
    - destruct HL as (k & Hk & ->).
      assert (Hcases : (k = 1 \/ k = 2 \/ k = 3 \/ k = 4 \/ k = 5
                        \/ k = 6)%nat) by lia.
      unfold allowedSequences.
      destruct Hcases as [-> | [-> | [-> | [-> | [-> | ->]]]]];
        cbn; (split; [ rewrite !elem_of_cons; tauto | ]);
        (split; discriminate). }
  destruct H as [Hin Hret]. split; [ exact Hin | ].
  split; [ exact Hret | ]. apply allowedSequences_ordered, Hin.
Qed.

(** C1 as stated fails: a run that succeeds publishes two routing
    events, so the sequence is not [pending, routing, building, submitted,
    confirmed] and one status is emitted twice. *)
Lemma processOrder_routing_twice :
  attemptStatuses okDraws (sampleOrder, sampleWorld)
  = [PENDING; ROUTING; ROUTING; BUILDING; SUBMITTED; CONFIRMED]
  /\ attemptStatuses okDraws (sampleOrder, sampleWorld)
     <> [PENDING; ROUTING; BUILDING; SUBMITTED; CONFIRMED]
  /\ ~ NoDup (attemptStatuses okDraws (sampleOrder, sampleWorld)).
Proof.
  assert (H : attemptStatuses okDraws (sampleOrder, sampleWorld)
              = [PENDING; ROUTING; ROUTING; BUILDING; SUBMITTED; CONFIRMED])
    by (vm_compute; reflexivity).
  rewrite H. split; [ reflexivity | ]. split; [ discriminate | ].
  intros Hnd. apply NoDup_cons in Hnd as [_ Hnd].
  apply NoDup_cons in Hnd as [Hin _]. apply Hin. left.
Qed.

End StatusSequence.

Section Delivery.

Lemma callListeners_quiet name u ls :
  Forall (quietOn u) ls ->
  callListeners name ls u = (None, deliveriesTo name u ls).
Proof.
  induction 1 as [ | [h cb] ls Hq _ IH ]; [ reflexivity | ].
  cbn. unfold quietOn in Hq. cbn in Hq. rewrite Hq, IH. reflexivity.
Qed.

Lemma callListeners_throw name u pre h cb e post :
  Forall (quietOn u) pre -> cb u = Some e ->
  callListeners name (pre ++ (h, cb) :: post) u
  = (Some e, deliveriesTo name u (pre ++ [(h, cb)])).
Proof.
  intros Hpre He.
  induction Hpre as [ | [h' cb'] pre Hq _ IH ].
  - cbn. rewrite He. reflexivity.
  - cbn. unfold quietOn in Hq. cbn in Hq. rewrite Hq.
    cbn in IH. rewrite IH. reflexivity.
Qed.

(** C3 (as amended). [emit] calls the callbacks subscribed to the event
    in the order of subscription. When none of them throws, every one
    receives the event. When one throws, the callbacks subscribed before
    it and the throwing one have received the event, those subscribed
    after it are not called, and [emit] throws the same value. *)
Theorem emit_delivery (name : string) (u : OrderStatusUpdate) (o : Order)
    (w : World) :
  (Forall (quietOn u) (listenersOf name w) ->
     emit name u (o, w)
     = (Returns tt,
        (o, set_delivered
              (delivered w ++ deliveriesTo name u (listenersOf name w)) w)))
  /\ (forall pre h cb e post,
        listenersOf name w = (pre ++ (h, cb) :: post)%list ->
        Forall (quietOn u) pre -> cb u = Some e ->
        emit name u (o, w)
        = (Throws e,
           (o, set_delivered
                 (delivered w ++ deliveriesTo name u (pre ++ [(h, cb)])) w))).
Proof.
  split.
  - intros Hq. unfold emit. cbn [fst snd].
    rewrite (callListeners_quiet _ _ _ Hq). reflexivity.
  - intros pre h cb e post Hls Hpre He. unfold emit. cbn [fst snd].
    rewrite Hls, (callListeners_throw _ _ _ _ _ _ _ Hpre He). reflexivity.
Qed.

Lemma emit_delivery_witness :
  emit (orderEvent "o1") sampleUpdate (sampleOrder, twoSubscribers)
  = (Throws (ErrorObj "socket closed"),
     (sampleOrder,
      set_delivered [mkDelivery 0 (orderEvent "o1") sampleUpdate]
        twoSubscribers)).
Proof.
  destruct (emit_delivery (orderEvent "o1") sampleUpdate sampleOrder
              twoSubscribers) as [_ H].
  apply (H [] 0%nat throwingCallback (ErrorObj "socket closed")
           [(1%nat, quietCallback)]).
  - vm_compute. reflexivity.
  - constructor.
  - reflexivity.
Defined.

(** C3 as stated fails: with two callbacks subscribed to the order, the
    first of which throws, publishing a status event calls the first
    only; the second remains subscribed and does not receive the event. *)
Lemma publish_stops_at_throwing_callback :
  let s' := snd (emitStatusUpdate PENDING (Some "Order received and queued")
                   None (sampleOrder, twoSubscribers)) in
  map fst (listenersOf (orderEvent "o1") (snd s')) = [0%nat; 1%nat]
  /\ map dl_handle (delivered (snd s')) = [0%nat]
  /\ ~ (exists d, d ∈ delivered (snd s') /\ dl_handle d = 1%nat).
Proof.
  cbv zeta.
  assert (H : map dl_handle
                (delivered (snd (snd (emitStatusUpdate PENDING
                   (Some "Order received and queued") None
                   (sampleOrder, twoSubscribers)))))
              = [0%nat]) by (vm_compute; reflexivity).
  split; [ vm_compute; reflexivity | ]. split; [ exact H | ].
  intros (d & Hd & Hh).
  assert (Hin : dl_handle d ∈ [0%nat]).
  { rewrite <- H. apply list_elem_of_fmap. eauto. }
  rewrite Hh in Hin. apply list_elem_of_singleton in Hin. discriminate.
Qed.

End Delivery.

(** * Properties of the queue and of the whole system *)

Section SystemFacts.

Variable config : Config.

Lemma run_invariant (P : Queue -> Prop) :
  (forall s a, P s -> P (step config s a)) ->
  forall actions s, P s -> P (run config actions s).
Proof.
  intros Hstep actions. unfold run.
  induction actions as [ | a actions IH ]; intros s Hs; [ exact Hs | ].
  cbn. apply IH, Hstep, Hs.
Qed.

Lemma world_startWaiting waitingJobs s :
  world (startWaiting config waitingJobs s) = world s.
Proof.
  revert s. induction waitingJobs as [ | job rest IH ]; intros s.
  - reflexivity.
  - cbn [startWaiting]. destruct (_ <? _)%Z; [ rewrite IH | ]; reflexivity.
Qed.

Lemma world_loopTurn s : world (loopTurn config s) = world s.
Proof.
  unfold loopTurn.
  destruct (_ || _); [ apply world_startWaiting | reflexivity ].
Qed.

Lemma world_addOrder order s : world (addOrder config order s) = world s.
Proof.
  unfold addOrder, processQueue. cbn [processing set_queue].
  destruct (processing s); cbn [negb]; [ reflexivity | ].
  rewrite world_loopTurn. reflexivity.
Qed.

Lemma world_processJobSettle job r s :
  world (processJobSettle config job r s) = world s.
Proof.
  unfold processJobSettle. destruct r; [ reflexivity | ].
  destruct (_ <? _)%Z; reflexivity.
Qed.

Lemma world_Finish s jobId orc job others :
  takeFirst (hasId jobId) (running s) = Some (job, others) ->
  world (step config s (Finish jobId orc))
  = snd (snd (processOrder orc (j_order job, world s))).
Proof.
  intros H. cbn [step]. rewrite H.
  destruct (processOrder orc (j_order job, world s)) as [r [o w]].
  rewrite world_processJobSettle. reflexivity.
Qed.

(** What a step does to the list of published events: nothing, or the
    events of one run of [processOrder] are appended. *)
Lemma published_step s a :
  published (world (step config s a)) = published (world s)
  \/ exists orc o,
       published (world (step config s a))
       = (published (world s) ++ publishedBy orc (o, world s))%list.
Proof.
  destruct a; cbn [step].
  - left. reflexivity.
  - left. rewrite world_addOrder. reflexivity.
  - left. destruct (loops s); [ | rewrite world_loopTurn ]; reflexivity.
  - destruct (takeFirst (hasId jobId) (running s)) as [[job others] | ] eqn:H;
      [ | left; reflexivity ].
    right. exists orc, (j_order job).
    pose proof (world_Finish s jobId orc job others H) as Hw.
    cbn [step] in Hw. rewrite H in Hw. rewrite Hw.
    destruct (publishedBy_spec orc (j_order job, world s))
      as (L & _ & _ & Hp & _).
    exact Hp.
  - left. destruct (takeFirst _ (backoff s)) as [[[job d] others] | ];
      reflexivity.
  - left. reflexivity.
  - left. reflexivity.
  - left. reflexivity.
  - left. reflexivity.
Qed.

(** C7 (as amended). In every run of the system, each published status
    event was built when the order object in processing already held the
    event's status: the status is written onto that object before the
    event is emitted. *)
Theorem status_written_before_event (actions : list Action) :
  Forall (fun e => objectStatus e = u_status (update e))
    (published (world (run config actions init))).
Proof.
  apply run_invariant; [ | constructor ].
  intros s a Hs. destruct (published_step s a) as [-> | (orc & o & ->)];
    [ exact Hs | ].
  apply Forall_app. split; [ exact Hs | ].
  destruct (publishedBy_spec orc (o, world s)) as (L & _ & _ & _ & Hf & _).
  eapply Forall_impl; [ exact Hf | ].
  intros e [He _]. exact He.
Qed.

End SystemFacts.

(** C7 as stated fails for a reader of the store: when the confirmed
    event of the sample order is emitted, the record that [getOrder]
    returns still has the status pending. *)
Lemma store_status_stale_at_event :
  exists e,
    e ∈ published (world (run defaultConfig
          [CreateOrder sampleOrder; AddOrder sampleOrder;
           Finish "o1" okDraws] init))
    /\ u_status (update e) = CONFIRMED
    /\ storedStatus e = Some PENDING
    /\ (statusRank PENDING < statusRank CONFIRMED)%nat.
Proof.
  eexists. split; [ | split; [ | split ] ].
  - vm_compute. do 5 right. left.
  - reflexivity.
  - reflexivity.
  - cbn. lia.
Qed.

(** C2 (as amended). When the loop has started a job again (or for the
    first time) and its call of [processOrder] runs, the first event
    published is the pending event of the job's order, and the next one
    is the routing event, or the failed event if the attempt fails at
    once. A retry so restarts the order at pending, not at routing. *)
Theorem attempt_starts_at_pending (config : Config) (s : Queue)
    (jobId : string) (orc : Oracle) (job : QueueJob)
    (others : list QueueJob) :
  takeFirst (hasId jobId) (running s) = Some (job, others) ->
  exists first second rest,
    published (world (step config s (Finish jobId orc)))
    = (published (world s) ++ first :: second :: rest)%list
    /\ u_status (update first) = PENDING
    /\ orderId (update first) = id (j_order job)
    /\ (u_status (update second) = ROUTING
        \/ u_status (update second) = FAILED).
Proof.
  intros H. rewrite (world_Finish config s jobId orc job others H).
  destruct (publishedBy_spec orc (j_order job, world s))
    as (L & _ & Hm & Hp & Hf & HL).
  rewrite Hp. cbn [snd].
  assert (HL' : exists st L', L = PENDING :: st :: L'
                              /\ (st = ROUTING \/ st = FAILED)).
  { destruct (fst (processOrder orc (j_order job, world s))).
    - subst L. unfold pipeline. eauto.
    - destruct HL as (k & Hk & ->).
      destruct k as [ | [ | k ] ]; [ lia | | ]; cbn; eauto. }
  destruct HL' as (st & L' & -> & Hst).
  destruct (publishedBy orc (j_order job, world s))
    as [ | first [ | second rest ] ]; try discriminate.
  injection Hm as H1 H2 _. exists first, second, rest.
  apply Forall_cons in Hf as [[_ Hid] _].
  split; [ reflexivity | ]. split; [ exact H1 | ].
  split; [ exact Hid | ]. unfold statusOf in H2. rewrite H2. exact Hst.
Qed.

Lemma attempt_starts_at_pending_witness :
  let s := run defaultConfig retryScenario init in
  (exists job others,
     takeFirst (hasId "o1") (running s) = Some (job, others)
     /\ attempts job = 2)
  /\ exists first second rest,
       published (world (step defaultConfig s (Finish "o1" okDraws)))
       = (published (world s) ++ first :: second :: rest)%list
       /\ u_status (update first) = PENDING.
Proof.
  cbv zeta.
  destruct (takeFirst (hasId "o1")
              (running (run defaultConfig retryScenario init)))
    as [[job others] | ] eqn:H; [ | vm_compute in H; discriminate ].
  split.
  - exists job, others. split; [ reflexivity | ].
    vm_compute in H. injection H as <- _. reflexivity.
  - destruct (attempt_starts_at_pending defaultConfig
                (run defaultConfig retryScenario init) "o1" okDraws
                job others H)
      as (first & second & rest & Hp & Hst & _).
    exists first, second, rest. split; [ exact Hp | exact Hst ].
Defined.

(** C2 as stated fails: in the retry scenario the job is started again
    with its second attempt, and the first event that this attempt
    publishes has the status pending, not routing. *)
Lemma retry_first_event_is_not_routing :
  let s := run defaultConfig retryScenario init in
  let s' := step defaultConfig s (Finish "o1" okDraws) in
  map attempts (running s) = [2]
  /\ map statusOf (drop (length (published (world s)))
                     (published (world s')))
     = [PENDING; ROUTING; ROUTING; BUILDING; SUBMITTED; CONFIRMED]
  /\ head (map statusOf (drop (length (published (world s)))
                           (published (world s'))))
     <> Some ROUTING.
Proof.
  cbv zeta.
  assert (H : map statusOf
                (drop (length (published (world
                         (run defaultConfig retryScenario init))))
                   (published (world (step defaultConfig
                      (run defaultConfig retryScenario init)
                      (Finish "o1" okDraws)))))
              = [PENDING; ROUTING; ROUTING; BUILDING; SUBMITTED; CONFIRMED])
    by (vm_compute; reflexivity).
  rewrite H. split; [ vm_compute; reflexivity | ].
  split; [ reflexivity | discriminate ].
Qed.

Section QueueBound.

Variable config : Config.

Lemma size_add_le (i : string) (X : gset string) :
  (size ({[ i ]} ∪ X) <= S (size X))%nat.
Proof.
  rewrite size_union_alt, size_singleton.
  apply le_n_S, subseteq_size.
  intros x Hx. apply elem_of_difference in Hx. tauto.
Qed.

Lemma size_delete_le (i : string) (X : gset string) :
  (size (X ∖ {[ i ]}) <= size X)%nat.
Proof.
  apply subseteq_size. intros x Hx. apply elem_of_difference in Hx. tauto.
Qed.

Lemma startWaiting_bound waitingJobs s :
  (Z.of_nat (size (activeJobs s)) <= concurrency config)%Z ->
  (Z.of_nat (size (activeJobs (startWaiting config waitingJobs s)))
   <= concurrency config)%Z.
Proof.
  revert s. induction waitingJobs as [ | job rest IH ]; intros s Hs.
  - exact Hs.
  - cbn [startWaiting].
    destruct (Z.of_nat (size (activeJobs s)) <? concurrency config)%Z
      eqn:Hlt; [ | exact Hs ].
    apply IH. cbn [processJobStart set_queue set_activeJobs set_running
                   activeJobs].
    apply Z.ltb_lt in Hlt.
    pose proof (size_add_le (j_id job) (activeJobs s)). lia.
Qed.

(** When the active set is at the limit, the inner loop starts no job:
    the waiting list and the rest of the state stay as they are. *)
Lemma startWaiting_at_limit waitingJobs s :
  (concurrency config <= Z.of_nat (size (activeJobs s)))%Z ->
  startWaiting config waitingJobs s = set_queue waitingJobs s.
Proof.
  intros Hfull. destruct waitingJobs as [ | job rest ]; [ reflexivity | ].
  cbn [startWaiting].
  destruct (Z.of_nat (size (activeJobs s)) <? concurrency config)%Z
    eqn:Hlt; [ apply Z.ltb_lt in Hlt; lia | reflexivity ].
Qed.

Lemma step_bound s a :
  (0 <= concurrency config)%Z ->
  (Z.of_nat (size (activeJobs s)) <= concurrency config)%Z ->
  (Z.of_nat (size (activeJobs (step config s a))) <= concurrency config)%Z.
Proof.
  intros H0 Hs. destruct a; cbn [step]; try exact Hs.
  - unfold addOrder, processQueue. cbn [processing set_queue].
    destruct (processing s); cbn [negb]; [ exact Hs | ].
    unfold loopTurn. destruct (_ || _); [ | exact Hs ].
    apply startWaiting_bound. exact Hs.
  - destruct (loops s); [ exact Hs | ].
    unfold loopTurn. destruct (_ || _); [ | exact Hs ].
    apply startWaiting_bound. exact Hs.
  - destruct (takeFirst (hasId jobId) (running s)) as [[job others] | ];
      [ | exact Hs ].
    destruct (processOrder orc (j_order job, world s)) as [r [o w]].
    unfold processJobSettle. destruct r as [[] | e].
    + cbn. pose proof (size_delete_le (j_id job) (activeJobs s)). lia.
    + destruct (_ <? _)%Z; [ exact Hs | ].
      cbn. pose proof (size_delete_le (j_id job) (activeJobs s)). lia.
  - destruct (takeFirst _ (backoff s)) as [[[job d] others] | ];
      [ | exact Hs ].
    cbn. pose proof (size_delete_le (j_id job) (activeJobs s)). lia.
  - cbn. rewrite size_empty. exact H0.
Qed.

(** C4. With a limit that is not negative, the active set never holds
    more jobs than the configured concurrency limit, in any state that
    the system reaches; and the inner loop of [processQueue] starts a job
    only while the size of the active set is strictly below the limit: at
    or above the limit it leaves the waiting list and the active set as
    they are. *)
Theorem active_never_exceeds_limit (actions : list Action) :
  (0 <= concurrency config)%Z ->
  (Z.of_nat (size (activeJobs (run config actions init)))
   <= concurrency config)%Z
  /\ (forall s waitingJobs,
        (concurrency config <= Z.of_nat (size (activeJobs s)))%Z ->
        startWaiting config waitingJobs s = set_queue waitingJobs s)
  /\ (forall s job rest,
        running (startWaiting config (job :: rest) s) <> running s ->
        (Z.of_nat (size (activeJobs s)) < concurrency config)%Z).
Proof.
  intros H0. split; [ | split ].
  - apply run_invariant.
    + intros s a. apply step_bound. exact H0.
    + cbn. rewrite size_empty. exact H0.
  - intros s waitingJobs. apply startWaiting_at_limit.
  - intros s job rest Hrun.
    destruct (Z.lt_ge_cases (Z.of_nat (size (activeJobs s)))
                (concurrency config)) as [Hlt | Hge]; [ exact Hlt | ].
    rewrite startWaiting_at_limit in Hrun by exact Hge. now contradict Hrun.
Qed.

End QueueBound.

Lemma active_never_exceeds_limit_witness :
  (0 <= concurrency defaultConfig)%Z
  /\ (Z.of_nat (size (activeJobs
        (run defaultConfig (twelveOrders ++ [Tick]) init))) <= 10)%Z
  /\ length (queue (run defaultConfig (twelveOrders ++ [Tick]) init)) = 2%nat.
Proof.
  split; [ cbn; lia | ].
  split; [ | vm_compute; reflexivity ].
  apply (active_never_exceeds_limit defaultConfig (twelveOrders ++ [Tick])).
  cbn. lia.
Defined.

Section RetryFacts.

Variable config : Config.

Lemma takeFirst_Forall {A} (p : A -> bool) (P : A -> Prop) l x r :
  takeFirst p l = Some (x, r) -> Forall P l -> P x /\ Forall P r.
Proof.
  revert x r. induction l as [ | y l IH ]; intros x r H Hl; [ discriminate | ].
  apply Forall_cons in Hl as [Hy Hl]. cbn in H. destruct (p y).
  - injection H as <- <-. auto.
  - destruct (takeFirst p l) as [[z r'] | ]; [ | discriminate ].
    injection H as <- <-. destruct (IH _ _ eq_refl Hl). auto.
Qed.

Lemma startWaiting_attempts waitingJobs s :
  Forall (waitingOk config) waitingJobs -> attemptsInv config s ->
  attemptsInv config (startWaiting config waitingJobs s).
Proof.
  revert s. induction waitingJobs as [ | job rest IH ];
    intros s Hw (Hq & Hr & Hb & Hf).
  - cbn. repeat split; auto.
  - cbn [startWaiting]. apply Forall_cons in Hw as [Hj Hw].
    destruct (_ <? _)%Z.
    + apply IH; [ exact Hw | ]. repeat split; cbn; auto.
      apply Forall_app. split; [ exact Hr | ].
      constructor; [ | constructor ].
      unfold runningOk, waitingOk in *. cbn. lia.
    + repeat split; cbn; auto.
Qed.

Lemma loopTurn_attempts s :
  attemptsInv config s -> attemptsInv config (loopTurn config s).
Proof.
  intros Hs. unfold loopTurn. destruct (_ || _).
  - apply startWaiting_attempts; [ apply Hs | exact Hs ].
  - exact Hs.
Qed.

Lemma step_attempts s a :
  attemptsInv config s -> attemptsInv config (step config s a).
Proof.
  intros Hs. destruct a; cbn [step]; try exact Hs.
  - unfold addOrder, processQueue. cbn [processing set_queue].
    assert (Hs' : attemptsInv config
              (set_queue (queue s ++ [mkJob (id order) order 0 waiting None
                                        (now (world s))]) s)).
    { destruct Hs as (Hq & Hr & Hb & Hf). repeat split; cbn; auto.
      apply Forall_app. split; [ exact Hq | ].
      constructor; [ left; reflexivity | constructor ]. }
    destruct (processing s); cbn [negb]; [ exact Hs' | ].
    apply loopTurn_attempts. exact Hs'.
  - destruct (loops s); [ exact Hs | ]. apply loopTurn_attempts, Hs.
  - destruct (takeFirst (hasId jobId) (running s)) as [[job others] | ] eqn:H;
      [ | exact Hs ].
    destruct Hs as (Hq & Hr & Hb & Hf).
    destruct (takeFirst_Forall _ _ _ _ _ H Hr) as [Hj Ho].
    destruct (processOrder orc (j_order job, world s)) as [r [o w]].
    unfold processJobSettle. destruct r as [[] | e].
    + repeat split; cbn; auto.
    + cbn [attempts set_j_order].
      destruct (attempts job <? maxRetries config)%Z eqn:Hlt.
      * apply Z.ltb_lt in Hlt. repeat split; cbn; auto.
        apply Forall_app. split; [ exact Hb | ].
        constructor; [ | constructor ].
        unfold backoffOk, runningOk, retryDelay in *. cbn. lia.
      * apply Z.ltb_ge in Hlt. repeat split; cbn; auto.
        apply Forall_app. split; [ exact Hf | ].
        constructor; [ | constructor ].
        unfold failedOk, runningOk in *. cbn. lia.
  - destruct (takeFirst _ (backoff s)) as [[[job d] others] | ] eqn:H;
      [ | exact Hs ].
    destruct Hs as (Hq & Hr & Hb & Hf).
    destruct (takeFirst_Forall _ _ _ _ _ H Hb) as [[Hj _] Ho].
    repeat split; cbn; auto.
    apply Forall_app. split; [ exact Hq | ].
    constructor; [ right; exact Hj | constructor ].
  - destruct Hs as (Hq & Hr & Hb & Hf). repeat split; cbn; auto.
Qed.

(** C5 (as amended). In every state that the system reaches, each job
    recorded as permanently failed has an attempt count equal to the
    configured maximum when that maximum is at least 1, and equal to 1
    otherwise (a job is always tried once); and each job that waits in
    its retry delay has failed with fewer attempts than the maximum and
    waits [1000 * 2 ^ (attempts - 1)] ms before it re-enters the waiting
    list. *)
Theorem retry_invariant (actions : list Action) :
  Forall (fun j => attempts j = Z.max 1 (maxRetries config))
    (failedJobs (run config actions init))
  /\ Forall (fun e => (1 <= attempts (fst e) < maxRetries config)%Z
                      /\ snd e = (1000 * 2 ^ (attempts (fst e) - 1))%Z)
       (backoff (run config actions init)).
Proof.
  assert (H : attemptsInv config (run config actions init)).
  { apply run_invariant; [ apply step_attempts | ].
    repeat split; constructor. }
  destruct H as (_ & _ & Hb & Hf). split; [ exact Hf | exact Hb ].
Qed.

End RetryFacts.

(** With the default configuration the sample order fails for good after
    three attempts, having waited 1000 ms and 2000 ms. *)
Example retry_default_run :
  map attempts (failedJobs (run defaultConfig alwaysFailing init)) = [3]
  /\ map snd (backoff (run defaultConfig (take 3 alwaysFailing) init))
     = [1000]
  /\ map snd (backoff (run defaultConfig (take 6 alwaysFailing) init))
     = [2000].
Proof. vm_compute. auto. Qed.

(** C5 as stated fails: with a configured maximum of 0 the job is tried
    once and recorded as permanently failed with an attempt count of 1,
    which is not the configured maximum. *)
Lemma failed_attempts_differ_from_maximum :
  let config := mkConfig 10 0 in
  let s := run config
             [CreateOrder sampleOrder; AddOrder sampleOrder;
              Finish "o1" failDraws] init in
  map attempts (failedJobs s) = [1]
  /\ exists j, j ∈ failedJobs s /\ attempts j <> maxRetries config.
Proof.
  cbv zeta. split; [ vm_compute; reflexivity | ].
  eexists. split; [ vm_compute; left | ]. cbn. discriminate.
Qed.

Section LookupFacts.

Variable config : Config.

Lemma countIf_nil {A} (q : A -> bool) : countIf q [] = 0%nat.
Proof. reflexivity. Qed.

Lemma countIf_app {A} (q : A -> bool) l1 l2 :
  countIf q (l1 ++ l2) = (countIf q l1 + countIf q l2)%nat.
Proof. unfold countIf. rewrite List.filter_app, length_app. reflexivity. Qed.

Lemma countIf_cons {A} (q : A -> bool) x l :
  countIf q (x :: l) = ((if q x then 1 else 0) + countIf q l)%nat.
Proof. unfold countIf. cbn. destruct (q x); reflexivity. Qed.

Lemma countIf_zero_find {A} (q : A -> bool) l :
  countIf q l = 0%nat -> List.find q l = None.
Proof.
  induction l as [ | x l IH ]; [ reflexivity | ].
  rewrite countIf_cons. cbn. destruct (q x); [ discriminate | exact IH ].
Qed.

Lemma countIf_elem {A} (q : A -> bool) x l :
  x ∈ l -> q x = true -> (1 <= countIf q l)%nat.
Proof.
  induction 1 as [ x l | x y l _ IH ]; intros Hq; rewrite countIf_cons.
  - rewrite Hq. lia.
  - specialize (IH Hq). lia.
Qed.

Lemma takeFirst_count {A} (p q : A -> bool) l x r :
  takeFirst p l = Some (x, r) ->
  p x = true
  /\ countIf q l = ((if q x then 1 else 0) + countIf q r)%nat.
Proof.
  revert x r. induction l as [ | y l IH ]; intros x r H; [ discriminate | ].
  cbn in H. destruct (p y) eqn:Hp.
  - injection H as <- <-. rewrite countIf_cons. auto.
  - destruct (takeFirst p l) as [[z r'] | ]; [ | discriminate ].
    injection H as <- <-. destruct (IH _ _ eq_refl) as [Hz Hc].
    rewrite !countIf_cons, Hc. split; [ exact Hz | lia ].
Qed.

Lemma hasId_true i j : hasId i j = true <-> j_id j = i.
Proof. unfold hasId. apply bool_decide_eq_true. Qed.

Lemma hasId_other i i' j :
  hasId i' j = true -> i ≠ i' -> hasId i j = false.
Proof.
  intros H Hne. apply hasId_true in H. unfold hasId.
  apply bool_decide_eq_false. congruence.
Qed.

(** The inner loop moves jobs from the waiting list to the running
    calls; it keeps their ids and the other lists. *)
Lemma startWaiting_held waitingJobs s i :
  held i (startWaiting config waitingJobs s) = held i (set_queue waitingJobs s).
Proof.
  revert s. induction waitingJobs as [ | job rest IH ]; intros s.
  - reflexivity.
  - cbn [startWaiting]. destruct (_ <? _)%Z; [ | reflexivity ].
    rewrite IH. unfold held. cbn. rewrite countIf_app, !countIf_cons.
    change (hasId i (set_attempts (attempts job + 1)
                       (set_j_status active job))) with (hasId i job).
    rewrite countIf_nil. lia.
Qed.

Lemma startWaiting_active waitingJobs s :
  activeInv s -> activeInv (startWaiting config waitingJobs s).
Proof.
  revert s. induction waitingJobs as [ | job rest IH ];
    intros s (Hr & Hb & Ha).
  - repeat split; auto.
  - cbn [startWaiting]. destruct (_ <? _)%Z; [ | repeat split; auto ].
    apply IH. repeat split; cbn; auto.
    + apply Forall_app. split; [ exact Hr | ].
      constructor; [ reflexivity | constructor ].
    + intros i Hi. unfold inFlight. cbn. rewrite countIf_app, countIf_cons.
      apply elem_of_union in Hi as [Hi | Hi].
      * apply elem_of_singleton in Hi. subst i. rewrite countIf_nil.
        replace (hasId (j_id job) _) with true
          by (symmetry; apply hasId_true; reflexivity).
        lia.
      * specialize (Ha i Hi). unfold inFlight in Ha. lia.
Qed.

Lemma held_loopTurn s i : held i (loopTurn config s) = held i s.
Proof.
  unfold loopTurn. destruct (_ || _); [ | reflexivity ].
  rewrite startWaiting_held. reflexivity.
Qed.

Lemma activeInv_loopTurn s : activeInv s -> activeInv (loopTurn config s).
Proof.
  intros Hs. unfold loopTurn. destruct (_ || _).
  - apply startWaiting_active, Hs.
  - exact Hs.
Qed.

Lemma held_step s a i :
  (held i (step config s a) <= held i s + addedCount i [a])%nat.
Proof.
  destruct a; cbn [step]; try (unfold held; cbn; lia).
  - unfold addOrder, processQueue. cbn [processing set_queue].
    set (job := mkJob (id order) order 0 waiting None (now (world s))).
    assert (H : held i (set_queue (queue s ++ [job]) s)
                = (held i s + addedCount i [AddOrder order])%nat).
    { unfold held, addedCount. cbn. rewrite countIf_app, !countIf_cons.
      rewrite !countIf_nil. unfold hasId at 2. cbn [j_id job]. lia. }
    destruct (processing s); cbn [negb]; [ lia | ].
    rewrite held_loopTurn. unfold held in *. cbn in *. lia.
  - destruct (loops s); [ lia | ]. rewrite held_loopTurn. lia.
  - destruct (takeFirst (hasId jobId) (running s)) as [[job others] | ] eqn:H;
      [ | lia ].
    destruct (takeFirst_count _ (hasId i) _ _ _ H) as [_ Hc].
    destruct (processOrder orc (j_order job, world s)) as [r [o w]].
    unfold processJobSettle. destruct r as [[] | e].
    + unfold held. cbn. rewrite countIf_app, countIf_cons, countIf_nil.
      change (hasId i (set_j_status completed (set_j_order o job)))
        with (hasId i job). lia.
    + destruct (_ <? _)%Z.
      * unfold held. cbn. rewrite countIf_app, countIf_cons, countIf_nil.
        cbn [fst].
        change (hasId i (set_j_order o job)) with (hasId i job). lia.
      * unfold held. cbn. rewrite countIf_app, countIf_cons, countIf_nil.
        change (hasId i (set_j_error _ (set_j_status failed
                                          (set_j_order o job))))
          with (hasId i job). lia.
  - destruct (takeFirst _ (backoff s)) as [[[job d] others] | ] eqn:H;
      [ | lia ].
    destruct (takeFirst_count _ (fun e => hasId i (fst e)) _ _ _ H)
      as [_ Hc].
    unfold held. cbn in *. rewrite countIf_app, countIf_cons, countIf_nil.
    change (hasId i (set_j_status waiting job)) with (hasId i job). lia.
  - unfold held. cbn. rewrite countIf_nil. lia.
Qed.

Lemma addedCount_app i l1 l2 :
  addedCount i (l1 ++ l2) = (addedCount i l1 + addedCount i l2)%nat.
Proof.
  unfold addedCount, addedIds. rewrite flat_map_app. apply countIf_app.
Qed.

Lemma held_run actions s i :
  (held i (run config actions s) <= held i s + addedCount i actions)%nat.
Proof.
  revert s. induction actions as [ | a actions IH ]; intros s.
  - cbn. unfold addedCount, addedIds. cbn. rewrite countIf_nil. lia.
  - change (a :: actions) with ([a] ++ actions)%list.
    rewrite addedCount_app. change (run config ([a] ++ actions)%list s)
      with (run config actions (step config s a)).
    specialize (IH (step config s a)).
    pose proof (held_step s a i). lia.
Qed.

Lemma addedCount_NoDup i actions :
  NoDup (addedIds actions) -> (addedCount i actions <= 1)%nat.
Proof.
  unfold addedCount. generalize (addedIds actions) as l.
  induction 1 as [ | x l Hx _ IH ]; [ rewrite countIf_nil; lia | ].
  rewrite countIf_cons. destruct (bool_decide (x = i)) eqn:Hxi; [ | lia ].
  apply bool_decide_eq_true in Hxi. subst x.
  assert (H0 : countIf (fun x => bool_decide (x = i)) l = 0%nat).
  { clear IH. induction l as [ | y l IHl ]; [ reflexivity | ].
    rewrite countIf_cons. apply not_elem_of_cons in Hx as [Hne Hx].
    rewrite bool_decide_eq_false_2 by congruence. apply IHl, Hx. }
  lia.
Qed.

Lemma activeInv_step s a : activeInv s -> activeInv (step config s a).
Proof.
  intros Hs. destruct a; cbn [step]; try exact Hs.
  - unfold addOrder, processQueue. cbn [processing set_queue].
    destruct (processing s); cbn [negb]; [ exact Hs | ].
    apply activeInv_loopTurn. exact Hs.
  - destruct (loops s); [ exact Hs | ]. apply activeInv_loopTurn, Hs.
  - destruct (takeFirst (hasId jobId) (running s)) as [[job others] | ] eqn:H;
      [ | exact Hs ].
    destruct Hs as (Hr & Hb & Ha).
    destruct (takeFirst_Forall _ _ _ _ _ H Hr) as [Hj Ho].
    assert (Hdel : forall i, i ∈ activeJobs s ∖ {[ j_id job ]} ->
              (1 <= countIf (hasId i) others
                    + countIf (fun e => hasId i (fst e)) (backoff s))%nat).
    { intros i Hi. apply elem_of_difference in Hi as [Hi Hne].
      rewrite elem_of_singleton in Hne. specialize (Ha i Hi).
      destruct (takeFirst_count _ (hasId i) _ _ _ H) as [_ Hc].
      unfold inFlight in Ha. rewrite Hc in Ha.
      rewrite (hasId_other i (j_id job) job) in Ha;
        [ exact Ha | apply hasId_true; reflexivity | exact Hne ]. }
    destruct (processOrder orc (j_order job, world s)) as [r [o w]].
    unfold processJobSettle. destruct r as [[] | e].
    + repeat split; cbn; auto.
    + destruct (_ <? _)%Z.
      * repeat split; cbn; auto.
        -- apply Forall_app. split; [ exact Hb | ].
           constructor; [ exact Hj | constructor ].
        -- intros i Hi. specialize (Ha i Hi).
           destruct (takeFirst_count _ (hasId i) _ _ _ H) as [_ Hc].
           unfold inFlight in *. cbn.
           rewrite countIf_app, countIf_cons, countIf_nil. cbn [fst].
           change (hasId i (set_j_order o job)) with (hasId i job). lia.
      * repeat split; cbn; auto.
  - destruct (takeFirst _ (backoff s)) as [[[job d] others] | ] eqn:H;
      [ | exact Hs ].
    destruct Hs as (Hr & Hb & Ha).
    destruct (takeFirst_Forall _ _ _ _ _ H Hb) as [Hj Ho].
    repeat split; cbn; auto.
    intros i Hi. apply elem_of_difference in Hi as [Hi Hne].
    rewrite elem_of_singleton in Hne. specialize (Ha i Hi).
    destruct (takeFirst_count _ (fun e => hasId i (fst e)) _ _ _ H)
      as [_ Hc].
    unfold inFlight in *. cbn. rewrite Hc in Ha. cbn [fst] in Ha.
    rewrite (hasId_other i (j_id job) job) in Ha;
      [ exact Ha | apply hasId_true; reflexivity | exact Hne ].
  - destruct Hs as (Hr & Hb & Ha). repeat split; cbn; auto.
    intros i Hi. apply not_elem_of_empty in Hi. contradiction.
Qed.

Lemma getJob_none i s :
  (1 <= inFlight i s)%nat -> (held i s <= 1)%nat -> getJob i s = None.
Proof.
  unfold inFlight, held, getJob. intros H1 H2.
  rewrite !countIf_zero_find by lia. reflexivity.
Qed.

Lemma startWaiting_resting waitingJobs s :
  Forall (fun j => j_status j = waiting) waitingJobs ->
  restingInv s -> restingInv (startWaiting config waitingJobs s).
Proof.
  revert s. induction waitingJobs as [ | job rest IH ];
    intros s Hw (Hq & Hc & Hf).
  - repeat split; cbn; auto.
  - cbn [startWaiting]. apply Forall_cons in Hw as [Hj Hw].
    destruct (_ <? _)%Z.
    + apply IH; [ exact Hw | ]. repeat split; cbn; auto.
    + repeat split; cbn; auto.
Qed.

Lemma restingInv_loopTurn s : restingInv s -> restingInv (loopTurn config s).
Proof.
  intros Hs. unfold loopTurn. destruct (_ || _).
  - apply startWaiting_resting; [ apply Hs | exact Hs ].
  - exact Hs.
Qed.

Lemma restingInv_step s a : restingInv s -> restingInv (step config s a).
Proof.
  intros Hs. destruct a; cbn [step]; try exact Hs.
  - unfold addOrder, processQueue. cbn [processing set_queue].
    assert (Hs' : restingInv
              (set_queue (queue s ++ [mkJob (id order) order 0 waiting None
                                        (now (world s))]) s)).
    { destruct Hs as (Hq & Hc & Hf). repeat split; cbn; auto.
      apply Forall_app. split; [ exact Hq | ].
      constructor; [ reflexivity | constructor ]. }
    destruct (processing s); cbn [negb]; [ exact Hs' | ].
    apply restingInv_loopTurn. exact Hs'.
  - destruct (loops s); [ exact Hs | ]. apply restingInv_loopTurn, Hs.
  - destruct (takeFirst (hasId jobId) (running s)) as [[job others] | ];
      [ | exact Hs ].
    destruct Hs as (Hq & Hc & Hf).
    destruct (processOrder orc (j_order job, world s)) as [r [o w]].
    unfold processJobSettle. destruct r as [[] | e].
    + repeat split; cbn; auto.
      apply Forall_app. split; [ exact Hc | ].
      constructor; [ reflexivity | constructor ].
    + destruct (_ <? _)%Z; repeat split; cbn; auto.
      apply Forall_app. split; [ exact Hf | ].
      constructor; [ reflexivity | constructor ].
  - destruct (takeFirst _ (backoff s)) as [[[job d] others] | ];
      [ | exact Hs ].
    destruct Hs as (Hq & Hc & Hf). repeat split; cbn; auto.
    apply Forall_app. split; [ exact Hq | ].
    constructor; [ reflexivity | constructor ].
  - destruct Hs as (Hq & Hc & Hf). repeat split; cbn; auto.
Qed.

Lemma find_Forall {A} (p : A -> bool) (P : A -> Prop) l x :
  List.find p l = Some x -> Forall P l -> P x.
Proof.
  intros Hfind Hl. apply List.find_some in Hfind as [Hin _].
  apply (proj1 (Forall_forall P l) Hl). apply list_elem_of_In. exact Hin.
Qed.

(** C10. [getJob] never returns a job that is in processing: what it
    returns has the status waiting, completed or failed. And in a run in
    which every order is given to [addOrder] once, a job in processing
    (in [await processOrder] or in its retry delay) has the status active
    and [getJob] with its id returns null, as does [getJob] with any id
    of the active set: the waiting, completed and failed lists, the only
    ones searched, do not hold the job. *)
Theorem getJob_misses_active_jobs (actions : list Action) :
  let s := run config actions init in
  (forall i job, getJob i s = Some job -> j_status job <> active)
  /\ (NoDup (addedIds actions) ->
      (forall job, job ∈ running s \/ job ∈ map fst (backoff s) ->
         j_status job = active /\ getJob (j_id job) s = None)
      /\ (forall i, i ∈ activeJobs s -> getJob i s = None)).
Proof.
  intros s. split.
  - assert (Hrest : restingInv s).
    { apply run_invariant; [ apply restingInv_step | ].
      repeat split; constructor. }
    destruct Hrest as (Hq & Hc & Hf). intros i job Hget.
    unfold getJob in Hget.
    destruct (List.find (hasId i) (queue s)) as [j1 | ] eqn:H1.
    { injection Hget as <-.
      rewrite (find_Forall _ _ _ _ H1 Hq). discriminate. }
    destruct (List.find (hasId i) (completedJobs s)) as [j2 | ] eqn:H2.
    { injection Hget as <-.
      rewrite (find_Forall _ _ _ _ H2 Hc). discriminate. }
    rewrite (find_Forall _ _ _ _ Hget Hf). discriminate.
  - intros Hnd.
    assert (Hheld : forall i, (held i s <= 1)%nat).
    { intros i. pose proof (held_run actions init i) as H.
      pose proof (addedCount_NoDup i actions Hnd).
      change (held i init) with 0%nat in H. subst s. lia. }
    assert (Hinv : activeInv s).
    { apply run_invariant; [ apply activeInv_step | ].
      repeat split; try constructor.
      intros i Hi. apply not_elem_of_empty in Hi. contradiction. }
    destruct Hinv as (Hr & Hb & Ha). split.
    + intros job [Hj | Hj].
      * split; [ exact (proj1 (Forall_forall _ _) Hr job Hj) | ].
        apply getJob_none; [ | apply Hheld ].
        pose proof (countIf_elem (hasId (j_id job)) job (running s) Hj
                      (proj2 (hasId_true _ _) eq_refl)).
        unfold inFlight. lia.
      * apply list_elem_of_fmap in Hj as ([job' d] & -> & He). cbn [fst].
        split; [ exact (proj1 (Forall_forall _ _) Hb _ He) | ].
        apply getJob_none; [ | apply Hheld ].
        pose proof (countIf_elem (fun e => hasId (j_id job') (fst e))
                      (job', d) (backoff s) He
                      (proj2 (hasId_true _ _) eq_refl)).
        unfold inFlight. lia.
    + intros i Hi. apply getJob_none; [ apply Ha, Hi | apply Hheld ].
Qed.

End LookupFacts.

Lemma getJob_misses_active_jobs_witness :
  let s := run defaultConfig [CreateOrder sampleOrder; AddOrder sampleOrder]
             init in
  NoDup (addedIds [CreateOrder sampleOrder; AddOrder sampleOrder])
  /\ "o1" ∈ activeJobs s
  /\ map j_id (running s) = ["o1"]
  /\ getJob "o1" s = None.
Proof.
  cbv zeta.
  assert (Hnd : NoDup (addedIds [CreateOrder sampleOrder;
                                 AddOrder sampleOrder])).
  { cbn. apply NoDup_singleton. }
  assert (Hin : "o1" ∈ activeJobs (run defaultConfig
                  [CreateOrder sampleOrder; AddOrder sampleOrder] init)).
  { cbn. apply elem_of_union_l, elem_of_singleton. reflexivity. }
  split; [ exact Hnd | ]. split; [ exact Hin | ].
  split; [ reflexivity | ].
  apply (getJob_misses_active_jobs defaultConfig
           [CreateOrder sampleOrder; AddOrder sampleOrder]);
    [ exact Hnd | exact Hin ].
Defined.

(** Once the job has left the active state, [getJob] finds it. *)
Example getJob_finds_completed_job :
  j_status <$> getJob "o1" (run defaultConfig
     [CreateOrder sampleOrder; AddOrder sampleOrder; Finish "o1" okDraws]
     init)
  = Some completed.
Proof. vm_compute. reflexivity. Qed.

(** * Further properties of the router *)

Section RouterRanges.

Lemma toInt32_range (z : Z) : (- 2 ^ 31 <= toInt32 z < 2 ^ 31)%Z.
Proof.
  unfold toInt32.
  pose proof (Z.mod_pos_bound (z + 2 ^ 31) (2 ^ 32) ltac:(lia)). lia.
Qed.

Lemma hashStep_range (hash char : Z) :
  (- 2 ^ 31 <= hashStep hash char < 2 ^ 31)%Z.
Proof. unfold hashStep. rewrite Z.land_diag. apply toInt32_range. Qed.

Lemma fold_hashStep_range (codes : list Z) (h : Z) :
  (- 2 ^ 31 <= h < 2 ^ 31)%Z ->
  (- 2 ^ 31 <= fold_left hashStep codes h < 2 ^ 31)%Z.
Proof.
  revert h. induction codes as [ | c codes IH ]; intros h Hh; [ exact Hh | ].
  cbn [fold_left]. apply IH, hashStep_range.
Qed.

(** X1. The hash of every string is an integer between 0 and 2^31 (the
    absolute value of a 32-bit integer), and the base price of every
    token pair lies between 1 and 1.99. *)
Theorem simpleHash_and_base_price_range (str tokenIn tokenOut : string) :
  (0 <= simpleHash str <= 2 ^ 31)%Z
  /\ (1 <= calculateBasePrice tokenIn tokenOut)%Q
  /\ (calculateBasePrice tokenIn tokenOut <= 1.99)%Q.
Proof.
  split.
  - unfold simpleHash.
    pose proof (fold_hashStep_range (charCodes str) 0 ltac:(lia)). lia.
  - split; [ apply calculateBasePrice_range | ].
    unfold calculateBasePrice.
    pose proof (simpleHash_nonneg (tokenIn ++ tokenOut)) as Hh.
    set (h := simpleHash (tokenIn ++ tokenOut)) in *.
    assert (Hr : (Z.rem h 100 <= 99)%Z).
    { rewrite Z.rem_mod_nonneg by lia.
      pose proof (Z.mod_pos_bound h 100 ltac:(lia)). lia. }
    assert (H1 : (inject_Z (Z.rem h 100) <= 99)%Q).
    { rewrite (Zle_Qle _ 99) in Hr. exact Hr. }
    apply Qle_trans with (1 + 99 / 100)%Q; [ | unfold Qle; cbn; lia ].
    apply Qplus_le_r. unfold Qdiv. apply Qmult_le_compat_r; [ exact H1 | ].
    unfold Qle; cbn; lia.
Qed.

(** X2. For a draw in [0, 1), the raydium price lies between
    0.98 base and 1.02 base and the meteora price between 0.97 base and
    1.02 base, bounds included, where base is the base price of the
    pair; the fees are 0.003 and 0.002 and each quote names its venue.
    The upper bound is not strict: in floating point the variance of the
    largest draws rounds to 1.02. *)
Theorem venue_price_bounds (tokenIn tokenOut : string) (amount rnd : Q)
    (now : Z) :
  (0 <= rnd)%Q -> (rnd < 1)%Q ->
  let base := calculateBasePrice tokenIn tokenOut in
  let r := getRaydiumQuote tokenIn tokenOut amount rnd now in
  let m := getMeteorQuote tokenIn tokenOut amount rnd now in
  (0.98 * base <= price r /\ price r <= 1.02 * base)%Q
  /\ (0.97 * base <= price m /\ price m <= 1.02 * base)%Q
  /\ fee r = 0.003%Q /\ fee m = 0.002%Q
  /\ dex r = raydium /\ dex m = meteora.
Proof.
  intros H0 H1 base r m. subst r m.
  destruct (calculateBasePrice_range tokenIn tokenOut) as [Hb _].
  fold base in Hb. unfold getRaydiumQuote, getMeteorQuote.
  cbn [price fee dex]. fold base.
  repeat split; nra.
Qed.

Lemma venue_price_bounds_witness :
  (0.98 * calculateBasePrice "SOL" "USDC"
   <= price (getRaydiumQuote "SOL" "USDC" 100 0.5 0))%Q.
Proof.
  apply (venue_price_bounds "SOL" "USDC" 100 0.5 0);
    [ unfold Qle; cbn; lia | reflexivity ].
Defined.

End RouterRanges.

Section RouterChoice.

(** X3. [getBestQuote] selects raydium exactly when the raydium quote's
    estimated output is strictly greater than the meteora quote's; on
    equal outputs, and when meteora's is greater, it selects meteora. *)
Theorem getBestQuote_selection (tokenIn tokenOut : string)
    (amount rndR rndM : Q) (now : Z) :
  let q := getBestQuote tokenIn tokenOut amount rndR rndM now in
  ((estimatedOutput (bq_meteora q) < estimatedOutput (bq_raydium q))%Q ->
     best q = bq_raydium q /\ dex (best q) = raydium)
  /\ ((estimatedOutput (bq_raydium q) <= estimatedOutput (bq_meteora q))%Q ->
        best q = bq_meteora q /\ dex (best q) = meteora)
  /\ (dex (best q) = raydium <->
      (estimatedOutput (bq_meteora q) < estimatedOutput (bq_raydium q))%Q).
Proof.
  intros q. subst q. unfold getBestQuote. cbn [best bq_raydium bq_meteora].
  set (r := getRaydiumQuote tokenIn tokenOut amount rndR now).
  set (m := getMeteorQuote tokenIn tokenOut amount rndM now).
  assert (Hr : dex r = raydium) by reflexivity.
  assert (Hm : dex m = meteora) by reflexivity.
  unfold pickBest.
  destruct (gtb (estimatedOutput r) (estimatedOutput m)) eqn:Hg.
  - apply gtb_true in Hg. split; [ auto | split; [ | tauto ] ].
    intros Hle. exfalso. apply (Qlt_irrefl (estimatedOutput m)).
    eapply Qlt_le_trans; eassumption.
  - apply gtb_false in Hg. split; [ | split; [ auto | ] ].
    + intros Hlt. exfalso. apply (Qlt_irrefl (estimatedOutput m)).
      eapply Qlt_le_trans; eassumption.
    + rewrite Hm. split; [ discriminate | ].
      intros Hlt. exfalso. apply (Qlt_irrefl (estimatedOutput m)).
      eapply Qlt_le_trans; eassumption.
Qed.

Lemma getBestQuote_selection_witness :
  dex (best (getBestQuote "SOL" "USDC" 100 0.5 0.5 0)) = raydium.
Proof.
  apply (getBestQuote_selection "SOL" "USDC" 100 0.5 0.5 0).
  reflexivity.
Defined.

End RouterChoice.

Section SwapResults.

Lemma ltb_false (a b : Q) : ltb a b = false <-> (b <= a)%Q.
Proof.
  unfold ltb. rewrite Qle_alt, <- (Qcompare_antisym a b).
  destruct (a ?= b)%Q; cbn; split; congruence.
Qed.

(** X4. When the failure draw is at least 0.05 and the order carries a
    positive quoted price, [executeSwap] succeeds: the result has a
    transaction hash, an executed price equal to the quoted price times
    [1 - draw * slippage / 100], and an output amount equal to the input
    amount times the executed price. For a slippage tolerance in
    [0, 100] and a draw in [0, 1) the executed price is positive, at most
    the quoted price and at least the quoted price lowered by the
    tolerance. *)
Theorem executeSwap_success (d : Dex) (order : Order) (rnd : SwapDraws)
    (p : Q) :
  (0.05 <= failDraw rnd)%Q ->
  executedPrice order = Some (Num p) -> (0 < p)%Q ->
  (0 <= slippage order)%Q -> (slippage order <= 100)%Q ->
  (0 <= slipDraw rnd)%Q -> (slipDraw rnd < 1)%Q ->
  let ep := (p * (1 - slipDraw rnd * (slippage order / 100)))%Q in
  executeSwap d order rnd
  = Returns {| success := true;
               r_txHash := Some (generateMockTxHash (hashDraw rnd));
               r_executedPrice := Some (Num ep);
               r_outputAmount := Some (Num (amountIn order * ep));
               r_error := None |}
  /\ (0 < ep)%Q /\ (ep <= p)%Q
  /\ (p * (1 - slippage order / 100) <= ep)%Q.
Proof.
  intros Hf Hp Hpos Hs0 Hs1 Hd0 Hd1 ep. split.
  - unfold executeSwap, executeSwapBody.
    rewrite (proj2 (ltb_false _ _) Hf), Hp. reflexivity.
  - subst ep. set (t := (slippage order / 100)%Q).
    assert (Ht0 : (0 <= t)%Q).
    { subst t. apply Qle_shift_div_l; [ reflexivity | lra ]. }
    assert (Ht1 : (t <= 1)%Q).
    { subst t. apply Qle_shift_div_r; [ reflexivity | lra ]. }
    set (dr := slipDraw rnd) in *.
    assert (Hu0 : (0 <= dr * t)%Q) by (apply Qmult_le_0_compat; lra).
    assert (Hu1 : (dr * t <= t)%Q).
    { rewrite <- (Qmult_1_l t) at 2. apply Qmult_le_compat_r; lra. }
    assert (Hu2 : (0 <= dr * (1 - t))%Q) by (apply Qmult_le_0_compat; lra).
    assert (Hu3 : (dr * t < 1)%Q) by lra.
    set (u := (dr * t)%Q) in *.
    assert (H1 : (0 < p * (1 - u))%Q) by (apply Qmult_lt_0_compat; lra).
    assert (H2 : (0 <= p * u)%Q) by (apply Qmult_le_0_compat; lra).
    assert (H3 : (0 <= p * (t - u))%Q) by (apply Qmult_le_0_compat; lra).
    repeat split; [ exact H1 | lra | lra ].
Qed.

Lemma executeSwap_success_witness :
  success <$> (match executeSwap raydium quotedOrder (swapDraws okDraws) with
               | Returns r => Some r
               | Throws _ => None
               end) = Some true.
Proof.
  destruct (executeSwap_success raydium quotedOrder (swapDraws okDraws) 1.5)
    as [-> _]; try reflexivity; unfold Qle; cbn; lia.
Defined.

(** X5. [executeSwap] fails exactly when the failure draw is below 0.05;
    the failed result carries the message
    "<dex> execution failed: Network timeout" and no hash, price or
    amount. *)
Theorem executeSwap_failure (d : Dex) (order : Order) (rnd : SwapDraws) :
  ((failDraw rnd < 0.05)%Q ->
     executeSwap d order rnd
     = Returns {| success := false;
                  r_txHash := None;
                  r_executedPrice := None;
                  r_outputAmount := None;
                  r_error := Some (dexName d
                                   ++ " execution failed: Network timeout") |})
  /\ (forall r, executeSwap d order rnd = Returns r ->
        (success r = false <-> (failDraw rnd < 0.05)%Q)).
Proof.
  split.
  - intros Hlt. unfold executeSwap, executeSwapBody.
    rewrite (proj2 (ltb_true _ _) Hlt). reflexivity.
  - intros r Hr. unfold executeSwap, executeSwapBody in Hr.
    destruct (ltb (failDraw rnd) 0.05) eqn:Hl.
    + injection Hr as <-. apply ltb_true in Hl. cbn. tauto.
    + injection Hr as <-. apply ltb_false in Hl. cbn.
      split; [ discriminate | ]. intros Hlt. exfalso.
      apply (Qlt_irrefl 0.05). eapply Qle_lt_trans; eassumption.
Qed.

Lemma executeSwap_failure_witness :
  executeSwap meteora sampleOrder (swapDraws failDraws)
  = Returns {| success := false;
               r_txHash := None;
               r_executedPrice := None;
               r_outputAmount := None;
               r_error := Some "meteora execution failed: Network timeout" |}.
Proof.
  apply (executeSwap_failure meteora sampleOrder (swapDraws failDraws)).
  reflexivity.
Defined.

(** X6. [executeSwap] does not check that the order carries a quoted
    price: for an order without [executedPrice] (or with NaN) and a
    failure draw of at least 0.05 the result is a success whose executed
    price and output amount are NaN. *)
Theorem executeSwap_unquoted_order (d : Dex) (order : Order)
    (rnd : SwapDraws) :
  (0.05 <= failDraw rnd)%Q ->
  executedPrice order = None \/ executedPrice order = Some NaN ->
  executeSwap d order rnd
  = Returns {| success := true;
               r_txHash := Some (generateMockTxHash (hashDraw rnd));
               r_executedPrice := Some NaN;
               r_outputAmount := Some NaN;
               r_error := None |}.
Proof.
  intros Hf Hp. unfold executeSwap, executeSwapBody.
  rewrite (proj2 (ltb_false _ _) Hf).
  destruct Hp as [-> | ->]; reflexivity.
Qed.

Lemma executeSwap_unquoted_order_witness :
  r_executedPrice <$> (match executeSwap raydium sampleOrder
                               (swapDraws okDraws) with
                       | Returns r => Some r
                       | Throws _ => None
                       end) = Some (Some NaN).
Proof.
  rewrite (executeSwap_unquoted_order raydium sampleOrder
             (swapDraws okDraws)); [ reflexivity | | left; reflexivity ].
  unfold Qle; cbn; lia.
Defined.

End SwapResults.

Section TransactionHash.

Lemma hexChar_digit (r : Q) :
  (0 <= r)%Q -> (r < 1)%Q ->
  exists c, hexChar r = String c EmptyString /\ isHexDigit c.
Proof.
  intros H0 H1. unfold hexChar.
  change (inject_Z (Z.of_nat (length chars))) with (inject_Z 16).
  set (i := Qfloor (r * inject_Z 16)).
  assert (Hi0 : (0 <= i)%Z).
  { rewrite <- (Qfloor_Z 0). apply Qfloor_resp_le.
    apply Qmult_le_0_compat; [ exact H0 | unfold Qle; cbn; lia ]. }
  assert (Hi1 : (i < 16)%Z).
  { rewrite (Zlt_Qlt i 16). apply Qle_lt_trans with (r * inject_Z 16)%Q.
    - apply Qfloor_le.
    - apply Qlt_le_trans with (1 * inject_Z 16)%Q.
      + apply Qmult_lt_compat_r; [ reflexivity | exact H1 ].
      + unfold Qle; cbn; lia. }
  destruct (i <? 0)%Z eqn:Hneg; [ apply Z.ltb_lt in Hneg; lia | ].
  assert (Hn : (Z.to_nat i < 16)%nat) by lia.
  unfold isHexDigit, chars. cbn [list_ascii_of_string].
  generalize dependent (Z.to_nat i). intros n Hn.
  do 16 (destruct n as [ | n ];
         [ eexists; split; [ reflexivity | cbn; tauto ] | ]).
  lia.
Qed.

Lemma txHashFrom_hex (draw : nat -> Q) (n i : nat) :
  (forall k, (0 <= draw k)%Q /\ (draw k < 1)%Q) ->
  String.length (txHashFrom draw i n) = n
  /\ Forall isHexDigit (list_ascii_of_string (txHashFrom draw i n)).
Proof.
  intros Hd. revert i. induction n as [ | n IH ]; intros i.
  - split; [ reflexivity | constructor ].
  - cbn [txHashFrom]. destruct (Hd i) as [H0 H1].
    destruct (hexChar_digit (draw i) H0 H1) as (c & -> & Hc).
    destruct (IH (S i)) as [Hl Hf].
    split; [ simpl; f_equal; exact Hl | simpl; constructor; assumption ].
Qed.

(** X7. When every draw is in [0, 1), [generateMockTxHash] returns a
    string of exactly 64 characters, each one a hexadecimal digit of
    "0123456789abcdef". *)
Theorem generateMockTxHash_is_hex64 (draw : nat -> Q) :
  (forall k, (0 <= draw k)%Q /\ (draw k < 1)%Q) ->
  String.length (generateMockTxHash draw) = 64%nat
  /\ Forall isHexDigit (list_ascii_of_string (generateMockTxHash draw)).
Proof. intros Hd. apply txHashFrom_hex, Hd. Qed.

Lemma generateMockTxHash_is_hex64_witness :
  String.length (generateMockTxHash (fun _ => 0.5%Q)) = 64%nat.
Proof.
  apply (generateMockTxHash_is_hex64 (fun _ => 0.5%Q)).
  intros k. split; [ unfold Qle; cbn; lia | reflexivity ].
Defined.

End TransactionHash.

(** * Properties of the store *)

Section StoreFacts.

(** X8. [set] then [get] of the same key returns the value, except that
    an empty string reads back as null although [exists] is true; the
    other keys are not affected, and [del] removes the key. *)
Theorem kv_set_get (key value : string) (expiry : option Q)
    (s : KeyValueStore.Store) :
  KeyValueStore.get key (KeyValueStore.set key value expiry s)
  = (if decide (value = "") then None else Some value)
  /\ KeyValueStore.has key (KeyValueStore.set key value expiry s) = true
  /\ (forall other, other <> key ->
        KeyValueStore.get other (KeyValueStore.set key value expiry s)
        = KeyValueStore.get other s)
  /\ KeyValueStore.get key (KeyValueStore.del key s) = None
  /\ KeyValueStore.has key (KeyValueStore.del key s) = false.
Proof.
  assert (Hkv : KeyValueStore.kvStore (KeyValueStore.set key value expiry s)
                = <[key := value]> (KeyValueStore.kvStore s)).
  { unfold KeyValueStore.set. destruct expiry as [e | ]; [ | reflexivity ].
    destruct (Qeq_bool e 0); reflexivity. }
  unfold KeyValueStore.get, KeyValueStore.has. rewrite Hkv.
  rewrite lookup_insert_eq. split; [ reflexivity | ].
  split; [ apply bool_decide_eq_true; eauto | ].
  split; [ intros other Hne; rewrite lookup_insert_ne by congruence;
           reflexivity | ].
  cbn. rewrite lookup_delete_eq. split; [ reflexivity | ].
  apply bool_decide_eq_false. intros [v Hv]. discriminate.
Qed.

Lemma kv_set_get_witness :
  KeyValueStore.get "k" (KeyValueStore.set "k" "v" None KeyValueStore.empty)
  = Some "v"
  /\ KeyValueStore.get "k"
       (KeyValueStore.set "j" "" None
          (KeyValueStore.set "k" "v" None KeyValueStore.empty))
     = Some "v".
Proof.
  destruct (kv_set_get "k" "v" None KeyValueStore.empty) as (H1 & _).
  destruct (kv_set_get "j" "" None
              (KeyValueStore.set "k" "v" None KeyValueStore.empty))
    as (_ & _ & H3 & _).
  split; [ exact H1 | ]. rewrite H3 by discriminate. exact H1.
Defined.

(** X9. An expiry timer deletes its key whatever was stored since: after
    [set] with an expiry other than 0 and a later [set] of the same key
    without expiry, the firing of the first timer removes the new value.
    A [set] without expiry (or with expiry 0) starts no timer. *)
Theorem kv_expiry_deletes_newer_value (key value value' : string) (e : Q)
    (s : KeyValueStore.Store) :
  ~ (e == 0)%Q ->
  let s1 := KeyValueStore.set key value (Some e) s in
  let s2 := KeyValueStore.set key value' None s1 in
  KeyValueStore.timers s1
  = (KeyValueStore.timers s ++ [key])%list
  /\ KeyValueStore.timers s2 = KeyValueStore.timers s1
  /\ KeyValueStore.get key
       (KeyValueStore.fire (length (KeyValueStore.timers s)) s2) = None
  /\ KeyValueStore.has key
       (KeyValueStore.fire (length (KeyValueStore.timers s)) s2) = false
  /\ KeyValueStore.timers (KeyValueStore.set key value (Some 0%Q) s)
     = KeyValueStore.timers s.
Proof.
  intros He s1 s2.
  assert (Hb : Qeq_bool e 0 = false).
  { destruct (Qeq_bool e 0) eqn:Hq; [ | reflexivity ].
    apply Qeq_bool_eq in Hq. contradiction. }
  assert (H1 : KeyValueStore.timers s1
               = (KeyValueStore.timers s ++ [key])%list).
  { subst s1. unfold KeyValueStore.set. rewrite Hb. reflexivity. }
  assert (H2 : KeyValueStore.timers s2 = KeyValueStore.timers s1)
    by reflexivity.
  assert (Hfire : KeyValueStore.kvStore
                    (KeyValueStore.fire (length (KeyValueStore.timers s)) s2)
                  !! key = None).
  { unfold KeyValueStore.fire. rewrite H2, H1.
    rewrite list_lookup_middle by reflexivity. cbn.
    apply lookup_delete_eq. }
  split; [ exact H1 | ]. split; [ exact H2 | ].
  unfold KeyValueStore.get, KeyValueStore.has. rewrite Hfire.
  split; [ reflexivity | ]. split; [ | reflexivity ].
  apply bool_decide_eq_false. intros [v Hv]. discriminate.
Qed.

Lemma kv_expiry_deletes_newer_value_witness :
  KeyValueStore.get "k"
    (KeyValueStore.fire 0
       (KeyValueStore.set "k" "new" None
          (KeyValueStore.set "k" "old" (Some 60%Q) KeyValueStore.empty)))
  = None.
Proof.
  apply (kv_expiry_deletes_newer_value "k" "old" "new" 60
           KeyValueStore.empty).
  intros H. discriminate H.
Defined.

(** X10. [createOrder] then [getOrder] with the order's id returns the
    order as it was stored, replacing any record under that id; the
    records under other ids, the listeners and the logs are as before. *)
Theorem createOrder_getOrder (order : Order) (w : World) :
  InMemoryDatabase.getOrder (id order) (InMemoryDatabase.createOrder order w)
  = Some order
  /\ (forall other, other <> id order ->
        InMemoryDatabase.getOrder other
          (InMemoryDatabase.createOrder order w)
        = InMemoryDatabase.getOrder other w)
  /\ listeners (InMemoryDatabase.createOrder order w) = listeners w
  /\ published (InMemoryDatabase.createOrder order w) = published w
  /\ delivered (InMemoryDatabase.createOrder order w) = delivered w.
Proof.
  unfold InMemoryDatabase.getOrder, InMemoryDatabase.createOrder. cbn.
  rewrite lookup_insert_eq. split; [ reflexivity | ].
  split; [ | auto ].
  intros other Hne. rewrite lookup_insert_ne by congruence. reflexivity.
Qed.

(** X11. [updateOrder] with an id that the store does not hold throws
    the error "Order <id> not found" and changes nothing. With an id that
    it holds, it returns the record merged with the updates and stamped
    with the clock, and [getOrder] returns that record afterwards. In
    both cases the records under other ids and the set of ids stay as
    they are: [updateOrder] never creates a record. *)
Theorem updateOrder_behaviour (orderId : string) (updates : Order -> Order)
    (o : Order) (w : World) :
  let out := InMemoryDatabase.updateOrder orderId updates (o, w) in
  (orders w !! orderId = None ->
     out = (Throws (ErrorObj ("Order " ++ orderId ++ " not found")), (o, w)))
  /\ (forall record, orders w !! orderId = Some record ->
        fst out = Returns (set_updatedAt (now w) (updates record))
        /\ InMemoryDatabase.getOrder orderId (snd (snd out))
           = Some (set_updatedAt (now w) (updates record)))
  /\ (forall other, other <> orderId ->
        InMemoryDatabase.getOrder other (snd (snd out))
        = InMemoryDatabase.getOrder other w)
  /\ dom (orders (snd (snd out))) = dom (orders w)
  /\ fst (snd out) = o.
Proof.
  intros out. subst out. unfold InMemoryDatabase.updateOrder.
  unfold InMemoryDatabase.getOrder. cbn [fst snd].
  destruct (orders w !! orderId) as [record | ] eqn:Hl; cbn [fst snd].
  - split; [ discriminate | ]. split.
    + intros record' [= <-]. cbn. rewrite lookup_insert_eq. auto.
    + split; [ | split; [ | reflexivity ] ].
      * intros other Hne. cbn. rewrite lookup_insert_ne by congruence.
        reflexivity.
      * cbn. rewrite dom_insert_L.
        assert (orderId ∈ dom (orders w)) by (apply elem_of_dom; eauto).
        apply set_eq. intros x. rewrite elem_of_union, elem_of_singleton.
        split; [ intros [-> | Hx]; assumption | auto ].
  - split; [ reflexivity | ]. split; [ discriminate | ]. auto.
Qed.

Lemma updateOrder_behaviour_witness :
  InMemoryDatabase.updateOrder "nobody" (set_status FAILED)
    (sampleOrder, sampleWorld)
  = (Throws (ErrorObj "Order nobody not found"), (sampleOrder, sampleWorld))
  /\ status <$> InMemoryDatabase.getOrder "o1"
       (snd (snd (InMemoryDatabase.updateOrder "o1" (set_status FAILED)
                    (sampleOrder, sampleWorld))))
     = Some FAILED.
Proof.
  destruct (updateOrder_behaviour "nobody" (set_status FAILED) sampleOrder
              sampleWorld) as (H1 & _).
  destruct (updateOrder_behaviour "o1" (set_status FAILED) sampleOrder
              sampleWorld) as (_ & H2 & _).
  split; [ apply H1; reflexivity | ].
  destruct (H2 sampleOrder) as [_ ->]; reflexivity.
Defined.

End StoreFacts.

(** * Properties of the subscriptions *)

Section SubscriptionFacts.

Lemma listenersOf_subscribe name orderId callback w :
  listenersOf name (snd (subscribeToOrder orderId callback w))
  = if decide (orderEvent orderId = name)
    then (listenersOf name w ++ [(nextHandle w, callback)])%list
    else listenersOf name w.
Proof.
  unfold subscribeToOrder, listenersOf at 1. cbn [snd listeners].
  rewrite lookup_insert. destruct (decide (orderEvent orderId = name)) as [<- | ];
    reflexivity.
Qed.

Lemma listenersOf_unsubscribe name orderId h w :
  listenersOf name (unsubscribe orderId h w)
  = if decide (orderEvent orderId = name)
    then filter (fun l => fst l ≠ h) (listenersOf name w)
    else listenersOf name w.
Proof.
  unfold unsubscribe, listenersOf at 1. cbn [listeners].
  rewrite lookup_insert. destruct (decide (orderEvent orderId = name)) as [<- | ];
    reflexivity.
Qed.

Lemma filter_fresh_handle (h : nat) (ls : list (nat * Callback)) :
  Forall (fun l => fst l ≠ h) ls ->
  filter (fun l => fst l ≠ h) ls = ls.
Proof.
  induction 1 as [ | l ls Hl _ IH ]; [ reflexivity | ].
  rewrite filter_cons_True by exact Hl. rewrite IH. reflexivity.
Qed.

(** X12. [subscribeToOrder] appends the callback, under a new handle, to
    the listeners of the order's event and leaves the listeners of every
    other event and the record of past deliveries as they are (nothing
    is replayed). When the handles in use are below the next handle,
    [unsubscribe] with the handle returned puts the listeners of every
    event back as they were before the subscription. *)
Theorem subscribe_then_unsubscribe (orderId : string) (callback : Callback)
    (w : World) :
  handlesBelow (orderEvent orderId) w ->
  let h := fst (subscribeToOrder orderId callback w) in
  let w1 := snd (subscribeToOrder orderId callback w) in
  h = nextHandle w
  /\ listenersOf (orderEvent orderId) w1
     = (listenersOf (orderEvent orderId) w ++ [(h, callback)])%list
  /\ (forall name, name <> orderEvent orderId ->
        listenersOf name w1 = listenersOf name w)
  /\ delivered w1 = delivered w
  /\ (forall name,
        listenersOf name (unsubscribe orderId h w1) = listenersOf name w).
Proof.
  intros Hb h w1. subst h w1. split; [ reflexivity | ].
  split; [ rewrite listenersOf_subscribe, decide_True by reflexivity;
           reflexivity | ].
  split; [ intros name Hne; rewrite listenersOf_subscribe,
             decide_False by congruence; reflexivity | ].
  split; [ reflexivity | ].
  intros name. rewrite listenersOf_unsubscribe, listenersOf_subscribe.
  destruct (decide (orderEvent orderId = name)) as [<- | ]; [ | reflexivity ].
  cbn [fst]. rewrite filter_app, filter_cons_False, filter_nil, app_nil_r
    by (cbn; intros Hc; apply Hc; reflexivity).
  apply filter_fresh_handle. eapply Forall_impl; [ exact Hb | ].
  cbn. intros l Hl. lia.
Qed.

Lemma subscribe_then_unsubscribe_witness :
  listenersOf (orderEvent "o1")
    (unsubscribe "o1" 2
       (snd (subscribeToOrder "o1" quietCallback twoSubscribers)))
  = listenersOf (orderEvent "o1") twoSubscribers.
Proof.
  apply (subscribe_then_unsubscribe "o1" quietCallback twoSubscribers).
  unfold handlesBelow. vm_compute.
  repeat constructor.
Defined.

(** X13. [unsubscribe] is idempotent, removes every listener with the
    given handle from the order's event and no other listener, and
    leaves the listeners of the other events as they are; with a handle
    that is not subscribed it changes no list of listeners. *)
Theorem unsubscribe_idempotent (orderId : string) (h : nat) (w : World) :
  unsubscribe orderId h (unsubscribe orderId h w) = unsubscribe orderId h w
  /\ (forall l, l ∈ listenersOf (orderEvent orderId)
                      (unsubscribe orderId h w)
                <-> l ∈ listenersOf (orderEvent orderId) w /\ fst l <> h)
  /\ (forall name, name <> orderEvent orderId ->
        listenersOf name (unsubscribe orderId h w) = listenersOf name w)
  /\ (Forall (fun l => fst l <> h) (listenersOf (orderEvent orderId) w) ->
      forall name, listenersOf name (unsubscribe orderId h w)
                   = listenersOf name w).
Proof.
  split; [ | split; [ | split ] ].
  - unfold unsubscribe at 1 3.
    rewrite listenersOf_unsubscribe, decide_True by reflexivity.
    cbn [orders listeners nextHandle now delivered published unsubscribe].
    rewrite insert_insert_eq. f_equal. f_equal.
    apply list_filter_filter_l. tauto.
  - intros l. rewrite listenersOf_unsubscribe, decide_True by reflexivity.
    rewrite list_elem_of_filter. tauto.
  - intros name Hne.
    rewrite listenersOf_unsubscribe, decide_False by congruence.
    reflexivity.
  - intros Hf name. rewrite listenersOf_unsubscribe.
    destruct (decide (orderEvent orderId = name)) as [<- | ];
      [ | reflexivity ].
    apply filter_fresh_handle, Hf.
Qed.

Lemma unsubscribe_idempotent_witness :
  listenersOf (orderEvent "o1") (unsubscribe "o1" 7 twoSubscribers)
  = listenersOf (orderEvent "o1") twoSubscribers.
Proof.
  apply (unsubscribe_idempotent "o1" 7 twoSubscribers).
  vm_compute. repeat constructor; discriminate.
Defined.

End SubscriptionFacts.

Section ChannelFacts.

Lemma emit_quiet name u s :
  Forall (quietOn u) (listenersOf name (snd s)) ->
  emit name u s
  = (Returns tt,
     (fst s, set_delivered
               (delivered (snd s)
                ++ deliveriesTo name u (listenersOf name (snd s))) (snd s))).
Proof.
  intros Hq. unfold emit. rewrite (callListeners_quiet _ _ _ Hq). reflexivity.
Qed.

Lemma emit_throwing name u s pre h cb e post :
  listenersOf name (snd s) = (pre ++ (h, cb) :: post)%list ->
  Forall (quietOn u) pre -> cb u = Some e ->
  emit name u s
  = (Throws e,
     (fst s, set_delivered
               (delivered (snd s)
                ++ deliveriesTo name u (pre ++ [(h, cb)])) (snd s))).
Proof.
  intros Hls Hpre He. unfold emit.
  rewrite Hls, (callListeners_throw _ _ _ _ _ _ _ Hpre He). reflexivity.
Qed.

Lemma emitStatusUpdate_quiet st msg dat o w :
  let u := statusUpdateOf st msg dat o w in
  Forall (quietOn u) (listenersOf (orderEvent (id o)) w) ->
  Forall (quietOn u) (listenersOf "order:update" w) ->
  emitStatusUpdate st msg dat (o, w)
  = (Returns tt,
     (o, set_delivered
           (delivered w
            ++ deliveriesTo (orderEvent (id o)) u
                 (listenersOf (orderEvent (id o)) w)
            ++ deliveriesTo "order:update" u (listenersOf "order:update" w))
           (set_published
              (published w
               ++ [mkEmission u (status o) (status <$> orders w !! id o)])
              w))).
Proof.
  intros u Hq1 Hq2. unfold emitStatusUpdate.
  rewrite bind_run. cbn [getOrderObject fst snd]. rewrite bind_run.
  cbn [fst snd]. fold (statusUpdateOf st msg dat o w). fold u.
  rewrite bind_run. unfold observe at 1. cbn [fst snd]. rewrite bind_run.
  rewrite (emit_quiet (orderEvent (id o)) u) by exact Hq1.
  cbn [fst snd].
  rewrite (emit_quiet "order:update" u) by exact Hq2.
  cbn [fst snd]. unfold set_delivered, set_published. cbn.
  rewrite <- app_assoc. reflexivity.
Qed.

Lemma emitStatusUpdate_throwing st msg dat o w pre h cb e post :
  let u := statusUpdateOf st msg dat o w in
  listenersOf (orderEvent (id o)) w = (pre ++ (h, cb) :: post)%list ->
  Forall (quietOn u) pre -> cb u = Some e ->
  emitStatusUpdate st msg dat (o, w)
  = (Throws e,
     (o, set_delivered
           (delivered w
            ++ deliveriesTo (orderEvent (id o)) u (pre ++ [(h, cb)]))
           (set_published
              (published w
               ++ [mkEmission u (status o) (status <$> orders w !! id o)])
              w))).
Proof.
  intros u Hls Hpre He. unfold emitStatusUpdate.
  rewrite bind_run. cbn [getOrderObject fst snd]. rewrite bind_run.
  cbn [fst snd]. fold (statusUpdateOf st msg dat o w). fold u.
  rewrite bind_run. unfold observe at 1. cbn [fst snd]. rewrite bind_run.
  rewrite (emit_throwing (orderEvent (id o)) u _ pre h cb e post)
    by assumption.
  reflexivity.
Qed.

(** X14. [emitStatusUpdate] publishes each event on two events: the
    order's own and "order:update". When no listener throws, the
    listeners of the order's event are called first, then those of
    "order:update", and the call returns. When a listener of the order's
    event throws, the listeners of "order:update" are not called at all
    and the call throws. *)
Theorem emitStatusUpdate_two_channels (st : OrderStatus)
    (msg : option string) (dat : option StatusData) (o : Order) (w : World) :
  let u := statusUpdateOf st msg dat o w in
  let own := listenersOf (orderEvent (id o)) w in
  let all := listenersOf "order:update" w in
  let out := emitStatusUpdate st msg dat (o, w) in
  (Forall (quietOn u) own -> Forall (quietOn u) all ->
     fst out = Returns tt
     /\ delivered (snd (snd out))
        = (delivered w ++ deliveriesTo (orderEvent (id o)) u own
           ++ deliveriesTo "order:update" u all)%list)
  /\ (forall pre h cb e post,
        own = (pre ++ (h, cb) :: post)%list ->
        Forall (quietOn u) pre -> cb u = Some e ->
        fst out = Throws e
        /\ delivered (snd (snd out))
           = (delivered w
              ++ deliveriesTo (orderEvent (id o)) u (pre ++ [(h, cb)]))%list).
Proof.
  intros u own all out. subst out. split.
  - intros Hq1 Hq2.
    rewrite (emitStatusUpdate_quiet st msg dat o w Hq1 Hq2).
    split; reflexivity.
  - intros pre h cb e post Hls Hpre He.
    rewrite (emitStatusUpdate_throwing st msg dat o w pre h cb e post
               Hls Hpre He).
    split; reflexivity.
Qed.

Lemma emitStatusUpdate_two_channels_witness :
  map dl_handle
    (delivered (snd (snd (emitStatusUpdate PENDING None None
                            (sampleOrder, twoSubscribers)))))
  = [0%nat].
Proof.
  destruct (emitStatusUpdate_two_channels PENDING None None sampleOrder
              twoSubscribers) as [_ H].
  destruct (H [] 0%nat throwingCallback (ErrorObj "socket closed")
              [(1%nat, quietCallback)]) as [_ ->];
    [ vm_compute; reflexivity | constructor | reflexivity | ].
  reflexivity.
Defined.

Lemma callListeners_handles name ls u :
  Forall (fun d => exists cb, (dl_handle d, cb) ∈ ls /\ dl_name d = name
                              /\ dl_update d = u)
    (snd (callListeners name ls u)).
Proof.
  induction ls as [ | [h cb] ls IH ]; [ constructor | ].
  cbn [callListeners]. destruct (cb u).
  - cbn. constructor; [ | constructor ]. exists cb. cbn.
    split; [ left | auto ].
  - destruct (callListeners name ls u) as [r d]. cbn [snd] in *.
    constructor.
    + exists cb. cbn. split; [ left | auto ].
    + eapply Forall_impl; [ exact IH | ].
      intros x (cb' & Hin & Hx). exists cb'. split; [ right; exact Hin | exact Hx ].
Qed.

(** X15. A callback is called only while it is subscribed: the handles
    that [emit] calls are handles of listeners of the event, so after
    [unsubscribe] the handle removed is never called for the order's
    event again. *)
Theorem unsubscribed_callback_not_called (orderId : string) (h : nat)
    (u : OrderStatusUpdate) (w : World) :
  let name := orderEvent orderId in
  (forall w' h', h' ∈ handlesCalled name (listenersOf name w') u ->
                 h' ∈ map fst (listenersOf name w'))
  /\ h ∉ handlesCalled name (listenersOf name (unsubscribe orderId h w)) u.
Proof.
  intros name.
  assert (Hsub : forall w' h',
            h' ∈ handlesCalled name (listenersOf name w') u ->
            h' ∈ map fst (listenersOf name w')).
  { intros w' h' Hin. unfold handlesCalled in Hin.
    apply list_elem_of_fmap in Hin as (d & -> & Hd).
    pose proof (callListeners_handles name (listenersOf name w') u) as Hf.
    rewrite Forall_forall in Hf. destruct (Hf d Hd) as (cb & Hcb & _).
    apply list_elem_of_fmap. exists (dl_handle d, cb). auto. }
  split; [ exact Hsub | ].
  intros Hin. apply Hsub in Hin.
  apply list_elem_of_fmap in Hin as ([h' cb] & Hh & Hl). cbn in Hh. subst h'.
  subst name. rewrite listenersOf_unsubscribe, decide_True in Hl
    by reflexivity.
  apply list_elem_of_filter in Hl as [Hne _]. apply Hne. reflexivity.
Qed.

End ChannelFacts.

(** * What one run of [processOrder] changes *)

Section FrameFacts.

Lemma sameInputs_refl o : sameInputs o o.
Proof. repeat split. Qed.

Lemma sameInputs_trans a b c :
  sameInputs a b -> sameInputs b c -> sameInputs a c.
Proof.
  unfold sameInputs. intros (?&?&?&?&?&?&?&?) (?&?&?&?&?&?&?&?).
  repeat split; congruence.
Qed.

Lemma statusStep_trans a b c :
  statusStep a b -> statusStep b c -> statusStep a c.
Proof. unfold statusStep. intros [-> | [-> | ->]] [-> | [-> | ->]]; auto. Qed.

Lemma listenersOf_same name w w' :
  listeners w' = listeners w -> listenersOf name w' = listenersOf name w.
Proof. unfold listenersOf. intros ->. reflexivity. Qed.

Lemma Frame_refl s : Frame s s.
Proof.
  split; [ apply sameInputs_refl | ]. repeat (split; [ reflexivity | ]).
  split.
  - intros record' H. exists record'. split; [ exact H | ].
    split; [ apply sameInputs_refl | left; reflexivity ].
  - exists []. rewrite app_nil_r. auto.
Qed.

Lemma Frame_trans s1 s2 s3 : Frame s1 s2 -> Frame s2 s3 -> Frame s1 s3.
Proof.
  intros (Hi1 & Hl1 & Hn1 & Hc1 & Hd1 & Ho1 & Hr1 & ds1 & Hds1 & Hf1)
         (Hi2 & Hl2 & Hn2 & Hc2 & Hd2 & Ho2 & Hr2 & ds2 & Hds2 & Hf2).
  assert (Hid : id (fst s2) = id (fst s1)) by apply Hi1.
  rewrite Hid in Ho2, Hr2, Hf2.
  split; [ eapply sameInputs_trans; eassumption | ].
  split; [ congruence | ]. split; [ congruence | ]. split; [ congruence | ].
  split; [ congruence | ]. split; [ | split ].
  - intros j Hj. rewrite Ho2, Ho1 by exact Hj. reflexivity.
  - intros r3 H3. destruct (Hr2 r3 H3) as (r2 & H2 & Hs2 & Hst2).
    destruct (Hr1 r2 H2) as (r1 & H1 & Hs1 & Hst1).
    exists r1. split; [ exact H1 | ].
    split; [ eapply sameInputs_trans; eassumption
           | eapply statusStep_trans; eassumption ].
  - exists (ds1 ++ ds2)%list. rewrite Hds2, Hds1, <- app_assoc.
    split; [ reflexivity | ]. apply Forall_app. split; [ exact Hf1 | ].
    eapply Forall_impl; [ exact Hf2 | ].
    intros d (Hname & Hu & cb & Hcb). split; [ exact Hname | ].
    split; [ exact Hu | ]. exists cb.
    rewrite <- (listenersOf_same _ _ _ Hl1). exact Hcb.
Qed.

(** A change of the logs alone. *)
Lemma Frame_logs o w ds pub :
  Forall (deliveryFor (id o) w) ds ->
  Frame (o, w)
    (o, mkWorld (orders w) (listeners w) (nextHandle w) (now w)
          (delivered w ++ ds) pub).
Proof.
  intros Hds. split; [ apply sameInputs_refl | ].
  repeat (split; [ reflexivity | ]). split.
  - intros record' H. exists record'. split; [ exact H | ].
    split; [ apply sameInputs_refl | left; reflexivity ].
  - exists ds. auto.
Qed.

Lemma emit_frame name u s :
  name = orderEvent (id (fst s)) \/ name = "order:update" ->
  orderId u = id (fst s) ->
  exists r s', emit name u s = (r, s') /\ Frame s s' /\ fst s' = fst s.
Proof.
  intros Hname Hu. destruct s as [o w]. unfold emit. cbn [fst snd] in *.
  pose proof (callListeners_handles name (listenersOf name w) u) as Hc.
  destruct (callListeners name (listenersOf name w) u) as [r d].
  cbn [snd] in Hc.
  assert (HF : Frame (o, w) (o, set_delivered (delivered w ++ d) w)).
  { apply Frame_logs. eapply Forall_impl; [ exact Hc | ].
    intros x (cb & Hin & Hn & Hx). split; [ rewrite Hn; exact Hname | ].
    split; [ rewrite Hx; exact Hu | ]. exists cb. rewrite Hn. exact Hin. }
  destruct r as [e | ]; eexists _, _; (split; [ reflexivity | ]); auto.
Qed.

Lemma emitStatusUpdate_frame st msg dat s :
  exists r s', emitStatusUpdate st msg dat s = (r, s')
    /\ Frame s s' /\ fst s' = fst s.
Proof.
  destruct s as [o w]. unfold emitStatusUpdate.
  rewrite bind_run. cbn [getOrderObject fst snd]. rewrite bind_run.
  cbn [fst snd]. rewrite bind_run. unfold observe at 1. cbn [fst snd].
  set (u := mkUpdate (id o) st msg dat (now w)).
  set (w1 := set_published _ w).
  assert (H1 : Frame (o, w) (o, w1)).
  { pose proof (Frame_logs o w [] (published w1)) as H.
    rewrite app_nil_r in H. apply H. constructor. }
  rewrite bind_run.
  destruct (emit_frame (orderEvent (id o)) u (o, w1))
    as (r1 & s1 & E1 & F1 & O1); [ left; reflexivity | reflexivity | ].
  rewrite E1. destruct r1 as [[] | e1].
  - destruct (emit_frame "order:update" u s1)
      as (r2 & s2 & E2 & F2 & O2);
      [ right; reflexivity | rewrite O1; reflexivity | ].
    rewrite E2. exists r2, s2. split; [ reflexivity | ].
    split; [ | rewrite O2, O1; reflexivity ].
    exact (Frame_trans _ _ _ H1 (Frame_trans _ _ _ F1 F2)).
  - exists (Throws e1), s1. split; [ reflexivity | ].
    split; [ exact (Frame_trans _ _ _ H1 F1) | exact O1 ].
Qed.

Lemma Frame_object o o' w :
  sameInputs o o' -> Frame (o, w) (o', w).
Proof.
  intros Hs. split; [ exact Hs | ]. repeat (split; [ reflexivity | ]).
  split.
  - intros record' H. exists record'. split; [ exact H | ].
    split; [ apply sameInputs_refl | left; reflexivity ].
  - exists []. rewrite app_nil_r. auto.
Qed.

Lemma updateOrderStatus_frame st msg dat s :
  exists r s', updateOrderStatus st msg dat s = (r, s')
    /\ Frame s s' /\ fst s' = set_status st (fst s).
Proof.
  unfold updateOrderStatus. rewrite bind_run.
  unfold modifyOrderObject at 1.
  destruct (emitStatusUpdate_frame st msg dat (set_status st (fst s), snd s))
    as (r & s' & E & F & O).
  exists r, s'. split; [ exact E | ]. split; [ | exact O ].
  eapply Frame_trans; [ | exact F ]. destruct s as [o w].
  apply Frame_object. repeat split.
Qed.

Lemma updateOrder_frame i f s :
  i = id (fst s) ->
  (forall o, sameInputs o (f o) /\ statusStep (status o) (status (f o))) ->
  exists r s', InMemoryDatabase.updateOrder i f s = (r, s')
    /\ Frame s s' /\ fst s' = fst s
    /\ match r with
       | Returns _ =>
           exists record, orders (snd s) !! i = Some record
             /\ orders (snd s') !! i
                = Some (set_updatedAt (now (snd s)) (f record))
       | Throws e =>
           orders (snd s) !! i = None /\ s' = s
           /\ e = ErrorObj ("Order " ++ i ++ " not found")
       end.
Proof.
  intros -> Hf. destruct s as [o w]. unfold InMemoryDatabase.updateOrder.
  cbn [fst snd]. destruct (orders w !! id o) as [record | ] eqn:Hl.
  - eexists _, _. split; [ reflexivity | ]. cbn [fst snd].
    split; [ | split; [ reflexivity | ] ].
    + split; [ apply sameInputs_refl | ]. cbn.
      repeat (split; [ reflexivity | ]). split; [ | split; [ | split ] ].
      * rewrite dom_insert_L.
        assert (id o ∈ dom (orders w)) by (apply elem_of_dom; eauto).
        apply set_eq. intros x. rewrite elem_of_union, elem_of_singleton.
        split; [ intros [-> | Hx]; assumption | auto ].
      * intros j Hj. rewrite lookup_insert_ne by congruence. reflexivity.
      * intros record'. rewrite lookup_insert_eq. intros [= <-].
        exists record. split; [ exact Hl | ]. destruct (Hf record) as [Hs Hst].
        split; [ | exact Hst ].
        eapply sameInputs_trans; [ exact Hs | repeat split ].
      * exists []. rewrite app_nil_r. auto.
    + exists record. split; [ reflexivity | ]. cbn.
      rewrite lookup_insert_eq. reflexivity.
  - eexists _, _. split; [ reflexivity | ].
    split; [ apply Frame_refl | ]. auto.
Qed.

End FrameFacts.

Section ProcessOrderFrame.

Lemma executeSwap_success_fields d order rnd res :
  executeSwap d order rnd = Returns res -> success res = true ->
  is_Some (r_txHash res) /\ is_Some (r_executedPrice res)
  /\ is_Some (r_outputAmount res).
Proof.
  unfold executeSwap, executeSwapBody.
  destruct (ltb (failDraw rnd) 0.05); intros [= <-]; cbn;
    [ discriminate | eauto ].
Qed.

Ltac fchain X Xn :=
  let T := fresh "T" in
  pose proof (Frame_trans _ _ _ X Xn) as T; clear X Xn; rename T into X.

Ltac frame_update H X :=
  rewrite bind_run in H;
  match type of H with
  | context [ updateOrderStatus ?st ?m ?d ?s0 ] =>
      let r := fresh "r" in
      let s' := fresh "s" in
      let E := fresh "E" in
      let Xn := fresh "Xn" in
      let F := fresh "F" in
      destruct (updateOrderStatus_frame st m d s0) as (r & s' & E & Xn & F);
      rewrite E in H; clear E; fchain X Xn; destruct r as [[] | ?]
  end.

Ltac updates_ok :=
  let o := fresh "o" in
  intros o; split;
  [ repeat split
  | first [ left; reflexivity | right; left; reflexivity
          | right; right; reflexivity ] ].

Ltac frame_db H X R id_proof :=
  rewrite bind_run in H;
  match type of H with
  | context [ InMemoryDatabase.updateOrder ?i ?f ?s0 ] =>
      let r := fresh "r" in
      let s' := fresh "s" in
      let E := fresh "E" in
      let Xn := fresh "Xn" in
      let F := fresh "F" in
      destruct (updateOrder_frame i f s0) as (r & s' & E & Xn & F & R);
      [ id_proof | updates_ok | ];
      rewrite E in H; clear E; fchain X Xn; destruct r as [? | ?]
  end.

Ltac fst_facts :=
  repeat match goal with
         | Hf : fst ?x = _ |- context [ fst ?x ] => rewrite Hf
         end;
  reflexivity.

Ltac fstop H X := injection H as <- <-; split; [ exact X | exact I ].

Lemma processOrderBody_frame orc s r s' :
  processOrderBody orc s = (r, s') ->
  Frame s s'
  /\ match r with
     | Returns _ =>
         status (fst s') = CONFIRMED
         /\ exists record, orders (snd s') !! id (fst s) = Some record
              /\ confirmedRecord record
     | Throws _ => True
     end.
Proof.
  intros H. unfold processOrderBody in H.
  pose proof (Frame_refl s) as X.
  frame_update H X; [ | fstop H X ].
  frame_update H X; [ | fstop H X ].
  rewrite bind_run in H. cbn [getOrderObject] in H.
  rewrite bind_run in H. cbv beta iota zeta in H.
  set (q := getBestQuote _ _ _ _ _ _) in H.
  rewrite bind_run in H. unfold modifyOrderObject at 1 in H.
  cbn [fst snd] in H.
  match type of H with
  | context [ bind (InMemoryDatabase.updateOrder _ _) _ (?o1, ?w1) ] =>
      assert (Xm : Frame s1 (o1, w1))
        by (destruct s1; apply Frame_object; repeat split)
  end.
  fchain X Xm.
  frame_db H X R1 ltac:(reflexivity); [ | fstop H X ].
  rewrite bind_run in H.
  match type of H with
  | context [ emitStatusUpdate ?st ?m ?d ?s0 ] =>
      destruct (emitStatusUpdate_frame st m d s0) as (r3 & s3 & E & Xn & F3);
      rewrite E in H; clear E; fchain X Xn; destruct r3 as [[] | ?]
  end; [ | fstop H X ].
  frame_update H X; [ | fstop H X ].
  frame_update H X; [ | fstop H X ].
  rewrite bind_run in H. cbn [getOrderObject] in H.
  rewrite bind_run in H.
  destruct (executeSwap_returns (dex (best q)) s5.1 (swapDraws orc))
    as (res & Hres).
  rewrite Hres in H.
  destruct (success res) eqn:Hsucc; cbn [negb] in H.
  - frame_update H X; [ | fstop H X ].
    frame_db H X R2 ltac:(rewrite (proj1 (proj1 X)), F0, F; reflexivity);
      [ | fstop H X ].
    cbn [ret] in H. injection H as <- <-. split; [ exact X | ].
    split; [ fst_facts | ].
    destruct R2 as (record & _ & Hrec).
    assert (Hid : id s1.1 = id s.1).
    { rewrite F0, F. reflexivity. }
    rewrite Hid in Hrec. eexists. split; [ exact Hrec | ].
    destruct (executeSwap_success_fields _ _ _ _ Hres Hsucc)
      as (Ht & He & Ho).
    repeat split; assumption.
  - cbn [throw] in H. fstop H X.
Qed.

Lemma processOrderCatch_frame error s r s' :
  processOrderCatch error s = (r, s') ->
  Frame s s' /\ status (fst s') = FAILED /\ exists e, r = Throws e.
Proof.
  intros H. unfold processOrderCatch in H. cbv zeta in H.
  rewrite bind_run in H. cbn [getOrderObject] in H.
  pose proof (Frame_refl s) as X.
  frame_update H X.
  - frame_db H X R ltac:(rewrite F; reflexivity).
    + cbn [throw] in H. injection H as <- <-.
      split; [ exact X | ]. split; [ fst_facts | eauto ].
    + injection H as <- <-.
      split; [ exact X | ]. split; [ fst_facts | eauto ].
  - injection H as <- <-.
    split; [ exact X | ]. split; [ fst_facts | eauto ].
Qed.

(** X16. One run of [processOrder] keeps the id, type, tokens, amount
    and slippage of the order object; it leaves the listeners, the clock,
    the set of ids of the store and the records of all other orders as
    they are; the record of its own order keeps its input fields, and its
    status is kept or becomes confirmed or failed; and every listener it
    calls is registered for the order's event or for "order:update" and
    is called with an event of this order. *)
Theorem processOrder_frame (orc : Oracle) (s : Order * World) :
  Frame s (snd (processOrder orc s)).
Proof.
  unfold processOrder, tryCatch.
  destruct (processOrderBody orc s) as [rb sb] eqn:Hb.
  apply processOrderBody_frame in Hb as [X _].
  destruct rb as [[] | e]; [ exact X | ].
  destruct (processOrderCatch e sb) as [rc sc] eqn:Hc.
  apply processOrderCatch_frame in Hc as (Xc & _).
  exact (Frame_trans _ _ _ X Xc).
Qed.

(** X17. When [processOrder] returns, the order object has the status
    confirmed and the store holds a record of the order with the status
    confirmed, a transaction hash, an executed price and an output
    amount. When [processOrder] throws, the order object has the status
    failed. *)
Theorem processOrder_final_status (orc : Oracle) (s : Order * World) :
  match fst (processOrder orc s) with
  | Returns _ =>
      status (fst (snd (processOrder orc s))) = CONFIRMED
      /\ exists record,
           InMemoryDatabase.getOrder (id (fst s))
             (snd (snd (processOrder orc s))) = Some record
           /\ confirmedRecord record
  | Throws _ => status (fst (snd (processOrder orc s))) = FAILED
  end.
Proof.
  unfold processOrder, tryCatch.
  destruct (processOrderBody orc s) as [rb sb] eqn:Hb.
  apply processOrderBody_frame in Hb as [X Hr].
  destruct rb as [[] | e]; [ exact Hr | ].
  destruct (processOrderCatch e sb) as [rc sc] eqn:Hc.
  apply processOrderCatch_frame in Hc as (_ & Hst & e' & ->).
  exact Hst.
Qed.

End ProcessOrderFrame.

(** * [processOrder] when no subscriber throws *)

Section QuietRuns.

Lemma Pub_refl s : Pub s s [].
Proof. exists []. rewrite app_nil_r. auto. Qed.

Lemma Pub_trans s1 s2 s3 L1 L2 :
  Pub s1 s2 L1 -> Pub s2 s3 L2 -> Pub s1 s3 (L1 ++ L2)%list.
Proof.
  intros (e1 & H1 & M1) (e2 & H2 & M2). exists (e1 ++ e2)%list.
  rewrite H2, H1, <- app_assoc, map_app, M1, M2. auto.
Qed.

Lemma quietWorld_same w w' :
  listeners w' = listeners w -> quietWorld w -> quietWorld w'.
Proof.
  intros Hl Hq name u. rewrite (listenersOf_same name w w' Hl). apply Hq.
Qed.

Lemma emitStatusUpdate_quiet_run st msg dat s :
  quietWorld (snd s) ->
  exists s', emitStatusUpdate st msg dat s = (Returns tt, s')
    /\ fst s' = fst s /\ orders (snd s') = orders (snd s)
    /\ listeners (snd s') = listeners (snd s)
    /\ now (snd s') = now (snd s) /\ Pub s s' [st].
Proof.
  intros Hq. destruct s as [o w]. cbn [snd] in Hq.
  eexists. split; [ apply emitStatusUpdate_quiet; apply Hq | ].
  cbn [fst snd]. repeat (split; [ reflexivity | ]).
  eexists. cbn. split; reflexivity.
Qed.

Lemma updateOrderStatus_quiet_run st msg dat s :
  quietWorld (snd s) ->
  exists s', updateOrderStatus st msg dat s = (Returns tt, s')
    /\ fst s' = set_status st (fst s) /\ orders (snd s') = orders (snd s)
    /\ listeners (snd s') = listeners (snd s)
    /\ now (snd s') = now (snd s) /\ Pub s s' [st].
Proof.
  intros Hq. unfold updateOrderStatus. rewrite bind_run.
  unfold modifyOrderObject at 1.
  destruct (emitStatusUpdate_quiet_run st msg dat
              (set_status st (fst s), snd s) Hq)
    as (s' & E & F & Ho & Hl & Hn & Hp).
  exists s'. rewrite E. split; [ reflexivity | ].
  split; [ exact F | ]. split; [ exact Ho | ]. split; [ exact Hl | ].
  split; [ exact Hn | exact Hp ].
Qed.

Lemma updateOrder_present i f s record :
  orders (snd s) !! i = Some record ->
  InMemoryDatabase.updateOrder i f s
  = (Returns (set_updatedAt (now (snd s)) (f record)),
     (fst s,
      set_orders (<[i := set_updatedAt (now (snd s)) (f record)]>
                    (orders (snd s))) (snd s))).
Proof. intros H. unfold InMemoryDatabase.updateOrder. rewrite H. reflexivity. Qed.

Lemma updateOrder_missing i f s :
  orders (snd s) !! i = None ->
  InMemoryDatabase.updateOrder i f s
  = (Throws (ErrorObj ("Order " ++ i ++ " not found")), s).
Proof. intros H. unfold InMemoryDatabase.updateOrder. rewrite H. reflexivity. Qed.

Ltac q_status H Hq s' F Ho Hn P :=
  rewrite bind_run in H;
  match type of H with
  | context [ updateOrderStatus ?st ?m ?d ?s0 ] =>
      let E := fresh "E" in
      let Hl := fresh "Hl" in
      destruct (updateOrderStatus_quiet_run st m d s0 Hq)
        as (s' & E & F & Ho & Hl & Hn & P);
      rewrite E in H; clear E;
      apply (quietWorld_same _ _ Hl) in Hq; clear Hl
  end.

Lemma processOrderBody_quiet orc o w record r s' :
  quietWorld w -> orders w !! id o = Some record ->
  processOrderBody orc (o, w) = (r, s') ->
  quietWorld (snd s') /\ now (snd s') = now w /\ sameInputs o (fst s')
  /\ if ltb (failDraw (swapDraws orc)) 0.05
     then r = Throws (ErrorObj (swapErrorFor orc o w))
          /\ Pub (o, w) s' [PENDING; ROUTING; ROUTING; BUILDING; SUBMITTED]
          /\ orders (snd s')
             = <[id o := routedRecord orc o w record]> (orders w)
     else r = Returns tt
          /\ Pub (o, w) s' pipeline
          /\ status (fst s') = CONFIRMED
          /\ orders (snd s')
             = <[id o := settledRecord orc o w record]>
                 (<[id o := routedRecord orc o w record]> (orders w)).
Proof.
  intros Hq Hrec H. unfold processOrderBody in H.
  (* pending *)
  rewrite bind_run in H.
  destruct (updateOrderStatus_quiet_run PENDING
              (Some "Order received and queued") None (o, w) Hq)
    as (s0 & E & F0 & Ho0 & Hl0 & Hn0 & P0).
  rewrite E in H. clear E.
  pose proof (quietWorld_same _ _ Hl0 Hq) as Hq0.
  (* routing *)
  rewrite bind_run in H.
  destruct (updateOrderStatus_quiet_run ROUTING
              (Some "Comparing DEX prices") None s0 Hq0)
    as (s1 & E & F1 & Ho1 & Hl1 & Hn1 & P1).
  rewrite E in H. clear E.
  pose proof (quietWorld_same _ _ Hl1 Hq0) as Hq1.
  pose proof (Pub_trans _ _ _ _ _ P0 P1) as P01.
  rewrite F0 in F1. rewrite Ho0 in Ho1. rewrite Hn0 in Hn1.
  cbn [fst snd] in F1, Ho1, Hn1.
  rewrite bind_run in H. cbn [getOrderObject] in H.
  rewrite bind_run in H. cbv beta iota zeta in H.
  rewrite F1, Hn1 in H.
  cbn [fst snd id tokenIn tokenOut amountIn set_status] in H.
  fold (quotesFor orc o w) in H. set (q := quotesFor orc o w) in *.
  rewrite bind_run in H. unfold modifyOrderObject at 1 in H.
  cbn [fst snd] in H. rewrite F1 in H.
  (* the selection is stored *)
  rewrite bind_run in H.
  rewrite (updateOrder_present (id o) _ _ record) in H
    by (cbn [snd]; rewrite Ho1; exact Hrec).
  cbn [fst snd] in H. rewrite Hn1, Ho1 in H.
  match type of H with
  | ?c ?st = _ => set (s2 := st) in H
  end.
  assert (Hq2 : quietWorld (snd s2))
    by exact (quietWorld_same _ _ eq_refl Hq1).
  assert (Hn2 : now (snd s2) = now w) by exact Hn1.
  assert (P2 : Pub (o, w) s2 [PENDING; ROUTING]) by exact P01.
  (* the selection is published *)
  rewrite bind_run in H.
  destruct (emitStatusUpdate_quiet_run ROUTING
              (Some ("Best route: " ++ dexUpper (dex (best q))))
              (Some (mkData (Some (dexName (dex (best q))))
                       (Some (price (bq_raydium q)))
                       (Some (price (bq_meteora q))) None None None))
              s2 Hq2)
    as (s3 & E & F3 & Ho3 & Hl3 & Hn3 & P3).
  rewrite E in H. clear E.
  pose proof (quietWorld_same _ _ Hl3 Hq2) as Hq3.
  (* building, submitted *)
  q_status H Hq3 s4 F4 Ho4 Hn4 P4.
  q_status H Hq3 s5 F5 Ho5 Hn5 P5.
  assert (F : fst s5
              = set_status SUBMITTED (set_status BUILDING (fst s2))).
  { rewrite F5, F4, F3. reflexivity. }
  assert (Ho : orders (snd s5) = orders (snd s2)).
  { rewrite Ho5, Ho4, Ho3. reflexivity. }
  assert (Hn : now (snd s5) = now w).
  { rewrite Hn5, Hn4, Hn3. exact Hn2. }
  assert (P : Pub (o, w) s5
                [PENDING; ROUTING; ROUTING; BUILDING; SUBMITTED]).
  { exact (Pub_trans _ _ _ _ _ (Pub_trans _ _ _ _ _
             (Pub_trans _ _ _ _ _ P2 P3) P4) P5). }
  assert (Hin : sameInputs o (fst s5)).
  { rewrite F. repeat split. }
  rewrite bind_run in H. cbn [getOrderObject] in H.
  rewrite bind_run in H. rewrite F in H.
  unfold executeSwap, executeSwapBody in H.
  destruct (ltb (failDraw (swapDraws orc)) 0.05) eqn:Hfail.
  - (* the swap fails *)
    cbn [success negb r_error errorMessageOf] in H.
    assert (Herr : errorOr
                     (Some (dexName (dex (best q))
                            ++ " execution failed: Network timeout"))
                     "Execution failed"
                   = swapErrorFor orc o w).
    { unfold swapErrorFor. fold q. destruct (dex (best q)); reflexivity. }
    rewrite Herr in H. cbn [throw] in H. injection H as <- <-.
    split; [ exact Hq3 | ]. split; [ exact Hn | ]. split; [ exact Hin | ].
    split; [ reflexivity | ]. split; [ exact P | ]. rewrite Ho. reflexivity.
  - (* the swap succeeds *)
    cbn [success negb r_txHash r_executedPrice r_outputAmount] in H.
    q_status H Hq3 s6 F6 Ho6 Hn6 P6.
    rewrite bind_run in H.
    rewrite (updateOrder_present (id o) _ _
               (routedRecord orc o w record)) in H
      by (rewrite Ho6, Ho; cbn; apply lookup_insert_eq).
    cbn [ret] in H. injection H as <- <-. cbn [fst snd].
    split; [ exact (quietWorld_same _ _ eq_refl Hq3) | ].
    split; [ cbn; rewrite Hn6; exact Hn | ].
    split; [ rewrite F6, F; repeat split | ]. split; [ reflexivity | ].
    split; [ | split ].
    + destruct (Pub_trans _ _ _ _ _ P P6) as (evs & Hevs & Hm).
      exists evs. split; [ exact Hevs | exact Hm ].
    + rewrite F6. reflexivity.
    + cbn. rewrite Hn6, Hn, Ho6, Ho. reflexivity.
Qed.

Lemma processOrderBody_quiet_missing orc o w r s' :
  quietWorld w -> orders w !! id o = None ->
  processOrderBody orc (o, w) = (r, s') ->
  quietWorld (snd s') /\ now (snd s') = now w /\ sameInputs o (fst s')
  /\ r = Throws (ErrorObj ("Order " ++ id o ++ " not found"))
  /\ Pub (o, w) s' [PENDING; ROUTING]
  /\ orders (snd s') = orders w.
Proof.
  intros Hq Hrec H. unfold processOrderBody in H.
  q_status H Hq s0 F0 Ho0 Hn0 P0.
  q_status H Hq s1 F1 Ho1 Hn1 P1.
  assert (F : fst s1 = set_status ROUTING (set_status PENDING o)).
  { rewrite F1, F0. reflexivity. }
  assert (Ho : orders (snd s1) = orders w) by (rewrite Ho1, Ho0; reflexivity).
  assert (Hn : now (snd s1) = now w) by (rewrite Hn1, Hn0; reflexivity).
  rewrite bind_run in H. cbn [getOrderObject] in H.
  rewrite bind_run in H. cbv beta iota zeta in H.
  rewrite bind_run in H. unfold modifyOrderObject at 1 in H.
  cbn [fst snd] in H. rewrite F in H.
  cbn [id set_status] in H. rewrite bind_run in H.
  rewrite updateOrder_missing in H by (cbn [snd]; rewrite Ho; exact Hrec).
  injection H as <- <-. cbn [fst snd].
  split; [ exact Hq | ]. split; [ exact Hn | ].
  split; [ repeat split | ]. split; [ reflexivity | ].
  split; [ exact (Pub_trans _ _ _ _ _ P0 P1) | exact Ho ].
Qed.

Lemma processOrderCatch_quiet error s r s' :
  quietWorld (snd s) ->
  processOrderCatch error s = (r, s') ->
  fst s' = set_status FAILED (fst s) /\ Pub s s' [FAILED]
  /\ match orders (snd s) !! id (fst s) with
     | Some record =>
         r = Throws error
         /\ orders (snd s')
            = <[id (fst s) :=
                  set_updatedAt (now (snd s))
                    (set_error (Some (errorMessageOf error))
                       (set_status FAILED record))]> (orders (snd s))
     | None =>
         r = Throws (ErrorObj ("Order " ++ id (fst s) ++ " not found"))
         /\ orders (snd s') = orders (snd s)
     end.
Proof.
  intros Hq H. unfold processOrderCatch in H. cbv zeta in H.
  rewrite bind_run in H. cbn [getOrderObject] in H.
  q_status H Hq s0 F0 Ho0 Hn0 P0.
  rewrite bind_run in H.
  destruct (orders (snd s) !! id (fst s)) as [record | ] eqn:Hrec.
  - rewrite (updateOrder_present _ _ _ record) in H
      by (rewrite Ho0; exact Hrec).
    cbn [throw] in H. injection H as <- <-. cbn [fst snd].
    split; [ exact F0 | ]. split; [ exact P0 | ].
    split; [ reflexivity | ]. cbn. rewrite Hn0, Ho0. reflexivity.
  - rewrite updateOrder_missing in H by (rewrite Ho0; exact Hrec).
    injection H as <- <-. auto.
Qed.

Lemma Pub_attemptStatuses orc s L :
  Pub s (snd (processOrder orc s)) L -> attemptStatuses orc s = L.
Proof.
  intros (evs & Hp & Hm). unfold attemptStatuses, publishedBy.
  rewrite Hp, drop_app_length. exact Hm.
Qed.

(** X18. When no subscriber throws and the store holds no record of the
    order, [processOrder] publishes pending, routing and failed, throws
    the error "Order <id> not found", leaves the order object with the
    status failed and does not change the store. *)
Theorem processOrder_without_record (orc : Oracle) (o : Order) (w : World) :
  quietWorld w -> orders w !! id o = None ->
  let out := processOrder orc (o, w) in
  fst out = Throws (ErrorObj ("Order " ++ id o ++ " not found"))
  /\ attemptStatuses orc (o, w) = [PENDING; ROUTING; FAILED]
  /\ status (fst (snd out)) = FAILED
  /\ orders (snd (snd out)) = orders w.
Proof.
  intros Hq Hrec out.
  assert (H : fst out = Throws (ErrorObj ("Order " ++ id o ++ " not found"))
              /\ Pub (o, w) (snd out) [PENDING; ROUTING; FAILED]
              /\ status (fst (snd out)) = FAILED
              /\ orders (snd (snd out)) = orders w).
  { subst out. unfold processOrder, tryCatch.
    destruct (processOrderBody orc (o, w)) as [rb sb] eqn:Hb.
    destruct (processOrderBody_quiet_missing _ _ _ _ _ Hq Hrec Hb)
      as (Hqb & Hnb & Hib & -> & Pb & Hob).
    destruct (processOrderCatch _ sb) as [rc sc] eqn:Hc.
    destruct (processOrderCatch_quiet _ _ _ _ Hqb Hc) as (Fc & Pc & Hrc).
    assert (Hid : id (fst sb) = id o) by apply Hib.
    rewrite Hid, Hob, Hrec in Hrc. destruct Hrc as [-> Hoc].
    cbn [fst snd]. split; [ reflexivity | ].
    split; [ exact (Pub_trans _ _ _ _ _ Pb Pc) | ].
    split; [ rewrite Fc; reflexivity | exact Hoc ]. }
  destruct H as (H1 & H2 & H3 & H4).
  split; [ exact H1 | ].
  split; [ apply Pub_attemptStatuses; exact H2 | auto ].
Qed.

Lemma quietWorld_empty : quietWorld emptyWorld.
Proof. intros name u. constructor. Qed.

Lemma quietWorld_sample : quietWorld sampleWorld.
Proof. intros name u. constructor. Qed.

Lemma processOrder_without_record_witness :
  attemptStatuses okDraws (sampleOrder, emptyWorld)
  = [PENDING; ROUTING; FAILED].
Proof.
  apply (processOrder_without_record okDraws sampleOrder emptyWorld);
    [ exact quietWorld_empty | reflexivity ].
Defined.

(** X19. When no subscriber throws, the store holds a record of the
    order and the failure draw of the swap is below 0.05, [processOrder]
    publishes pending, routing, routing, building, submitted and failed
    and throws the error "<dex> execution failed: Network timeout" for
    the venue selected; afterwards the order object has the status
    failed, and the record in the store has the status failed, the
    message of the error, the venue selected and the two quoted prices. *)
Theorem processOrder_swap_failure (orc : Oracle) (o : Order) (w : World)
    (record : Order) :
  quietWorld w -> orders w !! id o = Some record ->
  (failDraw (swapDraws orc) < 0.05)%Q ->
  let out := processOrder orc (o, w) in
  fst out = Throws (ErrorObj (swapErrorFor orc o w))
  /\ attemptStatuses orc (o, w)
     = [PENDING; ROUTING; ROUTING; BUILDING; SUBMITTED; FAILED]
  /\ status (fst (snd out)) = FAILED
  /\ InMemoryDatabase.getOrder (id o) (snd (snd out))
     = Some (failedRecord orc o w record).
Proof.
  intros Hq Hrec Hfail out.
  assert (H : fst out = Throws (ErrorObj (swapErrorFor orc o w))
              /\ Pub (o, w) (snd out)
                   [PENDING; ROUTING; ROUTING; BUILDING; SUBMITTED; FAILED]
              /\ status (fst (snd out)) = FAILED
              /\ orders (snd (snd out)) !! id o
                 = Some (failedRecord orc o w record)).
  { subst out. unfold processOrder, tryCatch.
    destruct (processOrderBody orc (o, w)) as [rb sb] eqn:Hb.
    destruct (processOrderBody_quiet _ _ _ _ _ _ Hq Hrec Hb)
      as (Hqb & Hnb & Hib & Hcase).
    rewrite (proj2 (ltb_true _ _) Hfail) in Hcase.
    destruct Hcase as (-> & Pb & Hob).
    destruct (processOrderCatch _ sb) as [rc sc] eqn:Hc.
    destruct (processOrderCatch_quiet _ _ _ _ Hqb Hc) as (Fc & Pc & Hrc).
    assert (Hid : id (fst sb) = id o) by apply Hib.
    rewrite Hid, Hob, lookup_insert_eq in Hrc. destruct Hrc as [-> Hoc].
    cbn [fst snd]. split; [ reflexivity | ].
    split; [ exact (Pub_trans _ _ _ _ _ Pb Pc) | ].
    split; [ rewrite Fc; reflexivity | ].
    rewrite Hoc, lookup_insert_eq, Hnb. reflexivity. }
  destruct H as (H1 & H2 & H3 & H4).
  split; [ exact H1 | ].
  split; [ apply Pub_attemptStatuses; exact H2 | auto ].
Qed.

Lemma processOrder_swap_failure_witness :
  fst (processOrder failDraws (sampleOrder, sampleWorld))
  = Throws (ErrorObj "raydium execution failed: Network timeout").
Proof.
  apply (processOrder_swap_failure failDraws sampleOrder sampleWorld
           sampleOrder);
    [ exact quietWorld_sample | reflexivity | reflexivity ].
Defined.

(** X20. When no subscriber throws, the store holds a record of the
    order and the failure draw of the swap is at least 0.05,
    [processOrder] returns after publishing pending, routing, routing,
    building, submitted and confirmed; afterwards the order object has
    the status confirmed, and the record in the store has the status
    confirmed, the venue selected, the two quoted prices, the
    transaction hash, the executed price (the quoted price of the venue
    selected times [1 - draw * slippage / 100]) and the output amount
    (the input amount times the executed price). *)
Theorem processOrder_success (orc : Oracle) (o : Order) (w : World)
    (record : Order) :
  quietWorld w -> orders w !! id o = Some record ->
  (0.05 <= failDraw (swapDraws orc))%Q ->
  let out := processOrder orc (o, w) in
  fst out = Returns tt
  /\ attemptStatuses orc (o, w) = pipeline
  /\ status (fst (snd out)) = CONFIRMED
  /\ InMemoryDatabase.getOrder (id o) (snd (snd out))
     = Some (settledRecord orc o w record).
Proof.
  intros Hq Hrec Hok out.
  assert (H : fst out = Returns tt
              /\ Pub (o, w) (snd out) pipeline
              /\ status (fst (snd out)) = CONFIRMED
              /\ orders (snd (snd out)) !! id o
                 = Some (settledRecord orc o w record)).
  { subst out. unfold processOrder, tryCatch.
    destruct (processOrderBody orc (o, w)) as [rb sb] eqn:Hb.
    destruct (processOrderBody_quiet _ _ _ _ _ _ Hq Hrec Hb)
      as (Hqb & Hnb & Hib & Hcase).
    rewrite (proj2 (ltb_false _ _) Hok) in Hcase.
    destruct Hcase as (-> & Pb & Hst & Hob).
    cbn [fst snd]. split; [ reflexivity | ]. split; [ exact Pb | ].
    split; [ exact Hst | ]. rewrite Hob. apply lookup_insert_eq. }
  destruct H as (H1 & H2 & H3 & H4).
  split; [ exact H1 | ].
  split; [ apply Pub_attemptStatuses; exact H2 | auto ].
Qed.

Lemma processOrder_success_witness :
  status <$> InMemoryDatabase.getOrder "o1"
    (snd (snd (processOrder okDraws (sampleOrder, sampleWorld))))
  = Some CONFIRMED.
Proof.
  destruct (processOrder_success okDraws sampleOrder sampleWorld
              sampleOrder) as (_ & _ & _ & H);
    [ exact quietWorld_sample | reflexivity | unfold Qle; cbn; lia | ].
  change (id sampleOrder) with "o1" in H. rewrite H. reflexivity.
Defined.

End QuietRuns.

(** * Further properties of the queue *)

Section QueueOrder.

Variable config : Config.

Lemma startWaiting_prefix waitingJobs s :
  exists k,
    running (startWaiting config waitingJobs s)
    = (running s ++ map started (take k waitingJobs))%list
    /\ queue (startWaiting config waitingJobs s) = drop k waitingJobs
    /\ (queue (startWaiting config waitingJobs s) = []
        \/ (concurrency config
            <= Z.of_nat (size (activeJobs
                                 (startWaiting config waitingJobs s))))%Z).
Proof.
  revert s. induction waitingJobs as [ | job rest IH ]; intros s.
  - exists 0%nat. cbn. rewrite app_nil_r. auto.
  - cbn [startWaiting].
    destruct (Z.of_nat (size (activeJobs s)) <? concurrency config)%Z
      eqn:Hlt.
    + destruct (IH (processJobStart job (set_queue rest s)))
        as (k & Hr & Hq & Hstop).
      exists (S k). rewrite Hr, Hq. cbn. rewrite <- app_assoc.
      split; [ reflexivity | ]. split; [ reflexivity | ].
      rewrite <- Hq. exact Hstop.
    + exists 0%nat. cbn. rewrite app_nil_r.
      split; [ reflexivity | ]. split; [ reflexivity | ].
      right. apply Z.ltb_ge in Hlt. exact Hlt.
Qed.

(** X21. Jobs are started in the order in which they wait: the inner
    loop of [processQueue] starts the first [k] jobs of the waiting list,
    in that order, and leaves the others waiting in their order; it
    stops only when no job waits or the active set has reached the limit.
    A retried job joins the waiting list at the back, behind the orders
    added in the meantime. *)
Theorem jobs_start_in_fifo_order (waitingJobs : list QueueJob) (s : Queue)
    (job : QueueJob) :
  (exists k,
     running (startWaiting config waitingJobs s)
     = (running s ++ map started (take k waitingJobs))%list
     /\ queue (startWaiting config waitingJobs s) = drop k waitingJobs
     /\ (queue (startWaiting config waitingJobs s) = []
         \/ (concurrency config
             <= Z.of_nat (size (activeJobs
                                  (startWaiting config waitingJobs s))))%Z))
  /\ queue (processJobRetry job s)
     = (queue s ++ [set_j_status waiting job])%list.
Proof. split; [ apply startWaiting_prefix | reflexivity ]. Qed.

(** X25. [addOrder] on a queue whose loop runs only appends the job to
    the waiting list. On an idle queue with nothing waiting and an active
    set below the limit it starts the loop and the job at once: the job
    is running with the status active and one attempt, its id is in the
    active set and the waiting list is empty. *)
Theorem addOrder_behaviour (order : Order) (s : Queue) :
  (processing s = true ->
     addOrder config order s
     = set_queue (queue s ++ [newJob order s]) s)
  /\ (processing s = false -> queue s = [] ->
      (Z.of_nat (size (activeJobs s)) < concurrency config)%Z ->
      running (addOrder config order s)
      = (running s ++ [started (newJob order s)])%list
      /\ queue (addOrder config order s) = []
      /\ processing (addOrder config order s) = true
      /\ loops (addOrder config order s) = S (loops s)
      /\ id order ∈ activeJobs (addOrder config order s)).
Proof.
  unfold addOrder, processQueue. cbn [processing set_queue].
  split; intros Hp; rewrite Hp; cbn [negb]; [ reflexivity | ].
  intros Hq Hlt. rewrite Hq. unfold loopTurn.
  cbn [queue activeJobs set_loops set_processing set_queue app].
  rewrite bool_decide_eq_true_2 by discriminate.
  cbn [orb startWaiting queue activeJobs set_loops set_processing
       set_queue].
  rewrite (proj2 (Z.ltb_lt _ _) Hlt).
  cbn [startWaiting processJobStart queue activeJobs running processing
       loops set_loops set_processing set_queue set_activeJobs
       set_running j_id].
  repeat split; try reflexivity. apply elem_of_union_l, elem_of_singleton.
  reflexivity.
Qed.

End QueueOrder.

Lemma addOrder_behaviour_witness :
  map j_status (running (addOrder defaultConfig sampleOrder init))
  = [active].
Proof.
  destruct (addOrder_behaviour defaultConfig sampleOrder init) as [_ H].
  destruct H as (-> & _);
    [ reflexivity | reflexivity | vm_compute; reflexivity | ].
  reflexivity.
Defined.

Section QueueCounts.

Variable config : Config.

Lemma takeFirst_length {A} (p : A -> bool) l x r :
  takeFirst p l = Some (x, r) -> length l = S (length r).
Proof.
  revert x r. induction l as [ | y l IH ]; intros x r H; [ discriminate | ].
  cbn in H. destruct (p y).
  - injection H as <- <-. reflexivity.
  - destruct (takeFirst p l) as [[z r'] | ]; [ | discriminate ].
    injection H as <- <-. cbn. rewrite (IH _ _ eq_refl). reflexivity.
Qed.

Lemma jobCount_startWaiting waitingJobs s :
  jobCount (startWaiting config waitingJobs s)
  = jobCount (set_queue waitingJobs s).
Proof.
  revert s. induction waitingJobs as [ | job rest IH ]; intros s.
  - reflexivity.
  - cbn [startWaiting]. destruct (_ <? _)%Z; [ | reflexivity ].
    rewrite IH. unfold jobCount. cbn. rewrite length_app. cbn. lia.
Qed.

Lemma jobCount_loopTurn s : jobCount (loopTurn config s) = jobCount s.
Proof.
  unfold loopTurn. destruct (_ || _); [ | reflexivity ].
  rewrite jobCount_startWaiting. reflexivity.
Qed.

Lemma jobCount_step s a :
  isClose a = false ->
  jobCount (step config s a)
  = (jobCount s + length (addedIds [a]))%nat.
Proof.
  intros Hc. destruct a; cbn [step]; try discriminate;
    try (unfold jobCount; cbn; lia).
  - unfold addOrder, processQueue. cbn [processing set_queue].
    assert (H : jobCount (set_queue (queue s ++ [newJob order s]) s)
                = (jobCount s + 1)%nat).
    { unfold jobCount. cbn. rewrite length_app. cbn. lia. }
    fold (newJob order s).
    destruct (processing s); cbn [negb]; [ exact H | ].
    rewrite jobCount_loopTurn. exact H.
  - destruct (loops s); [ cbn; lia | ]. rewrite jobCount_loopTurn. cbn. lia.
  - destruct (takeFirst (hasId jobId) (running s)) as [[job others] | ] eqn:H;
      [ | cbn; lia ].
    apply takeFirst_length in H.
    destruct (processOrder orc (j_order job, world s)) as [r [o w]].
    unfold processJobSettle. destruct r as [[] | e].
    + unfold jobCount in *. cbn. rewrite length_app. cbn. lia.
    + destruct (_ <? _)%Z; unfold jobCount in *; cbn; rewrite length_app;
        cbn; lia.
  - destruct (takeFirst _ (backoff s)) as [[[job d] others] | ] eqn:H;
      [ | cbn; lia ].
    apply takeFirst_length in H.
    unfold jobCount in *. cbn. rewrite length_app. cbn. lia.
Qed.

Lemma addedIds_app l1 l2 :
  addedIds (l1 ++ l2) = (addedIds l1 ++ addedIds l2)%list.
Proof. unfold addedIds. apply flat_map_app. Qed.

Lemma jobCount_run actions s :
  noClose actions ->
  jobCount (run config actions s)
  = (jobCount s + length (addedIds actions))%nat.
Proof.
  intros Hn. revert s. induction Hn as [ | a actions Ha _ IH ]; intros s.
  - cbn. lia.
  - change (run config (a :: actions) s)
      with (run config actions (step config s a)).
    rewrite IH, (jobCount_step s a Ha).
    change (a :: actions) with ([a] ++ actions)%list.
    rewrite addedIds_app, length_app. lia.
Qed.

(** X22. As long as the queue is not closed no job is lost and none is
    made up: in every state reached, the jobs waiting, running, in their
    retry delay, completed and failed are together as many as the orders
    given to [addOrder]. *)
Theorem jobs_are_conserved (actions : list Action) :
  noClose actions ->
  jobCount (run config actions init) = length (addedIds actions).
Proof. intros Hn. rewrite (jobCount_run actions init Hn). reflexivity. Qed.

(** What [attemptsInv] says, and the attempts of the completed jobs. *)
Lemma attempts_completed_step s a :
  attemptsInv config s /\ Forall (runningOk config) (completedJobs s) ->
  attemptsInv config (step config s a)
  /\ Forall (runningOk config) (completedJobs (step config s a)).
Proof.
  intros [Hs Hc]. split; [ apply step_attempts, Hs | ].
  destruct a; cbn [step]; try exact Hc.
  - unfold addOrder, processQueue. cbn [processing set_queue].
    destruct (processing s); cbn [negb]; [ exact Hc | ].
    unfold loopTurn. destruct (_ || _); [ | exact Hc ].
    clear Hs. generalize (queue s ++ [mkJob (id order) order 0 waiting None
                                        (now (world s))])%list.
    intros l.
    assert (Hgen : forall s', Forall (runningOk config) (completedJobs s') ->
              Forall (runningOk config)
                (completedJobs (startWaiting config l s'))).
    { induction l as [ | j l IHl ]; intros s' Hs'; [ exact Hs' | ].
      cbn [startWaiting]. destruct (_ <? _)%Z; [ | exact Hs' ].
      apply IHl. exact Hs'. }
    apply Hgen. exact Hc.
  - destruct (loops s); [ exact Hc | ].
    unfold loopTurn. destruct (_ || _); [ | exact Hc ].
    generalize (queue s). intros l. clear Hs.
    assert (Hgen : forall s', Forall (runningOk config) (completedJobs s') ->
              Forall (runningOk config)
                (completedJobs (startWaiting config l s'))).
    { induction l as [ | j l IHl ]; intros s' Hs'; [ exact Hs' | ].
      cbn [startWaiting]. destruct (_ <? _)%Z; [ | exact Hs' ].
      apply IHl. exact Hs'. }
    apply Hgen. exact Hc.
  - destruct (takeFirst (hasId jobId) (running s)) as [[job others] | ] eqn:H;
      [ | exact Hc ].
    destruct Hs as (_ & Hr & _).
    destruct (takeFirst_Forall _ _ _ _ _ H Hr) as [Hj _].
    destruct (processOrder orc (j_order job, world s)) as [r [o w]].
    unfold processJobSettle. destruct r as [[] | e].
    + cbn. apply Forall_app. split; [ exact Hc | ].
      constructor; [ exact Hj | constructor ].
    + destruct (_ <? _)%Z; exact Hc.
  - destruct (takeFirst _ (backoff s)) as [[[job d] others] | ];
      exact Hc.
Qed.

(** X23. No job is attempted more often than the configured maximum (or
    than once, when the maximum is below 1): in every state reached,
    every job that waits has between 0 and the maximum number of
    attempts, and every job that runs, waits in its retry delay, is
    completed or has failed has between 1 and that number. *)
Theorem attempts_are_bounded (actions : list Action) :
  let s := run config actions init in
  let top := Z.max 1 (maxRetries config) in
  Forall (fun j => (0 <= attempts j <= top)%Z) (queue s)
  /\ Forall (fun j => (1 <= attempts j <= top)%Z)
       (running s ++ map fst (backoff s) ++ completedJobs s
        ++ failedJobs s).
Proof.
  intros s top.
  assert (H : attemptsInv config s
              /\ Forall (runningOk config) (completedJobs s)).
  { apply (run_invariant config
             (fun s => attemptsInv config s
                       /\ Forall (runningOk config) (completedJobs s))).
    - intros s' a. apply attempts_completed_step.
    - split; [ repeat split; constructor | constructor ]. }
  destruct H as ((Hq & Hr & Hb & Hf) & Hc). split.
  - eapply Forall_impl; [ exact Hq | ].
    intros j [Hj | Hj]; subst top; lia.
  - rewrite !Forall_app. split; [ exact Hr | ]. split; [ | split ].
    + apply Forall_fmap. eapply Forall_impl; [ exact Hb | ].
      intros [j d] [Hj _]. cbn in *. subst top. lia.
    + exact Hc.
    + eapply Forall_impl; [ exact Hf | ].
      intros j Hj. unfold failedOk in Hj. subst top. lia.
Qed.

(** X24. A retry delay is pending only when the configured maximum is at
    least 2, and every pending delay lies between 1000 ms and
    [1000 * 2 ^ (maxRetries - 2)] ms. *)
Theorem retry_delay_bounds (actions : list Action) :
  Forall (fun e => (2 <= maxRetries config)%Z
                   /\ (1000 <= snd e)%Z
                   /\ (snd e <= 1000 * 2 ^ (maxRetries config - 2))%Z)
    (backoff (run config actions init)).
Proof.
  assert (H : attemptsInv config (run config actions init)).
  { apply run_invariant; [ apply step_attempts | ].
    repeat split; constructor. }
  destruct H as (_ & _ & Hb & _).
  eapply Forall_impl; [ exact Hb | ].
  intros [j d] [Ha Hd]. cbn [fst snd] in *. subst d.
  split; [ lia | ].
  assert (H1 : (2 ^ 0 <= 2 ^ (attempts j - 1))%Z)
    by (apply Z.pow_le_mono_r; lia).
  assert (H2 : (2 ^ (attempts j - 1) <= 2 ^ (maxRetries config - 2))%Z)
    by (apply Z.pow_le_mono_r; lia).
  change (2 ^ 0)%Z with 1%Z in H1. lia.
Qed.

End QueueCounts.

Lemma jobs_are_conserved_witness :
  jobCount (run defaultConfig alwaysFailing init) = 1%nat.
Proof.
  rewrite (jobs_are_conserved defaultConfig alwaysFailing);
    [ reflexivity | ].
  repeat constructor.
Defined.

(** * The loop of [processQueue] and the counts of [getStats] *)

Section QueueLoop.

Variable config : Config.

Lemma startWaiting_exact waitingJobs s :
  activeExact s -> activeExact (startWaiting config waitingJobs s).
Proof.
  revert s. induction waitingJobs as [ | job rest IH ]; intros s Hs.
  - exact Hs.
  - cbn [startWaiting]. destruct (_ <? _)%Z; [ | exact Hs ].
    apply IH. intros i Hi. unfold inFlight in Hi.
    cbn [processJobStart running backoff set_running set_activeJobs
         set_queue] in Hi.
    rewrite countIf_app, countIf_cons, countIf_nil in Hi.
    change (hasId i (set_attempts _ _)) with (hasId i job) in Hi.
    cbn [processJobStart activeJobs set_running set_activeJobs set_queue].
    apply elem_of_union. destruct (hasId i job) eqn:Hj.
    + left. apply hasId_true in Hj. apply elem_of_singleton. auto.
    + right. apply Hs. unfold inFlight. lia.
Qed.

Lemma startWaiting_flags waitingJobs s :
  processing (startWaiting config waitingJobs s) = processing s
  /\ loops (startWaiting config waitingJobs s) = loops s.
Proof.
  revert s. induction waitingJobs as [ | job rest IH ]; intros s.
  - auto.
  - cbn [startWaiting]. destruct (_ <? _)%Z; [ | auto ].
    destruct (IH (processJobStart job (set_queue rest s))) as [-> ->].
    auto.
Qed.

Lemma activeExact_loopTurn s :
  activeExact s -> activeExact (loopTurn config s).
Proof.
  intros Hs. unfold loopTurn. destruct (_ || _).
  - apply startWaiting_exact, Hs.
  - exact Hs.
Qed.

Lemma takeFirst_inFlight_running jobId s job others :
  takeFirst (hasId jobId) (running s) = Some (job, others) ->
  (1 <= inFlight (j_id job) s)%nat.
Proof.
  intros H.
  destruct (takeFirst_count _ (hasId (j_id job)) _ _ _ H) as [_ Hc].
  unfold inFlight. rewrite Hc.
  replace (hasId (j_id job) job) with true
    by (symmetry; apply hasId_true; reflexivity).
  lia.
Qed.

Lemma takeFirst_inFlight_backoff jobId s job d others :
  takeFirst (fun e => hasId jobId (fst e)) (backoff s)
  = Some ((job, d), others) ->
  (1 <= inFlight (j_id job) s)%nat.
Proof.
  intros H.
  destruct (takeFirst_count _ (fun e => hasId (j_id job) (fst e)) _ _ _ H)
    as [_ Hc].
  unfold inFlight. rewrite Hc. cbn [fst].
  replace (hasId (j_id job) job) with true
    by (symmetry; apply hasId_true; reflexivity).
  lia.
Qed.

(** With one job per id, the id that leaves the active set is the id of
    no other job in processing. *)
Lemma activeExact_step s a :
  isClose a = false -> (forall i, (held i s <= 1)%nat) ->
  activeExact s -> activeExact (step config s a).
Proof.
  intros Hc Hu Hs. destruct a; cbn [step]; try exact Hs; try discriminate.
  - unfold addOrder, processQueue. cbn [processing set_queue].
    destruct (processing s); cbn [negb]; [ exact Hs | ].
    apply activeExact_loopTurn. exact Hs.
  - destruct (loops s); [ exact Hs | ]. apply activeExact_loopTurn, Hs.
  - destruct (takeFirst (hasId jobId) (running s)) as [[job others] | ] eqn:H;
      [ | exact Hs ].
    assert (Hdel : forall i,
              (1 <= countIf (hasId i) others
                    + countIf (fun e => hasId i (fst e)) (backoff s))%nat ->
              i ∈ activeJobs s ∖ {[ j_id job ]}).
    { intros i Hi.
      destruct (takeFirst_count _ (hasId i) _ _ _ H) as [_ Hn].
      apply elem_of_difference. split.
      - apply Hs. unfold inFlight. lia.
      - rewrite elem_of_singleton. intros ->.
        specialize (Hu (j_id job)). unfold held in Hu.
        replace (hasId (j_id job) job) with true in Hn
          by (symmetry; apply hasId_true; reflexivity).
        lia. }
    destruct (processOrder orc (j_order job, world s)) as [r [o w]].
    unfold processJobSettle. destruct r as [[] | e].
    + intros i Hi. apply Hdel. exact Hi.
    + destruct (_ <? _)%Z.
      * intros i Hi. apply Hs.
        destruct (takeFirst_count _ (hasId i) _ _ _ H) as [_ Hn].
        unfold inFlight in *.
        cbn [running backoff set_backoff set_world set_running] in Hi.
        rewrite countIf_app, countIf_cons, countIf_nil in Hi. cbn [fst] in Hi.
        change (hasId i (set_j_order o job)) with (hasId i job) in Hi. lia.
      * intros i Hi. apply Hdel. exact Hi.
  - destruct (takeFirst _ (backoff s)) as [[[job d] others] | ] eqn:H;
      [ | exact Hs ].
    intros i Hi.
    destruct (takeFirst_count _ (fun e => hasId i (fst e)) _ _ _ H)
      as [_ Hn].
    cbn [fst] in Hn. unfold inFlight in Hi.
    cbn [processJobRetry running backoff set_backoff set_queue
         set_activeJobs] in Hi.
    cbn [processJobRetry activeJobs set_backoff set_queue set_activeJobs
         j_id set_j_status].
    apply elem_of_difference. split.
    + apply Hs. unfold inFlight. lia.
    + rewrite elem_of_singleton. intros ->.
      specialize (Hu (j_id job)). unfold held in Hu.
      replace (hasId (j_id job) job) with true in Hn
        by (symmetry; apply hasId_true; reflexivity).
      lia.
Qed.

Lemma loopInv_loopTurn s :
  processing s = true -> loops s = 1%nat -> loopInv (loopTurn config s).
Proof.
  intros Hp Hl. unfold loopTurn.
  destruct (bool_decide (queue s ≠ [])) eqn:Hq; cbn [orb].
  - destruct (startWaiting_flags (queue s) s) as [Ep El].
    split; rewrite Ep, Hp; [ rewrite El; exact Hl | discriminate ].
  - destruct (bool_decide (size (activeJobs s) ≠ 0%nat)) eqn:Ha.
    + destruct (startWaiting_flags (queue s) s) as [Ep El].
      split; rewrite Ep, Hp; [ rewrite El; exact Hl | discriminate ].
    + apply bool_decide_eq_false in Hq, Ha.
      split; cbn; [ rewrite Hl; reflexivity | ]. intros _. split.
      * destruct (queue s); [ reflexivity | ]. exfalso. apply Hq. discriminate.
      * apply leibniz_equiv, size_empty_iff.
        destruct (size (activeJobs s)); [ reflexivity | ].
        exfalso. apply Ha. discriminate.
Qed.

Lemma loopInv_step s a :
  isClose a = false -> activeExact s ->
  loopInv s -> loopInv (step config s a).
Proof.
  intros Hc Hx Hs. destruct a; cbn [step]; try exact Hs; try discriminate.
  - unfold addOrder, processQueue. cbn [processing set_queue].
    destruct Hs as [Hl Hp].
    destruct (processing s) eqn:Ep; cbn [negb].
    + split; cbn; [ rewrite Ep; exact Hl | rewrite Ep; discriminate ].
    + apply loopInv_loopTurn; cbn; [ reflexivity | rewrite Hl; reflexivity ].
  - destruct Hs as [Hl Hp]. destruct (loops s) as [ | n ] eqn:El.
    + split; [ rewrite El; exact Hl | exact Hp ].
    + destruct (processing s) eqn:Ep; [ | discriminate ].
      apply loopInv_loopTurn; [ exact Ep | rewrite El; exact Hl ].
  - destruct (takeFirst (hasId jobId) (running s)) as [[job others] | ] eqn:H;
      [ | exact Hs ].
    pose proof (Hx _ (takeFirst_inFlight_running _ _ _ _ H)) as Hin.
    destruct Hs as [Hl Hp].
    assert (Hq : processing s = true).
    { destruct (processing s); [ reflexivity | ].
      destruct (Hp eq_refl) as [_ He]. rewrite He in Hin.
      apply not_elem_of_empty in Hin. contradiction. }
    destruct (processOrder orc (j_order job, world s)) as [r [o w]].
    unfold processJobSettle. destruct r as [[] | e].
    + split; cbn; rewrite Hq; [ rewrite Hl, Hq; reflexivity | discriminate ].
    + destruct (_ <? _)%Z;
        (split; cbn; rewrite Hq;
         [ rewrite Hl, Hq; reflexivity | discriminate ]).
  - destruct (takeFirst _ (backoff s)) as [[[job d] others] | ] eqn:H;
      [ | exact Hs ].
    pose proof (Hx _ (takeFirst_inFlight_backoff _ _ _ _ _ H)) as Hin.
    destruct Hs as [Hl Hp].
    assert (Hq : processing s = true).
    { destruct (processing s); [ reflexivity | ].
      destruct (Hp eq_refl) as [_ He]. rewrite He in Hin.
      apply not_elem_of_empty in Hin. contradiction. }
    split; cbn; rewrite Hq; [ rewrite Hl, Hq; reflexivity | discriminate ].
Qed.

Lemma run_snoc actions a s :
  run config (actions ++ [a]) s = step config (run config actions s) a.
Proof. unfold run. rewrite fold_left_app. reflexivity. Qed.

Lemma held_init i : held i init = 0%nat.
Proof. reflexivity. Qed.

Lemma unique_ids_run actions :
  NoDup (addedIds actions) ->
  forall i, (held i (run config actions init) <= 1)%nat.
Proof.
  intros Hn i. pose proof (held_run config actions init i) as H.
  pose proof (addedCount_NoDup i actions Hn). rewrite held_init in H. lia.
Qed.

Lemma loop_run actions :
  NoDup (addedIds actions) -> noClose actions ->
  activeExact (run config actions init)
  /\ loopInv (run config actions init).
Proof.
  induction actions as [ | a actions IH ] using rev_ind; intros Hn Hc.
  - split.
    + intros i Hi. unfold inFlight in Hi. cbn in Hi.
      rewrite !countIf_nil in Hi. lia.
    + split; [ reflexivity | auto ].
  - rewrite addedIds_app in Hn. apply NoDup_app in Hn as (Hn & _ & _).
    apply Forall_app in Hc as [Hc Ha].
    apply Forall_cons in Ha as [Ha _].
    destruct (IH Hn Hc) as [Hx Hl]. rewrite run_snoc. split.
    + apply activeExact_step; [ exact Ha | | exact Hx ].
      apply unique_ids_run, Hn.
    + apply loopInv_step; assumption.
Qed.

(** X26. In a run in which every order is given to [addOrder] once and
    the queue is not closed, at most one loop of [processQueue] is alive,
    and it is alive exactly when [processing] is set; whenever no loop is
    alive, no job waits, none runs and none waits in its retry delay: no
    job is left behind by the loop. *)
Theorem processQueue_leaves_no_job_behind (actions : list Action) :
  NoDup (addedIds actions) -> noClose actions ->
  let s := run config actions init in
  loops s = (if processing s then 1 else 0)%nat
  /\ (processing s = false ->
      queue s = [] /\ running s = [] /\ backoff s = []
      /\ activeJobs s = ∅).
Proof.
  intros Hn Hc s. destruct (loop_run actions Hn Hc) as [Hx [Hl Hp]].
  fold s in Hx, Hl, Hp. split; [ exact Hl | ].
  intros Hf. destruct (Hp Hf) as [Hq He].
  split; [ exact Hq | ]. split; [ | split; [ | exact He ] ].
  - destruct (running s) as [ | j l ] eqn:Hr; [ reflexivity | ].
    exfalso. apply (not_elem_of_empty (C := gset string) (j_id j)).
    rewrite <- He.
    apply Hx. unfold inFlight. rewrite Hr, countIf_cons.
    replace (hasId (j_id j) j) with true
      by (symmetry; apply hasId_true; reflexivity).
    lia.
  - destruct (backoff s) as [ | [j d] l ] eqn:Hb; [ reflexivity | ].
    exfalso. apply (not_elem_of_empty (C := gset string) (j_id j)).
    rewrite <- He.
    apply Hx. unfold inFlight. rewrite Hb, countIf_cons. cbn [fst].
    replace (hasId (j_id j) j) with true
      by (symmetry; apply hasId_true; reflexivity).
    lia.
Qed.

Lemma countIf_map {A B} (q : B -> bool) (f : A -> B) l :
  countIf q (map f l) = countIf (fun x => q (f x)) l.
Proof.
  induction l as [ | x l IH ]; [ reflexivity | ].
  cbn [map]. rewrite !countIf_cons, IH. reflexivity.
Qed.

(** A set that holds exactly the elements of a list without repetition
    has the size of the list. *)
Lemma size_of_counts (l : list string) (X : gset string) :
  (forall i, i ∈ X <-> (1 <= countIf (fun x => bool_decide (x = i)) l)%nat) ->
  (forall i, (countIf (fun x => bool_decide (x = i)) l <= 1)%nat) ->
  size X = length l.
Proof.
  revert X. induction l as [ | x l IH ]; intros X Hm Hu.
  - apply size_empty_iff, elem_of_equiv_empty. intros i Hi.
    apply Hm in Hi. rewrite countIf_nil in Hi. lia.
  - assert (Hx : x ∈ X).
    { apply Hm. rewrite countIf_cons, bool_decide_eq_true_2 by reflexivity.
      lia. }
    assert (Hx0 : countIf (fun y => bool_decide (y = x)) l = 0%nat).
    { specialize (Hu x).
      rewrite countIf_cons, bool_decide_eq_true_2 in Hu by reflexivity.
      lia. }
    assert (Hsub : {[ x ]} ⊆ X) by (apply singleton_subseteq_l, Hx).
    rewrite (union_difference_L {[ x ]} X Hsub).
    rewrite size_union by (apply disjoint_difference_r1; reflexivity).
    rewrite size_singleton. cbn [length]. f_equal.
    apply IH.
    + intros i. rewrite elem_of_difference, elem_of_singleton, Hm.
      rewrite countIf_cons. destruct (decide (x = i)) as [-> | Hne].
      * rewrite Hx0. split; [ intros [_ H]; contradiction | lia ].
      * rewrite bool_decide_eq_false_2 by exact Hne.
        split; [ intros [H _]; exact H | ].
        intros H. split; [ exact H | congruence ].
    + intros i. specialize (Hu i). rewrite countIf_cons in Hu. lia.
Qed.

Lemma activeInv_run actions : activeInv (run config actions init).
Proof.
  apply run_invariant; [ apply activeInv_step | ].
  repeat split; try constructor.
  intros i Hi. apply not_elem_of_empty in Hi. contradiction.
Qed.

Lemma size_activeJobs actions :
  NoDup (addedIds actions) -> noClose actions ->
  let s := run config actions init in
  size (activeJobs s) = (length (running s) + length (backoff s))%nat.
Proof.
  intros Hn Hc s.
  destruct (loop_run actions Hn Hc) as [Hx _].
  destruct (activeInv_run actions) as (_ & _ & Ha).
  pose proof (unique_ids_run actions Hn) as Hu.
  fold s in Hx, Ha, Hu.
  assert (Hcount : forall i,
            countIf (fun x => bool_decide (x = i))
              (map j_id (running s)
               ++ map (fun e => j_id (fst e)) (backoff s))
            = inFlight i s).
  { intros i. rewrite countIf_app, !countIf_map. reflexivity. }
  rewrite (size_of_counts
             (map j_id (running s)
              ++ map (fun e => j_id (fst e)) (backoff s)) (activeJobs s)).
  - rewrite length_app, !length_map. reflexivity.
  - intros i. rewrite Hcount. split; [ apply Ha | apply Hx ].
  - intros i. rewrite Hcount. specialize (Hu i).
    unfold held in Hu. unfold inFlight. lia.
Qed.

(** X27. In a run in which every order is given to [addOrder] once and
    the queue is not closed, the [active] count of [getStats] is the
    number of jobs in processing (running or in their retry delay), and
    its [total] is the number of orders given to [addOrder]. *)
Theorem getStats_counts_every_order (actions : list Action) :
  NoDup (addedIds actions) -> noClose actions ->
  let s := run config actions init in
  st_active (getStats s) = (length (running s) + length (backoff s))%nat
  /\ st_total (getStats s) = length (addedIds actions).
Proof.
  intros Hn Hc s. pose proof (size_activeJobs actions Hn Hc) as Hs.
  cbv zeta in Hs. fold s in Hs. split; [ exact Hs | ].
  pose proof (jobCount_run config actions init Hc) as Hj. fold s in Hj.
  change (jobCount init) with 0%nat in Hj. unfold jobCount in Hj.
  cbn [getStats st_total]. rewrite Hs. lia.
Qed.

Lemma settled_startWaiting waitingJobs s :
  completedJobs (startWaiting config waitingJobs s) = completedJobs s
  /\ failedJobs (startWaiting config waitingJobs s) = failedJobs s.
Proof.
  revert s. induction waitingJobs as [ | job rest IH ]; intros s.
  - auto.
  - cbn [startWaiting]. destruct (_ <? _)%Z; [ | auto ].
    destruct (IH (processJobStart job (set_queue rest s))) as [-> ->].
    auto.
Qed.

Lemma settled_loopTurn s :
  completedJobs (loopTurn config s) = completedJobs s
  /\ failedJobs (loopTurn config s) = failedJobs s.
Proof.
  unfold loopTurn. destruct (_ || _); [ apply settled_startWaiting | auto ].
Qed.

Lemma settled_step s a :
  exists cs fs,
    completedJobs (step config s a) = (completedJobs s ++ cs)%list
    /\ failedJobs (step config s a) = (failedJobs s ++ fs)%list.
Proof.
  assert (Hsame : forall s', completedJobs s' = completedJobs s ->
            failedJobs s' = failedJobs s ->
            exists cs fs, completedJobs s' = (completedJobs s ++ cs)%list
              /\ failedJobs s' = (failedJobs s ++ fs)%list).
  { intros s' -> ->. exists [], []. rewrite !app_nil_r. auto. }
  destruct a; cbn [step]; try (apply Hsame; reflexivity).
  - unfold addOrder, processQueue. cbn [processing set_queue].
    destruct (processing s); cbn [negb]; [ apply Hsame; reflexivity | ].
    apply Hsame; [ rewrite (proj1 (settled_loopTurn _))
                 | rewrite (proj2 (settled_loopTurn _)) ]; reflexivity.
  - destruct (loops s); [ apply Hsame; reflexivity | ].
    apply Hsame; apply settled_loopTurn.
  - destruct (takeFirst (hasId jobId) (running s)) as [[job others] | ];
      [ | apply Hsame; reflexivity ].
    destruct (processOrder orc (j_order job, world s)) as [r [o w]].
    unfold processJobSettle. destruct r as [[] | e].
    + eexists _, []. cbn.
      split; [ reflexivity | symmetry; apply app_nil_r ].
    + destruct (_ <? _)%Z; [ apply Hsame; reflexivity | ].
      eexists [], _. cbn.
      split; [ symmetry; apply app_nil_r | reflexivity ].
  - destruct (takeFirst _ (backoff s)) as [[[job d] others] | ];
      apply Hsame; reflexivity.
Qed.

(** X28. The lists of completed and of failed jobs only grow: whatever
    happens after a state, [close] included, the jobs that were in these
    lists stay there, in the same order and in front of the ones added
    later. *)
Theorem settled_jobs_are_kept (actions : list Action) (s : Queue) :
  exists cs fs,
    completedJobs (run config actions s) = (completedJobs s ++ cs)%list
    /\ failedJobs (run config actions s) = (failedJobs s ++ fs)%list.
Proof.
  revert s. induction actions as [ | a actions IH ]; intros s.
  - exists [], []. rewrite !app_nil_r. auto.
  - change (run config (a :: actions) s)
      with (run config actions (step config s a)).
    destruct (IH (step config s a)) as (cs & fs & -> & ->).
    destruct (settled_step s a) as (cs0 & fs0 & -> & ->).
    exists (cs0 ++ cs)%list, (fs0 ++ fs)%list. rewrite !app_assoc. auto.
Qed.

(** One run of [processOrder] on the records of the store. *)
Lemma processOrder_store orc o w j record' :
  orders (snd (snd (processOrder orc (o, w)))) !! j = Some record' ->
  exists record, orders w !! j = Some record
    /\ sameInputs record record'
    /\ statusStep (status record) (status record').
Proof.
  assert (X : Frame (o, w) (snd (processOrder orc (o, w)))).
  { unfold processOrder, tryCatch.
    destruct (processOrderBody orc (o, w)) as [rb sb] eqn:Hb.
    apply processOrderBody_frame in Hb as [X _].
    destruct rb as [[] | e]; [ exact X | ].
    destruct (processOrderCatch e sb) as [rc sc] eqn:Hc.
    apply processOrderCatch_frame in Hc as (Xc & _).
    exact (Frame_trans _ _ _ X Xc). }
  destruct X as (_ & _ & _ & _ & _ & Ho & Hr & _). cbn [fst snd] in Ho, Hr.
  intros H. destruct (decide (j = id o)) as [-> | Hne].
  - apply Hr. exact H.
  - rewrite (Ho j Hne) in H. exists record'.
    split; [ exact H | ]. split; [ apply sameInputs_refl | left; reflexivity ].
Qed.

Lemma createdOrders_app l1 l2 :
  createdOrders (l1 ++ l2)
  = (createdOrders l1 ++ createdOrders l2)%list.
Proof. unfold createdOrders. apply flat_map_app. Qed.

Lemma cameFrom_step created s a :
  cameFrom created (world s) ->
  cameFrom (created ++ createdOrders [a]) (world (step config s a)).
Proof.
  intros Hs.
  assert (Hsame : forall w', orders w' = orders (world s) ->
            cameFrom (created ++ []) w').
  { intros w' Hw j record H. rewrite Hw in H. rewrite app_nil_r.
    apply Hs. exact H. }
  destruct a; cbn [step createdOrders flat_map];
    try (apply Hsame; reflexivity).
  - intros j record H. cbn in H.
    destruct (decide (id order = j)) as [<- | Hne].
    + rewrite lookup_insert_eq in H. injection H as <-.
      exists order. split; [ apply elem_of_app; right; left | ].
      split; [ reflexivity | ].
      split; [ apply sameInputs_refl | left; reflexivity ].
    + rewrite lookup_insert_ne in H by exact Hne.
      destruct (Hs j record H) as (o & Hin & Ho).
      exists o. split; [ apply elem_of_app; left; exact Hin | exact Ho ].
  - apply Hsame. rewrite world_addOrder. reflexivity.
  - apply Hsame. destruct (loops s); [ | rewrite world_loopTurn ];
      reflexivity.
  - destruct (takeFirst (hasId jobId) (running s)) as [[job others] | ] eqn:H;
      [ | apply Hsame; reflexivity ].
    pose proof (world_Finish config s jobId orc job others H) as Hw.
    cbn [step] in Hw. rewrite H in Hw. rewrite Hw.
    intros j record' Hj. rewrite app_nil_r.
    apply processOrder_store in Hj as (record & Hrec & Hi & Hst).
    destruct (Hs j record Hrec) as (o & Hin & Hid & Hio & Hso).
    exists o. split; [ exact Hin | ]. split; [ exact Hid | ].
    split; [ exact (sameInputs_trans _ _ _ Hio Hi) | ].
    exact (statusStep_trans _ _ _ Hso Hst).
  - apply Hsame.
    destruct (takeFirst _ (backoff s)) as [[[job d] others] | ];
      reflexivity.
Qed.

Lemma cameFrom_run actions :
  cameFrom (createdOrders actions) (world (run config actions init)).
Proof.
  induction actions as [ | a actions IH ] using rev_ind.
  - intros j record H. cbn in H. rewrite lookup_empty in H. discriminate.
  - rewrite run_snoc, createdOrders_app. apply cameFrom_step, IH.
Qed.

(** X29. The store holds only what [createOrder] put there: in every
    state reached, a record found by [getOrder] under an id has the id,
    type, tokens, amount and slippage of an order given to [createOrder]
    with that id, and its status is the status of that order, or
    confirmed, or failed: processing writes no other status to the
    store, so the record of an order created as pending never shows
    routing, building or submitted. *)
Theorem store_records_come_from_createOrder (actions : list Action)
    (i : string) (record : Order) :
  InMemoryDatabase.getOrder i (world (run config actions init))
  = Some record ->
  exists o, o ∈ createdOrders actions /\ id o = i /\ sameInputs o record
    /\ statusStep (status o) (status record).
Proof. intros H. apply (cameFrom_run actions i record H). Qed.

End QueueLoop.

Lemma processQueue_leaves_no_job_behind_witness :
  let s := run defaultConfig (alwaysFailing ++ [Tick]) init in
  loops s = 0%nat /\ processing s = false /\ running s = [].
Proof.
  cbv zeta.
  destruct (processQueue_leaves_no_job_behind defaultConfig
              (alwaysFailing ++ [Tick])) as [Hl Hp].
  - cbn. apply NoDup_singleton.
  - repeat constructor.
  - assert (Hf : processing (run defaultConfig (alwaysFailing ++ [Tick])
                               init) = false)
      by (vm_compute; reflexivity).
    rewrite Hf in Hl. destruct (Hp Hf) as (_ & Hr & _). auto.
Defined.

Lemma getStats_counts_every_order_witness :
  st_total (getStats (run defaultConfig alwaysFailing init)) = 1%nat.
Proof.
  destruct (getStats_counts_every_order defaultConfig alwaysFailing)
    as [_ H].
  - cbn. apply NoDup_singleton.
  - repeat constructor.
  - exact H.
Defined.

Lemma store_records_come_from_createOrder_witness :
  exists record,
    InMemoryDatabase.getOrder "o1"
      (world (run defaultConfig alwaysFailing init)) = Some record
    /\ exists o, o ∈ createdOrders alwaysFailing /\ id o = "o1"
         /\ sameInputs o record /\ statusStep (status o) (status record).
Proof.
  eexists. split; [ vm_compute; reflexivity | ].
  apply (store_records_come_from_createOrder defaultConfig alwaysFailing).
  vm_compute. reflexivity.
Defined.
